(** * Veritas AI Detector: progressive video analysis

    A shallow embedding of [handleProgressiveVideoAnalysis] (src/App.tsx,
    lines 820-957) together with the queue helpers it calls
    ([updateQueueItem], [removeFile], [saveToHistory], [addToast]) and the
    data types of the repository's types module.

    Conventions of the embedding.
    - A JavaScript [number] is an exact rational ([Q]); NaN, the infinities
      and binary rounding are outside the model.  [Math.round] is
      [floor (x + 1/2)], [Math.max] is the larger of its arguments.
    - The browser and the remote classifier are an environment record
      ([Env]): the duration reported by the video element, the configured
      sample interval, the string produced by [captureFrame] and the
      outcome of each [detectAIContent] call (a thrown message or a result).
    - React state ([queue], [activeFileId], [result], history, toasts) and
      the calls that leave the function (loading, seeking, classifying,
      detaching the video) live in a [World] record threaded through the
      function.  Other handlers may run whenever the function is suspended
      at an [await]; they are an [Interference] parameter. *)

From Stdlib Require Import ZArith QArith Qround Lqa Lia.
From Stdlib Require Import List String Ascii Bool.
From Stdlib Require Import Sorting.Sorted Sorting.Permutation.
From Stdlib Require Import DecimalString.
Import ListNotations.

Open Scope string_scope.
Open Scope Q_scope.

(** ** JavaScript primitives used by the function *)

Module JS.

(** [Math.round(x)]: the nearest integer, halves towards +infinity. *)
Definition Math_round (x : Q) : Z := Qfloor (x + (1 # 2)).

(** [Math.max(a, b)]. *)
Definition Math_max (a b : Q) : Q := if Qle_bool a b then b else a.

(** [a < b] on numbers. *)
Definition lt (a b : Q) : bool := negb (Qle_bool b a).

(** [x || d] on numbers: [0] is falsy. *)
Definition num_or (x d : Q) : Q := if Qeq_bool x 0 then d else x.

(** [s || d] on strings: the empty string is falsy. *)
Definition str_or (s d : string) : string :=
  match s with EmptyString => d | _ => s end.

(** [`${n}`] for a non-negative integer. *)
Definition show (n : nat) : string := NilZero.string_of_uint (Nat.to_uint n).

(** [s.substring(0, n)]. *)
Definition substring0 (n : nat) (s : string) : string := String.substring 0 n s.

(** [new Map(pairs)] keeps one entry per key, at the position where the
    key was first inserted, holding the value written last. *)
Section MapOf.
Context {V : Type}.

Fixpoint Map_set (k : string) (v : V) (m : list (string * V)) : list (string * V) :=
  match m with
  | [] => [(k, v)]
  | (k', v') :: m' =>
      if String.eqb k' k then (k', v) :: m' else (k', v') :: Map_set k v m'
  end.

Definition Map_of (pairs : list (string * V)) : list (string * V) :=
  fold_left (fun m kv => Map_set (fst kv) (snd kv) m) pairs [].

Definition Map_values (m : list (string * V)) : list V := map snd m.
End MapOf.

(** [arr.sort(cmp)].  The language requires the sort to be stable; for a
  comparator that is a consistent ordering the outcome is then unique,
  and it is computed here by stable insertion from the right. *)
Section Sort.
Context {A : Type} (cmp : A -> A -> Q).

Fixpoint sort_insert (x : A) (l : list A) : list A :=
  match l with
  | [] => [x]
  | y :: l' => if Qle_bool (cmp x y) 0 then x :: l else y :: sort_insert x l'
  end.

Definition sort (l : list A) : list A := fold_right sort_insert [] l.
End Sort.

(** [arr.slice(0, n)]. *)
Definition slice0 {A : Type} (n : nat) (l : list A) : list A := firstn n l.

End JS.

(** ** Data types (types module) *)

Inductive Label := LikelyAI | LikelyHuman | MixedUncertain.

Definition Label_text (l : Label) : string :=
  match l with
  | LikelyAI => "Likely AI"
  | LikelyHuman => "Likely Human"
  | MixedUncertain => "Mixed/Uncertain"
  end.

Record KeyFeature := mkKeyFeature {
  feature : string;
  impactScore : Q
}.

Record AnalysisResult := mkAnalysisResult {
  probabilityAI : Q;
  label : Label;
  confidence : Q;
  reasoning : string;
  keyFeatures : list KeyFeature
}.

Inductive Status := Uploading | Ready | Analyzing | Done | Error.

Record QueueItem := mkQueueItem {
  id : string;
  fileName : string;
  status : Status;
  progress : Q;
  previewUrl : option string;
  base64 : option string;
  mimeType : string;
  result : option AnalysisResult;
  error : option string;
  segmentsProcessed : option nat;
  totalSegments : option nat
}.

(** [Partial<QueueItem>] restricted to the fields the video path writes. *)
Record Updates := mkUpdates {
  u_status : option Status;
  u_result : option AnalysisResult;
  u_error : option string;
  u_segmentsProcessed : option nat;
  u_totalSegments : option nat
}.

Inductive MediaType := TEXT | IMAGE | AUDIO | VIDEO.

(** A history entry without its random id, its clock reading and the
    configuration snapshot. *)
Record HistoryItem := mkHistoryItem {
  h_mediaType : MediaType;
  h_preview : string;
  h_result : AnalysisResult;
  h_content : option string;
  h_mimeType : option string;
  h_fileName : option string
}.

Inductive ToastType := success | error_toast | info.

(** ** The sample schedule (lines 835-842) *)

(** [for (let t = 0; t < duration; t += interval) timestamps.push(t)],
    unrolled at most [fuel] times. *)
Fixpoint timestamps_loop (fuel : nat) (t duration interval : Q) : list Q :=
  match fuel with
  | O => []
  | S fuel' =>
      if JS.lt t duration
      then t :: timestamps_loop fuel' (t + interval) duration interval
      else []
  end.

(** As the step is at least one second the loop body runs at most
    [ceil duration] times. *)
Definition timestamps_fuel (duration : Q) : nat := Z.to_nat (Qceiling duration).

(** [timestamps] as computed from [video.duration] and
    [advancedConfig.sampleInterval]. *)
Definition timestamps (video_duration sampleInterval : Q) : list Q :=
  let duration := JS.num_or video_duration 1 in
  let interval := JS.Math_max 1 sampleInterval in
  let ts := timestamps_loop (timestamps_fuel duration) 0 duration interval in
  match ts with
  | [] => [0]
  | _ => ts
  end.

(** ** Aggregation (lines 851-854, 890-911, 921-937) *)

(** The mutable locals of the function. *)
Record Locals := mkLocals {
  aggregatedProb : Q;
  aggregatedConf : Q;
  allKeyFeatures : list KeyFeature;
  lastResult : option AnalysisResult
}.

Definition initial_locals : Locals := mkLocals 0 0 [] None.

(** "Update Running Aggregates" (lines 891-894). *)
Definition accumulate (frameResult : AnalysisResult) (st : Locals) : Locals :=
  mkLocals (aggregatedProb st + probabilityAI frameResult)
           (aggregatedConf st + confidence frameResult)
           (allKeyFeatures st ++ keyFeatures frameResult)
           (Some frameResult).

(** "Deduplicate features by name and take highest impact" (lines 901-903
    and 927-929). *)
Definition evidencePool (all : list KeyFeature) : list KeyFeature :=
  JS.Map_values (JS.Map_of (map (fun f => (feature f, f)) all)).

Definition by_impact_desc (a b : KeyFeature) : Q := impactScore b - impactScore a.

Definition uniqueFeatures (all : list KeyFeature) : list KeyFeature :=
  JS.slice0 6 (JS.sort by_impact_desc (evidencePool all)).

(** The label of an intermediate result (line 908). *)
Definition progressive_label (currentAvgProb : Z) : Label :=
  if (50 <? currentAvgProb)%Z then LikelyAI else LikelyHuman.

(** The label of the final result (line 934). *)
Definition final_label (finalProb : Z) : Label :=
  if (50 <? finalProb)%Z then LikelyAI
  else if (30 <? finalProb)%Z then MixedUncertain
  else LikelyHuman.

(** The intermediate result published in iteration [i] (lines 896-911);
    [st] already includes [frameResult]. *)
Definition progressiveResult (st : Locals) (i totalSegments : nat)
    (frameResult : AnalysisResult) : AnalysisResult :=
  let count := S i in
  let currentAvgProb := JS.Math_round (aggregatedProb st / inject_Z (Z.of_nat count)) in
  let currentAvgConf := JS.Math_round (aggregatedConf st / inject_Z (Z.of_nat count)) in
  mkAnalysisResult
    (inject_Z currentAvgProb)
    (progressive_label currentAvgProb)
    (inject_Z currentAvgConf)
    ("Progressive analysis in progress (" ++ JS.show count ++ "/"
       ++ JS.show totalSegments ++ " segments). Latest frame finding: "
       ++ JS.substring0 100 (reasoning frameResult) ++ "...")
    (uniqueFeatures (allKeyFeatures st)).

(** The final result (lines 923-937). *)
Definition finalResult (st : Locals) (totalSegments : nat) : AnalysisResult :=
  let count := totalSegments in
  let finalProb := JS.Math_round (aggregatedProb st / inject_Z (Z.of_nat count)) in
  let finalConf := JS.Math_round (aggregatedConf st / inject_Z (Z.of_nat count)) in
  mkAnalysisResult
    (inject_Z finalProb)
    (final_label finalProb)
    (inject_Z finalConf)
    ("Comprehensive progressive analysis of " ++ JS.show totalSegments
       ++ " video segments completed. The aggregate probability suggests "
       ++ (if (50 <? finalProb)%Z then "artificial generation" else "human origin")
       ++ ". Key artifacts detected across frames have been summarized.")
    (uniqueFeatures (allKeyFeatures st)).

(** ** The environment and the observable world *)

(** What the browser and the classifier answer during one run.
    [detectAIContent i payload] is the outcome of the call made for segment
    [i]: [inl message] when the promise rejects with [Error(message)],
    [inr r] when it resolves to [r]. *)
Record Env := mkEnv {
  video_duration : Q;
  sampleInterval : Q;
  captureFrame : Q -> string;
  detectAIContent : nat -> string -> string + AnalysisResult
}.

(** Calls that leave the function. *)
Inductive Call :=
| VideoLoad (src : string)
| Seek (time : Q)
| Classify (payload : string)
| VideoDetach.

(** The React state the function writes ([shownResult] is the [result]
    state behind [setResult]) and the calls made so far, oldest first. *)
Record World := mkWorld {
  queue : list QueueItem;
  activeFileId : option string;
  shownResult : option AnalysisResult;
  history : list HistoryItem;
  toasts : list (string * ToastType);
  calls : list Call
}.

Definition setQueue (f : list QueueItem -> list QueueItem) (w : World) : World :=
  mkWorld (f (queue w)) (activeFileId w) (shownResult w) (history w) (toasts w) (calls w).

Definition setActiveFileId (a : option string) (w : World) : World :=
  mkWorld (queue w) a (shownResult w) (history w) (toasts w) (calls w).

Definition setResult (r : option AnalysisResult) (w : World) : World :=
  mkWorld (queue w) (activeFileId w) r (history w) (toasts w) (calls w).

Definition setHistory (f : list HistoryItem -> list HistoryItem) (w : World) : World :=
  mkWorld (queue w) (activeFileId w) (shownResult w) (f (history w)) (toasts w) (calls w).

(** [addToast(message, type)]; the expiry timer is not modelled. *)
Definition addToast (message : string) (type : ToastType) (w : World) : World :=
  mkWorld (queue w) (activeFileId w) (shownResult w) (history w)
          (toasts w ++ [(message, type)]) (calls w).

Definition call (c : Call) (w : World) : World :=
  mkWorld (queue w) (activeFileId w) (shownResult w) (history w) (toasts w)
          (calls w ++ [c]).

Definition or_else {A : Type} (o : option A) (d : option A) : option A :=
  match o with Some _ => o | None => d end.

(** [{ ...item, ...updates }]. *)
Definition merge (item : QueueItem) (u : Updates) : QueueItem :=
  mkQueueItem (id item) (fileName item)
    (match u_status u with Some s => s | None => status item end)
    (progress item) (previewUrl item) (base64 item) (mimeType item)
    (or_else (u_result u) (result item))
    (or_else (u_error u) (error item))
    (or_else (u_segmentsProcessed u) (segmentsProcessed item))
    (or_else (u_totalSegments u) (totalSegments item)).

(** [updateQueueItem] (lines 635-637). *)
Definition updateQueueItem (uid : string) (updates : Updates) (w : World) : World :=
  setQueue (map (fun item => if String.eqb (id item) uid then merge item updates else item)) w.

(** [removeFile] (lines 800-809). *)
Definition removeFile (rid : string) (w : World) : World :=
  let filtered := filter (fun item => negb (String.eqb (id item) rid)) (queue w) in
  let w' :=
    match activeFileId w with
    | Some a =>
        if String.eqb a rid
        then setActiveFileId (match filtered with x :: _ => Some (id x) | [] => None end) w
        else w
    | None => w
    end in
  setQueue (fun _ => filtered) w'.

(** [saveToHistory] (lines 501-543), without local storage. *)
Definition saveToHistory (newResult : AnalysisResult) (type : MediaType)
    (previewText : string) (content mimeType fileName : option string)
    (w : World) : World :=
  let safeContent :=
    match content with
    | Some c => if (5 * 1024 * 1024 <? N.of_nat (String.length c))%N then None else content
    | None => None
    end in
  let newItem := mkHistoryItem type previewText newResult safeContent mimeType fileName in
  setHistory (fun prev => JS.slice0 50 (newItem :: prev)) w.

(** ** Suspension points *)

Inductive AwaitPoint :=
| AwaitMetadata
| AwaitCapture (i : nat)
| AwaitClassify (i : nat).

(** What other handlers do to the world while the function is suspended. *)
Definition Interference := AwaitPoint -> World -> World.

Definition quiet : Interference := fun _ w => w.

(** The user removes item [rid] from the queue ([removeFile]) while the
    function waits for the capture of segment [k]. *)
Definition remove_during_capture (rid : string) (k : nat) : Interference :=
  fun p w =>
    match p with
    | AwaitCapture i => if Nat.eqb i k then removeFile rid w else w
    | _ => w
    end.

(** ** The function *)

(** How a block of statements ends. *)
Inductive Completion :=
| Normal (st : Locals) (w : World)
| Thrown (message : string) (w : World).

Section Run.
Variable env : Env.
Variable intf : Interference.
Variable item : QueueItem.

(** One iteration of the [for] loop (lines 877-918). *)
Definition loop_body (ts : list Q) (total i : nat) (st : Locals) (w : World) : Completion :=
  let time := nth i ts 0 in
  let w := call (Seek time) w in
  let w := intf (AwaitCapture i) w in
  let base64Frame := captureFrame env time in
  match base64Frame with
  | EmptyString => Normal st w
  | _ =>
      let w := call (Classify base64Frame) w in
      let w := intf (AwaitClassify i) w in
      match detectAIContent env i base64Frame with
      | inl message => Thrown message w
      | inr frameResult =>
          let st := accumulate frameResult st in
          let count := S i in
          let pr := progressiveResult st i total frameResult in
          let w := setResult (Some pr) w in
          let w := updateQueueItem (id item)
                     (mkUpdates None (Some pr) None (Some count) None) w in
          Normal st w
      end
  end.

(** [for (let i = ...; i < totalSegments; i++)]: [n] iterations are left,
    the next one has index [i]. *)
Fixpoint frames_loop (ts : list Q) (total n i : nat) (st : Locals) (w : World) : Completion :=
  match n with
  | O => Normal st w
  | S n' =>
      match loop_body ts total i st w with
      | Normal st' w' => frames_loop ts total n' (S i) st' w'
      | Thrown message w' => Thrown message w'
      end
  end.

(** Lines 823-845: the video element, the schedule, the first update. *)
Definition begin (url : string) (w : World) : list Q * World :=
  let w := call (VideoLoad url) w in
  let w := intf AwaitMetadata w in
  let ts := timestamps (video_duration env) (sampleInterval env) in
  let total := List.length ts in
  (ts, updateQueueItem (id item)
         (mkUpdates (Some Analyzing) None None (Some O) (Some total)) w).

(** "Finalize" (lines 921-947), the [catch] and the [finally] block. *)
Definition finish (total : nat) (c : Completion) : World :=
  let w :=
    match c with
    | Normal st w =>
        match lastResult st with
        | Some _ =>
            let fr := finalResult st total in
            let w := setResult (Some fr) w in
            let w := updateQueueItem (id item)
                       (mkUpdates (Some Done) (Some fr) None (Some total) None) w in
            let w := saveToHistory fr VIDEO (fileName item) None
                       (Some (mimeType item)) (Some (fileName item)) w in
            addToast "Progressive analysis complete" success w
        | None => w
        end
    | Thrown message w =>
        let errMsg := JS.str_or message "Progressive analysis failed" in
        let w := updateQueueItem (id item)
                   (mkUpdates (Some Error) None (Some errMsg) None None) w in
        addToast errMsg error_toast w
    end in
  call VideoDetach w.

(** The state in which the [for] loop ends. *)
Definition run_frames (url : string) (w : World) : Completion :=
  let '(ts, w) := begin url w in
  frames_loop ts (List.length ts) (List.length ts) 0 initial_locals w.

Definition handleProgressiveVideoAnalysis (w : World) : World :=
  match previewUrl item with
  | None => w
  | Some EmptyString => w
  | Some url =>
      finish (List.length (timestamps (video_duration env) (sampleInterval env)))
             (run_frames url w)
  end.

End Run.

(** ** Vocabulary for statements about a run *)

(** What happens to segment [i]: [None] when its capture is empty and the
    iteration is skipped, [Some (inl message)] when the classifier
    rejects, [Some (inr r)] when the frame is folded. *)
Definition segment_outcome (env : Env) (ts : list Q) (i : nat)
    : option (string + AnalysisResult) :=
  match captureFrame env (nth i ts 0) with
  | EmptyString => None
  | payload => Some (detectAIContent env i payload)
  end.

(** The calls an iteration makes when it gets as far as it can. *)
Definition segment_calls (env : Env) (ts : list Q) (i : nat) : list Call :=
  Seek (nth i ts 0) ::
  match captureFrame env (nth i ts 0) with
  | EmptyString => []
  | payload => [Classify payload]
  end.

Definition is_Classify (c : Call) : bool :=
  match c with Classify _ => true | _ => false end.

(** The sum of a list of numbers. *)
Definition Qsum (l : list Q) : Q := fold_right Qplus 0 l.

(** Values between 0 and 100. *)
Definition percent (x : Q) : Prop := 0 <= x /\ x <= 100.

Definition percent_result (r : AnalysisResult) : Prop :=
  percent (probabilityAI r) /\ percent (confidence r).

Definition classifier_in_range (env : Env) : Prop :=
  forall i payload r, detectAIContent env i payload = inr r -> percent_result r.

Definition shown_in_range (w : World) : Prop :=
  match shownResult w with Some r => percent_result r | None => True end.

(** The running sums when [i] iterations have been completed. *)
Definition sums_within (i : nat) (st : Locals) : Prop :=
  (0 <= aggregatedProb st /\ aggregatedProb st <= 100 * inject_Z (Z.of_nat i))
  /\ (0 <= aggregatedConf st /\ aggregatedConf st <= 100 * inject_Z (Z.of_nat i)).

(** The classifier rejects the frame of segment [j]. *)
Definition rejected (env : Env) (ts : list Q) (j : nat) : Prop :=
  exists message, segment_outcome env ts j = Some (inl message).

(** Folding a sequence of frame results, as the loop does for the frames
    that reach "Update Running Aggregates". *)
Definition fold_frames (frames : list AnalysisResult) (st : Locals) : Locals :=
  fold_left (fun s r => accumulate r s) frames st.

(** The test [find] uses to look a key up in the entries of a map. *)
Definition has_key {V : Type} (k : string) (kv : string * V) : bool :=
  String.eqb (fst kv) k.

(** The pair under which a feature enters the map of the evidence pool. *)
Definition named (f : KeyFeature) : string * KeyFeature := (feature f, f).

(** [a] may stand before [b] in a ranking by descending impact. *)
Definition outranks (a b : KeyFeature) : Prop := impactScore b <= impactScore a.

(** The features whose impact is [s]. *)
Definition scored (s : Q) (f : KeyFeature) : bool := Qeq_bool (impactScore f) s.

(** The fields of a queue item that are settled before the loop starts. *)
Definition settled (q : QueueItem) : string * Status * option string * option nat :=
  (id q, status q, error q, totalSegments q).

(** The results folded by iterations [i, i + n) of the loop, up to the
    first rejection. *)
Fixpoint folded_results (env : Env) (ts : list Q) (n i : nat) : list AnalysisResult :=
  match n with
  | O => []
  | S n' =>
      match segment_outcome env ts i with
      | Some (inr r) => r :: folded_results env ts n' (S i)
      | Some (inl _) => []
      | None => folded_results env ts n' (S i)
      end
  end.

(** The parts of the world an iteration of the loop never writes when no
    other handler runs. *)
Definition loop_frame (w w' : World) : Prop :=
  history w' = history w
  /\ toasts w' = toasts w
  /\ activeFileId w' = activeFileId w
  /\ map id (queue w') = map id (queue w)
  /\ map settled (queue w') = map settled (queue w).

(** The world component of a completion, and a change applied to it. *)
Definition world_of (c : Completion) : World :=
  match c with Normal _ w => w | Thrown _ w => w end.

Definition on_world (f : World -> World) (c : Completion) : Completion :=
  match c with
  | Normal st w => Normal st (f w)
  | Thrown message w => Thrown message (f w)
  end.

(** What the function itself keeps of a completion: the locals, or the
    message thrown. *)
Definition outcome_of (c : Completion) : Locals + string :=
  match c with Normal st _ => inl st | Thrown message _ => inr message end.

(** The entries of the queue that carry a given id. *)
Definition entries (qid : string) (w : World) : list QueueItem :=
  filter (fun q => String.eqb (id q) qid) (queue w).

(** ** Concrete runs used as test vectors *)

Module Scenario.

Definition frame (p c : Q) (text : string) (kfs : list KeyFeature) : AnalysisResult :=
  mkAnalysisResult p (if Qle_bool p 50 then LikelyHuman else LikelyAI) c text kfs.

Definition clip : QueueItem :=
  mkQueueItem "v1" "clip.mp4" Ready 100 (Some "blob:clip") None "video/mp4"
              None None None None.

Definition other : QueueItem :=
  mkQueueItem "v2" "other.mp4" Ready 100 (Some "blob:other") None "video/mp4"
              None None None None.

Definition no_preview : QueueItem :=
  mkQueueItem "v3" "large.mp4" Ready 100 None None "video/mp4" None None None None.

Definition world0 : World := mkWorld [clip; other; no_preview] (Some "v1") None [] [] [].

(** A 12 second video sampled every 5 seconds; the classifier rejects the
    frame taken at 5 s and answers 80 and 60 for the other two. *)
Definition classifier_fails_at_5 : Env :=
  mkEnv 12 5 (fun _ => "jpeg")
    (fun i _ =>
       match i with
       | 0%nat => inr (frame 80 90 "smooth skin" [])
       | 1%nat => inl "503 Service Unavailable"
       | _ => inr (frame 60 70 "natural grain" [])
       end).

(** The same video; this time the frame at 5 s cannot be captured
    ([captureFrame] yields the empty string) and is skipped. *)
Definition capture_empty_at_5 : Env :=
  mkEnv 12 5 (fun t => if Qeq_bool t 5 then "" else "jpeg")
    (fun i _ =>
       match i with
       | 0%nat => inr (frame 80 90 "smooth skin" [])
       | _ => inr (frame 60 70 "natural grain" [])
       end).

(** No frame can be captured at all (no 2d context). *)
Definition nothing_captured : Env :=
  mkEnv 12 5 (fun _ => "") (fun _ _ => inl "unreachable").

(** A 25 second video, five segments, every frame classified. *)
Definition five_frames : Env :=
  mkEnv 25 5 (fun _ => "jpeg")
    (fun i _ => inr (frame (inject_Z (Z.of_nat (10 * S i))) 50 "ok"
                           [mkKeyFeature "texture blur" (inject_Z (Z.of_nat (40 + i)))])).

End Scenario.

(** * The rest of the application *)

(** ** Vocabulary for the queue and the history *)

(** The active id, when there is one, names an item of the queue. *)
Definition active_valid (w : World) : Prop :=
  match activeFileId w with
  | Some a => In a (map id (queue w))
  | None => True
  end.

(** The entries of the queue that do not carry a given id. *)
Definition others (qid : string) (w : World) : list QueueItem :=
  filter (fun q => negb (String.eqb (id q) qid)) (queue w).

(** The arguments of one [saveToHistory] call. *)
Record Save := mkSave {
  s_result : AnalysisResult;
  s_type : MediaType;
  s_preview : string;
  s_content : option string;
  s_mimeType : option string;
  s_fileName : option string
}.

Definition save (s : Save) (w : World) : World :=
  saveToHistory (s_result s) (s_type s) (s_preview s) (s_content s)
                (s_mimeType s) (s_fileName s) w.

(** The history entry a save is stored as: everything as given, the
    content only when it is at most 5 * 1024 * 1024 characters long. *)
Definition stored_as (s : Save) (e : HistoryItem) : Prop :=
  h_result e = s_result s /\ h_mediaType e = s_type s /\ h_preview e = s_preview s
  /\ h_mimeType e = s_mimeType s /\ h_fileName e = s_fileName s
  /\ (forall c, h_content e = Some c <->
                s_content s = Some c /\ (N.of_nat (String.length c) <= 5242880)%N).

(** ** The classification service (services/geminiService.ts)

    Strings are sequences of code units below 256; [\s] and [trim] are
    taken on that range. *)

Inductive AnalysisPreset := balanced | sensitive | conservative.
Inductive AnalysisFocus := general | people | documents | art.
Inductive ReasoningDepth := concise | standard | exhaustive.

Record AdvancedConfig := mkAdvancedConfig {
  temperature : Q;
  topP : Q;
  topK : Q;
  reasoningDepth : ReasoningDepth;
  progressiveAnalysis : bool;
  advancedSampleInterval : Q
}.

Record AnalysisConfig := mkAnalysisConfig {
  preset : AnalysisPreset;
  focus : AnalysisFocus;
  advanced : AdvancedConfig
}.

Module geminiService.

(** The class [\s] of regular expressions. *)
Definition is_space (c : ascii) : bool :=
  match nat_of_ascii c with
  | 9%nat | 10%nat | 11%nat | 12%nat | 13%nat | 32%nat | 160%nat => true
  | _ => false
  end.

(** A greedy [\s*] at the start of [s]: what is left after it. *)
Fixpoint skip_spaces (s : string) : string :=
  match s with
  | String c s' => if is_space c then skip_spaces s' else s
  | EmptyString => s
  end.

(** [s] with the prefix [p] removed, when it starts with [p]. *)
Fixpoint strip_prefix (p s : string) : option string :=
  match p, s with
  | EmptyString, _ => Some s
  | String a p', String b s' => if Ascii.eqb a b then strip_prefix p' s' else None
  | String _ _, EmptyString => None
  end.

Definition fence : string := "```".

(** [s] matches [\s*```$] from its first character on. *)
Fixpoint closes_fence (s : string) : bool :=
  match s with
  | String c s' => if is_space c then closes_fence s' else String.eqb s fence
  | EmptyString => false
  end.

(** [s.replace(/^```json\s*/, '')]. *)
Definition drop_opening_fence (s : string) : string :=
  match strip_prefix "```json" s with
  | Some rest => skip_spaces rest
  | None => s
  end.

(** [s.replace(/\s*```$/, '')]: the leftmost position from which the
    rest matches is where the string is cut. *)
Fixpoint drop_closing_fence (s : string) : string :=
  match s with
  | EmptyString => s
  | String c s' => if closes_fence s then "" else String c (drop_closing_fence s')
  end.

(** [cleanJsonString] (lines 7-10). *)
Definition cleanJsonString (str : string) : string :=
  drop_closing_fence (drop_opening_fence str).

Definition nl : string := String (ascii_of_nat 10) "".

Definition presetInstruction (p : AnalysisPreset) : string :=
  match p with
  | sensitive => "MODE: SENSITIVE/STRICT. Lower your threshold for detecting AI. Scrutinize micro-anomalies aggressively. If patterns match generative algorithms even slightly, flag them. Useful for deepfake security."
  | conservative => "MODE: CONSERVATIVE/PERMISSIVE. High burden of proof required for AI verdict. Assume content is human or digitally edited unless artifacts are impossible to explain otherwise. Favor 'Likely Human' for artistic styles."
  | balanced => "MODE: BALANCED/NEUTRAL. Maintain a scientific, objective stance. Weigh evidence equally. Require substantial consistency errors to classify as AI. Distinguish between 'bad quality' and 'AI generated'."
  end.

Definition focusInstruction (f : AnalysisFocus) : string :=
  match f with
  | people => "FOCUS AREA: HUMAN SUBJECTS. Pay extreme attention to biological consistency: iris symmetry, pupil shape, skin texture (pores vs smoothness), hand/finger anatomy, teeth alignment, and hair physics."
  | documents => "FOCUS AREA: DOCUMENTS/TEXT. Pay attention to font consistency, character rendering artifacts, layout geometry, logical coherence of text, and paper texture/lighting continuity."
  | art => "FOCUS AREA: ART/DESIGN. Analyze brush stroke logic, composition consistency, lighting coherence, and medium-specific textures. Distinguish between human digital art styles and diffusion noise."
  | general => "FOCUS AREA: GENERAL. Look for global consistency, physics engines (lighting/shadows), and standard generative artifacts (warping, spectral cutoffs)."
  end.

Definition depthInstruction (d : ReasoningDepth) : string :=
  match d with
  | concise => "OUTPUT STYLE: CONCISE. Provide short, punchy reasoning. Focus only on the single most damning piece of evidence. Keep the explanation under 50 words."
  | exhaustive => "OUTPUT STYLE: EXHAUSTIVE. Provide a detailed step-by-step forensic breakdown. Mention minor anomalies and edge cases. Explain the 'why' behind the verdict in depth (150-200 words)."
  | standard => "OUTPUT STYLE: STANDARD. Provide a clear, balanced explanation citing the top 2-3 factors (80-120 words)."
  end.

(** One element of [parts]. *)
Inductive Part :=
| InlineData (mimeType data : string)
| Text (text : string).

(** The request handed to [ai.models.generateContent]; the response MIME
    type and the response schema are the same in every request and are
    left out. *)
Record Request := mkRequest {
  model : string;
  contents : list Part;
  systemInstruction : string;
  req_temperature : Q;
  req_topP : Q;
  req_topK : Q
}.

Definition textPrompt (config : AnalysisConfig) (content : string) : string :=
  "Analyze the following text for AI generation patterns." ++ nl ++ nl
  ++ presetInstruction (preset config) ++ nl
  ++ focusInstruction (focus config) ++ nl
  ++ depthInstruction (reasoningDepth (advanced config)) ++ nl ++ nl
  ++ "Be skeptical and look for specific LLM habits (overuse of transition words, lack of personal anecdote, uniform sentence structure). If the text feels natural, conversational, or contains specific human errors/nuances, classify as human:"
  ++ nl ++ nl ++ content.

Definition mediaPrompt (config : AnalysisConfig) : string :=
  "Analyze the attached media file for authenticity." ++ nl ++ nl
  ++ "CONFIGURATION:" ++ nl
  ++ "1. " ++ presetInstruction (preset config) ++ nl
  ++ "2. " ++ focusInstruction (focus config) ++ nl
  ++ "3. " ++ depthInstruction (reasoningDepth (advanced config)) ++ nl ++ nl
  ++ "PROCEDURE:" ++ nl
  ++ "1. Search for distinct evidence of HUMAN origin (sensor noise, physics, specific imperfections)." ++ nl
  ++ "2. Search for distinct evidence of AI generation based on the Focus Area." ++ nl
  ++ "3. Weigh the evidence according to the selected Mode." ++ nl
  ++ "4. CRITICAL: Do not confuse compression/low-res with AI artifacts.".

Definition request_for (config : AnalysisConfig) (parts : list Part) : Request :=
  mkRequest "gemini-3-pro-preview" parts
    ("You are a forensic AI content detector. Your goal is to provide a scientifically grounded assessment of media authenticity. "
       ++ presetInstruction (preset config))
    (temperature (advanced config)) (topP (advanced config)) (topK (advanced config)).

Section Detect.
(** The parsed value: the function returns whatever [JSON.parse] yields,
    asserted to be an [AnalysisResult]. *)
Variable J : Type.
(** [generateContent] rejects with a message or resolves with the
    response text, empty when there is none. *)
Variable generateContent : Request -> string + string.
(** [JSON.parse] throws a message or yields a value. *)
Variable JSON_parse : string -> string + J.

(** The body of the [try] block with its [catch] (lines 113-136). *)
Definition send (req : Request) : string + J :=
  let wrapped (message : string) : string + J :=
    inl (JS.str_or message "Failed to analyze content. Please try again.") in
  match generateContent req with
  | inl message => wrapped message
  | inr text =>
      let resultText := JS.str_or text "{}" in
      match JSON_parse (cleanJsonString resultText) with
      | inl message => wrapped message
      | inr value => inr value
      end
  end.

(** [detectAIContent] (lines 12-137): the requests sent, and the outcome
    ([inl message] when the promise rejects with [Error(message)]). *)
Definition detectAIContent (mediaType : MediaType) (content : string)
    (mimeType : option string) (config : AnalysisConfig)
    : list Request * (string + J) :=
  match mediaType with
  | TEXT =>
      let req := request_for config [Text (textPrompt config content)] in
      ([req], send req)
  | _ =>
      match mimeType with
      | None | Some EmptyString => ([], inl "MimeType is required for media files")
      | Some mime =>
          let req := request_for config
                       [InlineData mime content; Text (mediaPrompt config)] in
          ([req], send req)
      end
  end.

End Detect.

End geminiService.

(** Every character of [s] is in [\s]. *)
Fixpoint all_space (s : string) : bool :=
  match s with
  | EmptyString => true
  | String c s' => geminiService.is_space c && all_space s'
  end.

Definition starts_with_space (s : string) : bool :=
  match s with
  | EmptyString => false
  | String c _ => geminiService.is_space c
  end.

Fixpoint ends_with_space (s : string) : bool :=
  match s with
  | EmptyString => false
  | String c EmptyString => geminiService.is_space c
  | String _ s' => ends_with_space s'
  end.

(** ** Files entering the queue (App.tsx, lines 12-59 and 639-746) *)

(** The parts of a browser [File] the application reads. *)
Record File := mkFile {
  file_name : string;
  file_size : N;
  file_type : string
}.

Definition MAX_FILE_SIZE : N := 100 * 1024 * 1024.
Definition SAFE_INLINE_LIMIT : N := 18 * 1024 * 1024.

(** [FILE_CONFIG]: the accepted MIME types and the label of each media
    mode; the text mode has no entry. *)
Definition FILE_CONFIG (t : MediaType) : option (list string * string) :=
  match t with
  | IMAGE =>
      Some (["image/jpeg"; "image/png"; "image/webp"; "image/heic"; "image/heif";
             "application/pdf"],
            "JPG, PNG, WEBP, HEIC, PDF")
  | AUDIO =>
      Some (["audio/wav"; "audio/x-wav"; "audio/mp3"; "audio/mpeg"; "audio/aac";
             "audio/ogg"; "audio/flac"; "audio/x-m4a"; "audio/mp4"; "audio/webm";
             "audio/aiff"; "audio/x-aiff"; "audio/opus"],
            "MP3, WAV, AAC, FLAC, OGG, WEBM, AIFF")
  | VIDEO =>
      Some (["video/mp4"; "video/mpeg"; "video/quicktime"; "video/x-msvideo";
             "video/webm"; "video/3gpp"; "video/x-matroska"; "video/x-flv";
             "video/x-ms-wmv"],
            "MP4, WEBM, MOV, AVI, MKV, WMV")
  | TEXT => None
  end.

(** [c.toLowerCase()] on one code unit below 256. *)
Definition toLowerCase_char (c : ascii) : ascii :=
  let n := nat_of_ascii c in
  if ((65 <=? n) && (n <=? 90))%nat
     || ((192 <=? n) && (n <=? 222) && negb (n =? 215))%nat
  then ascii_of_nat (n + 32)
  else c.

Fixpoint toLowerCase (s : string) : string :=
  match s with
  | EmptyString => s
  | String c s' => String (toLowerCase_char c) (toLowerCase s')
  end.

(** [s.split(sep).pop()]: the piece after the last separator; [piece] is
    the piece read so far. *)
Fixpoint last_piece (sep : ascii) (s : string) (piece : string) : string :=
  match s with
  | EmptyString => piece
  | String c s' =>
      if Ascii.eqb c sep then last_piece sep s' ""
      else last_piece sep s' (piece ++ String c "")
  end.

Definition mimeMap : list (string * string) :=
  [("jpg", "image/jpeg"); ("jpeg", "image/jpeg"); ("png", "image/png");
   ("webp", "image/webp"); ("heic", "image/heic"); ("heif", "image/heif");
   ("pdf", "application/pdf");
   ("mp3", "audio/mp3"); ("wav", "audio/wav"); ("aac", "audio/aac");
   ("flac", "audio/flac"); ("ogg", "audio/ogg"); ("m4a", "audio/x-m4a");
   ("mp4", "video/mp4"); ("mov", "video/quicktime"); ("avi", "video/x-msvideo");
   ("webm", "video/webm"); ("mkv", "video/x-matroska")].

(** [mimeMap[ext]] for an extension that is a key of the table; any other
    string is read as having no entry. *)
Definition mimeMap_get (ext : string) : option string :=
  option_map snd (find (fun kv => String.eqb (fst kv) ext) mimeMap).

(** [getMimeType] (lines 44-59). *)
Definition getMimeType (file : File) : string :=
  match file_type file with
  | String _ _ => file_type file
  | EmptyString =>
      match toLowerCase (last_piece "." (file_name file) "") with
      | EmptyString => "application/octet-stream"
      | ext =>
          match mimeMap_get ext with
          | Some m => JS.str_or m "application/octet-stream"
          | None => "application/octet-stream"
          end
      end
  end.

(** [list.includes(x)]. *)
Definition includes (x : string) (l : list string) : bool :=
  existsb (String.eqb x) l.

(** The three accumulators of the [forEach] in [handleFiles]. *)
Record Screening := mkScreening {
  validFiles : list File;
  rejectedCount : nat;
  errorDetails : string
}.

(** The body of the [forEach] (lines 696-721). *)
Definition screen_file (mime : list string) (acc : Screening) (file : File) : Screening :=
  let inferredMime := getMimeType file in
  let '(isValid, details) :=
    if (MAX_FILE_SIZE <? file_size file)%N
    then (false, JS.str_or (errorDetails acc) "File size > 100MB")
    else (true, errorDetails acc) in
  let '(isValid, details) :=
    if isValid && negb (includes inferredMime mime)
    then
      if negb (String.eqb (file_type file) "") && includes (file_type file) mime
      then (isValid, details)
      else (false, JS.str_or details "Invalid format")
    else (isValid, details) in
  if isValid
  then mkScreening (validFiles acc ++ [file])%list (rejectedCount acc) details
  else mkScreening (validFiles acc) (S (rejectedCount acc)) details.

Definition screen_files (mime : list string) (files : list File) : Screening :=
  fold_left (screen_file mime) files (mkScreening [] 0 "").

(** The application state beyond [World]. *)
Record App := mkApp {
  world : World;
  activeTab : MediaType;
  textInput : string;
  isAnalyzingText : bool;
  reads : list string
}.

Definition in_world (f : World -> World) (a : App) : App :=
  mkApp (f (world a)) (activeTab a) (textInput a) (isAnalyzingText a) (reads a).

Definition setIsAnalyzingText (b : bool) (a : App) : App :=
  mkApp (world a) (activeTab a) (textInput a) b (reads a).

(** [reader.readAsDataURL(item.file)] is started for the item [rid]. *)
Definition start_read (rid : string) (a : App) : App :=
  mkApp (world a) (activeTab a) (textInput a) (isAnalyzingText a) (reads a ++ [rid])%list.

(** [Partial<QueueItem>] restricted to the fields [processFile] writes;
    [fu_base64] can also write [undefined]. *)
Record FileUpdates := mkFileUpdates {
  fu_status : option Status;
  fu_progress : option Q;
  fu_previewUrl : option string;
  fu_base64 : option (option string);
  fu_error : option string
}.

Definition merge_file (item : QueueItem) (u : FileUpdates) : QueueItem :=
  mkQueueItem (id item) (fileName item)
    (match fu_status u with Some s => s | None => status item end)
    (match fu_progress u with Some p => p | None => progress item end)
    (or_else (fu_previewUrl u) (previewUrl item))
    (match fu_base64 u with Some b => b | None => base64 item end)
    (mimeType item) (result item)
    (or_else (fu_error u) (error item))
    (segmentsProcessed item) (totalSegments item).

(** [updateQueueItem] with such an update. *)
Definition updateQueueItemFile (uid : string) (updates : FileUpdates) (w : World) : World :=
  setQueue (map (fun item => if String.eqb (id item) uid
                             then merge_file item updates else item)) w.

Section Ingest.
(** [URL.createObjectURL]. *)
Variable createObjectURL : File -> string.
(** The k-th [crypto.randomUUID()] of a call. *)
Variable randomUUID : nat -> string.

(** [processFile] (lines 639-681) up to the start of the reader. *)
Definition processFile (rid : string) (file : File) (a : App) : App :=
  match activeTab a with
  | VIDEO =>
      if (SAFE_INLINE_LIMIT <? file_size file)%N
      then in_world (updateQueueItemFile rid
                       (mkFileUpdates (Some Ready) (Some 100)
                          (Some (createObjectURL file)) (Some (Some "")) None)) a
      else start_read rid a
  | _ => start_read rid a
  end.

(** [reader.onprogress] with a computable length. *)
Definition reader_onprogress (rid : string) (loaded total : Q) (a : App) : App :=
  let percent := JS.Math_round (loaded / total * 100) in
  in_world (updateQueueItemFile rid
              (mkFileUpdates None (Some (inject_Z percent)) None None None)) a.

(** [s.split(',')[1]]. *)
Fixpoint second_piece (s : string) (seen_comma : bool) (piece : string) : option string :=
  match s with
  | EmptyString => if seen_comma then Some piece else None
  | String c s' =>
      if Ascii.eqb c ","
      then if seen_comma then Some piece else second_piece s' true ""
      else if seen_comma then second_piece s' true (piece ++ String c "")
      else second_piece s' false ""
  end.

(** [reader.onload] with the data URL read. *)
Definition reader_onload (rid : string) (file : File) (dataUrl : string) (a : App) : App :=
  in_world (updateQueueItemFile rid
              (mkFileUpdates (Some Ready) (Some 100) (Some (createObjectURL file))
                 (Some (second_piece dataUrl false "")) None)) a.

(** [reader.onerror]. *)
Definition reader_onerror (rid : string) (file : File) (a : App) : App :=
  in_world (fun w =>
    addToast ("Failed to read file: " ++ file_name file) error_toast
      (updateQueueItemFile rid
         (mkFileUpdates (Some Error) (Some 0) None None (Some "Read failed")) w)) a.

(** The queue item made for the k-th accepted file. *)
Definition new_item (k : nat) (f : File) : QueueItem :=
  mkQueueItem (randomUUID k) (file_name f) Uploading 0 None None (getMimeType f)
              None None None None.

Fixpoint new_items (k : nat) (fs : list File) : list QueueItem :=
  match fs with
  | [] => []
  | f :: fs' => new_item k f :: new_items (S k) fs'
  end.

Fixpoint process_all (k : nat) (fs : list File) (a : App) : App :=
  match fs with
  | [] => a
  | f :: fs' => process_all (S k) fs' (processFile (randomUUID k) f a)
  end.

(** [handleFiles] (lines 683-746). *)
Definition handleFiles (files : list File) (a : App) : App :=
  match files with
  | [] => a
  | _ =>
      match FILE_CONFIG (activeTab a) with
      | None =>
          in_world (addToast "File upload not available for text mode. Paste text instead."
                             error_toast) a
      | Some (mime, _) =>
          let s := screen_files mime files in
          let a :=
            match rejectedCount s with
            | O => a
            | S _ =>
                in_world (addToast (JS.show (rejectedCount s) ++ " file(s) ignored: "
                                      ++ JS.str_or (errorDetails s) "Incompatible")
                                   error_toast) a
            end in
          match validFiles s with
          | [] => a
          | first :: _ =>
              let newItems := new_items 0 (validFiles s) in
              let a :=
                in_world (fun w =>
                  let w' :=
                    match activeFileId w with
                    | None | Some EmptyString => setActiveFileId (Some (randomUUID 0)) w
                    | Some _ => w
                    end in
                  setQueue (fun prev => (prev ++ newItems)%list) w') a in
              process_all 0 (validFiles s) a
          end
      end
  end.

End Ingest.

Definition MediaType_eq_dec (a b : MediaType) : {a = b} + {a <> b}.
Proof. decide equality. Defined.

(** A file that [processFile] does not read into memory. *)
Definition too_large_to_inline (tab : MediaType) (f : File) : bool :=
  match tab with
  | VIDEO => (SAFE_INLINE_LIMIT <? file_size f)%N
  | _ => false
  end.

(** The queue item of the k-th accepted file when [handleFiles] returns. *)
Definition ingested (createObjectURL : File -> string) (randomUUID : nat -> string)
    (tab : MediaType) (k : nat) (f : File) : QueueItem :=
  if too_large_to_inline tab f
  then mkQueueItem (randomUUID k) (file_name f) Ready 100
         (Some (createObjectURL f)) (Some "") (getMimeType f) None None None None
  else new_item randomUUID k f.

Fixpoint ingested_all (createObjectURL : File -> string) (randomUUID : nat -> string)
    (tab : MediaType) (k : nat) (fs : list File) : list QueueItem :=
  match fs with
  | [] => []
  | f :: fs' => ingested createObjectURL randomUUID tab k f
                :: ingested_all createObjectURL randomUUID tab (S k) fs'
  end.

(** The ids of the files whose reading [handleFiles] starts. *)
Fixpoint started_reads (randomUUID : nat -> string) (tab : MediaType) (k : nat)
    (fs : list File) : list string :=
  match fs with
  | [] => []
  | f :: fs' =>
      if too_large_to_inline tab f then started_reads randomUUID tab (S k) fs'
      else randomUUID k :: started_reads randomUUID tab (S k) fs'
  end.

(** ** Starting an analysis (App.tsx, lines 174 and 959-1071) *)

(** [activeItem]: [queue.find(item => item.id === activeFileId) || null]. *)
Definition activeItem (w : World) : option QueueItem :=
  match activeFileId w with
  | Some a => find (fun item => String.eqb (id item) a) (queue w)
  | None => None
  end.

(** The items [handleBatchAnalyze] takes up. *)
Definition eligible (item : QueueItem) : bool :=
  match status item with
  | Ready | Error => true
  | _ => false
  end.

(** [{ ...item, status: 'analyzing', error: undefined }] for those. *)
Definition mark_analyzing (item : QueueItem) : QueueItem :=
  if eligible item
  then mkQueueItem (id item) (fileName item) Analyzing (progress item)
         (previewUrl item) (base64 item) (mimeType item) (result item) None
         (segmentsProcessed item) (totalSegments item)
  else item.

(** [{ ...current, status: 'done', result: analysis }]. *)
Definition settle_done (analysis : AnalysisResult) (current : QueueItem) : QueueItem :=
  mkQueueItem (id current) (fileName current) Done (progress current)
    (previewUrl current) (base64 current) (mimeType current) (Some analysis)
    (error current) (segmentsProcessed current) (totalSegments current).

(** [{ ...current, status: 'error', error: message }]. *)
Definition settle_error (message : string) (current : QueueItem) : QueueItem :=
  mkQueueItem (id current) (fileName current) Error (progress current)
    (previewUrl current) (base64 current) (mimeType current) (result current)
    (Some message) (segmentsProcessed current) (totalSegments current).

Section Analyze.
(** [item.file.size], which the queue item of the model does not carry. *)
Variable file_size_of : QueueItem -> N.
(** The settings in force: [analysisPreset], [analysisFocus],
    [advancedConfig]. *)
Variable config : AnalysisConfig.
(** What the network answers to the request made for the item with a
    given id (the empty id stands for the text input), and [JSON.parse]. *)
Variable generateContent : string -> geminiService.Request -> string + string.
Variable JSON_parse : string -> string + AnalysisResult.
(** The video element of an item: its duration, the frame captured at a
    time, and the network's answer to the request for segment [i]. *)
Variable duration_of : QueueItem -> Q.
Variable frame_of : QueueItem -> Q -> string.
Variable frame_answer : QueueItem -> nat -> geminiService.Request -> string + string.

(** [detectAIContent] as the handlers call it. *)
Definition detect (tag : string) (mediaType : MediaType) (content : string)
    (mimeType : option string) : string + AnalysisResult :=
  snd (geminiService.detectAIContent AnalysisResult (generateContent tag) JSON_parse
         mediaType content mimeType config).

(** The environment of a progressive run on [item]. *)
Definition progressive_env (item : QueueItem) : Env :=
  mkEnv (duration_of item) (advancedSampleInterval (advanced config)) (frame_of item)
    (fun i payload =>
       snd (geminiService.detectAIContent AnalysisResult (frame_answer item i) JSON_parse
              IMAGE payload (Some "image/jpeg") config)).

(** "Check for Progressive Video Mode" (lines 969 and 1022). *)
Definition takes_progressive_path (tab : MediaType) (item : QueueItem) : bool :=
  match tab with
  | VIDEO => progressiveAnalysis (advanced config)
             || (SAFE_INLINE_LIMIT <? file_size_of item)%N
  | _ => false
  end.

(** [item.base64!]; an item that [processFile] made ready carries it, an
    absent value is read as the empty string. *)
Definition base64_of (item : QueueItem) : string :=
  match base64 item with Some c => c | None => "" end.

(** Lines 974-1001 of [handleAnalyze]. *)
Definition analyze_directly (tab : MediaType) (item : QueueItem) (w : World) : World :=
  let w := updateQueueItem (id item) (mkUpdates (Some Analyzing) None None None None) w in
  let content := base64_of item in
  let w := call (Classify content) w in
  match detect (id item) tab content (Some (mimeType item)) with
  | inr analysis =>
      let w := updateQueueItem (id item)
                 (mkUpdates (Some Done) (Some analysis) None None None) w in
      let w := saveToHistory analysis tab (fileName item) (base64 item)
                 (Some (mimeType item)) (Some (fileName item)) w in
      addToast "Analysis complete" success w
  | inl message =>
      let errMsg := JS.str_or message "Analysis failed" in
      let w := updateQueueItem (id item)
                 (mkUpdates (Some Error) None (Some errMsg) None None) w in
      addToast errMsg error_toast w
  end.

(** [handleTextAnalyze] (lines 1052-1071). *)
Definition handleTextAnalyze (a : App) : App :=
  let a := setIsAnalyzingText true a in
  let a := in_world (setResult None) a in
  let text := textInput a in
  let a :=
    if all_space text
    then in_world (addToast "Please enter text." error_toast) a
    else
      let a := in_world (call (Classify text)) a in
      match detect "" TEXT text None with
      | inr analysis =>
          in_world (fun w =>
            let w := setResult (Some analysis) w in
            let w := saveToHistory analysis TEXT (JS.substring0 40 text ++ "...")
                       (Some text) None None w in
            addToast "Text analysis complete" success w) a
      | inl message => in_world (addToast message error_toast) a
      end in
  setIsAnalyzingText false a.

(** [handleAnalyze] (lines 959-1002), no other handler running while it is
    suspended. *)
Definition handleAnalyze (a : App) : App :=
  match activeItem (world a) with
  | None =>
      match activeTab a, textInput a with
      | TEXT, String _ _ => handleTextAnalyze a
      | _, _ => a
      end
  | Some item =>
      if takes_progressive_path (activeTab a) item
      then in_world (handleProgressiveVideoAnalysis (progressive_env item) quiet item) a
      else in_world (analyze_directly (activeTab a) item) a
  end.

(** The start of [handleBatchAnalyze] (lines 1004-1017): the items taken
    up and the state in which their tasks begin, or nothing. *)
Definition batch_begin (a : App) : option (list QueueItem * App) :=
  match activeTab a with
  | TEXT => None
  | _ =>
      match filter eligible (queue (world a)) with
      | [] => None
      | itemsToProcess =>
          Some (itemsToProcess,
                in_world (fun w =>
                  addToast ("Starting batch analysis for "
                              ++ JS.show (List.length itemsToProcess) ++ " items") info
                    (setQueue (map mark_analyzing) w)) a)
      end
  end.

(** What a task of the batch that does not take the progressive path does
    when its classification has settled (lines 1033-1047). *)
Definition batch_settle (tab : MediaType) (item : QueueItem) (w : World) : World :=
  match detect (id item) tab (base64_of item) (Some (mimeType item)) with
  | inr analysis =>
      let w := setQueue (map (fun current =>
                 if String.eqb (id current) (id item)
                 then settle_done analysis current else current)) w in
      saveToHistory analysis tab (fileName item) (base64 item)
        (Some (mimeType item)) (Some (fileName item)) w
  | inl message =>
      setQueue (map (fun current =>
                 if String.eqb (id current) (id item)
                 then settle_error (JS.str_or message "Analysis failed") current
                 else current)) w
  end.

(** The tasks of a batch on the direct path settle one after the other,
    in the order given. *)
Definition batch_settle_all (tab : MediaType) (order : list QueueItem) (w : World) : World :=
  fold_left (fun w item => batch_settle tab item w) order w.

(** What the settling of [item] makes of a queue entry. *)
Definition settle_in_queue (tab : MediaType) (item current : QueueItem) : QueueItem :=
  if String.eqb (id current) (id item)
  then match detect (id item) tab (base64_of item) (Some (mimeType item)) with
       | inr analysis => settle_done analysis current
       | inl message => settle_error (JS.str_or message "Analysis failed") current
       end
  else current.

End Analyze.

(** A file that [handleFiles] accepts in a mode: at most [MAX_FILE_SIZE]
    bytes and of a type, as [getMimeType] infers it, that the mode lists. *)
Definition accepts (tab : MediaType) (f : File) : bool :=
  match FILE_CONFIG tab with
  | Some (mime, _) => (file_size f <=? MAX_FILE_SIZE)%N && includes (getMimeType f) mime
  | None => false
  end.

(** ** Settings (App.tsx, lines 104-111, 183-196 and 331-353) *)

Definition defaultAdvanced : AdvancedConfig :=
  mkAdvancedConfig (2 # 10) (8 # 10) 32 standard false 5.

(** [x !== y] on numbers. *)
Definition differs (x y : Q) : bool := negb (Qeq_bool x y).

(** [isModified] (lines 183-196). *)
Definition isModified (c : AnalysisConfig) : bool :=
  match preset c with
  | balanced =>
      match focus c with
      | general =>
          if differs (temperature (advanced c)) (2 # 10) then true
          else if differs (topP (advanced c)) (8 # 10) then true
          else if differs (topK (advanced c)) 32 then true
          else
            match reasoningDepth (advanced c) with
            | standard =>
                if progressiveAnalysis (advanced c) then true
                else if differs (advancedSampleInterval (advanced c)) 5 then true
                else false
            | _ => true
            end
      | _ => true
      end
  | _ => true
  end.

(** [{ ...prev, temperature: t, topP: p }]. *)
Definition with_sampling (t p : Q) (prev : AdvancedConfig) : AdvancedConfig :=
  mkAdvancedConfig t p (topK prev) (reasoningDepth prev) (progressiveAnalysis prev)
                   (advancedSampleInterval prev).

(** [handlePresetChange] (lines 331-346). *)
Definition handlePresetChange (p : AnalysisPreset) (c : AnalysisConfig) : AnalysisConfig :=
  mkAnalysisConfig p (focus c)
    match p with
    | sensitive => with_sampling (1 # 10) (7 # 10) (advanced c)
    | conservative => with_sampling (3 # 10) (9 # 10) (advanced c)
    | balanced => with_sampling (2 # 10) (8 # 10) (advanced c)
    end.

(** [handleResetConfig] (lines 348-353). *)
Definition handleResetConfig (c : AnalysisConfig) (w : World) : AnalysisConfig * World :=
  (mkAnalysisConfig balanced general defaultAdvanced,
   addToast "Configuration reset to defaults" info w).

(** ** Clearing the queue (App.tsx, lines 175 and 811-817) *)



(** ** Restoring from the history (App.tsx, lines 551-621)

    The configuration kept with a history entry and put back by
    [restoreFromHistory] is outside the model, as it is in [saveToHistory]. *)

Definition setActiveTab (t : MediaType) (a : App) : App :=
  mkApp (world a) t (textInput a) (isAnalyzingText a) (reads a).

Definition setTextInput (s : string) (a : App) : App :=
  mkApp (world a) (activeTab a) s (isAnalyzingText a) (reads a).

(** [o || d] for an optional string. *)
Definition opt_or (o : option string) (d : string) : string :=
  match o with
  | Some (String c s) => String c s
  | _ => d
  end.

Section Restore.
(** Whether [atob] accepts a string, the URL made for the blob of given
    content and type, and the id drawn by [crypto.randomUUID()]. *)
Variable atob_ok : string -> bool.
Variable blobURL : string -> string -> string.
Variable uuid : string.

(** The item rebuilt from the stored content (lines 571-597), with the
    toast of the [catch]. *)
Definition restored_from_content (item : HistoryItem)
    : option QueueItem * list (string * ToastType) :=
  match h_content item, h_mimeType item with
  | Some (String c0 cs), Some (String m0 ms) =>
      let content := String c0 cs in
      let mime := String m0 ms in
      if atob_ok content
      then (Some (mkQueueItem uuid (opt_or (h_fileName item) "restored_media") Done 100
                    (Some (blobURL content mime)) (Some content) mime
                    (Some (h_result item)) None None None), [])
      else (None, [("Could not restore media content from history", error_toast)])
  | _, _ => (None, [])
  end.

(** The placeholder of lines 599-613. *)
Definition placeholder (item : HistoryItem) : QueueItem :=
  mkQueueItem uuid (opt_or (h_fileName item) "Large File") Done 100 None None
    (opt_or (h_mimeType item) "unknown") (Some (h_result item)) None None None.

Definition restoreFromHistory (item : HistoryItem) (a : App) : App :=
  let a := setActiveTab (h_mediaType item) a in
  match h_mediaType item with
  | TEXT =>
      let a := setTextInput (opt_or (h_content item) "") a in
      in_world (fun w => setResult (Some (h_result item)) (setQueue (fun _ => []) w)) a
  | _ =>
      let '(restoredItem, said) := restored_from_content item in
      let '(restoredItem, said) :=
        match restoredItem with
        | Some q => (q, said)
        | None =>
            (placeholder item,
             (said ++ [("Media content not available (too large), showing result only.",
                        info)])%list)
        end in
      in_world (fun w =>
        let w := fold_left (fun w t => addToast (fst t) (snd t) w) said w in
        setResult (Some (h_result item))
          (setActiveFileId (Some (id restoredItem))
             (setQueue (fun _ => [restoredItem]) w))) a
  end.

End Restore.

(** ** More test vectors *)

Module Samples.

Definition createObjectURL (f : File) : string := "blob:" ++ file_name f.

Definition randomUUID (k : nat) : string := "id-" ++ JS.show k.

Definition long_clip : File := mkFile "Holiday.MP4" (20 * 1024 * 1024) "".
Definition short_clip : File := mkFile "intro.webm" (1024 * 1024) "video/webm".
Definition notes : File := mkFile "notes.txt" 12 "text/plain".
Definition huge_clip : File := mkFile "raw.mov" (200 * 1024 * 1024) "video/quicktime".

Definition video_app : App := mkApp Scenario.world0 VIDEO "" false [].

Definition text_app (text : string) : App :=
  mkApp (mkWorld [] None None [] [] []) TEXT text false [].

Definition photo : QueueItem :=
  mkQueueItem "p1" "cat.png" Ready 100 (Some "blob:cat.png") (Some "iVBORw0KGgo")
              "image/png" None None None None.

Definition scan : QueueItem :=
  mkQueueItem "p2" "scan.jpg" Error 0 None (Some "/9j/4AAQ") "image/jpeg"
              None (Some "Read failed") None None.

Definition image_app : App :=
  mkApp (mkWorld [photo; scan] (Some "p1") None [] [] []) IMAGE "" false [].

(** Sizes of the files behind the queue items. *)
Definition sizes (q : QueueItem) : N :=
  if String.eqb (id q) "v1" then (20 * 1024 * 1024)%N else 1024%N.

(** A network that refuses the request made for "p2" and answers every
    other one with a fenced empty object, and a parser. *)
Definition network (tag : string) (req : geminiService.Request) : string + string :=
  if String.eqb tag "p2" then inl "429 quota exceeded" else inr "```json {} ```".

Definition parse (s : string) : string + AnalysisResult :=
  if String.eqb s "{}" then inr (Scenario.frame 80 90 "synthetic texture" [])
  else inl "Unexpected token".

Definition durations (q : QueueItem) : Q := 12.

Definition frames (q : QueueItem) (t : Q) : string := "jpeg".

Definition frame_network (q : QueueItem) (i : nat) (req : geminiService.Request)
    : string + string := inr "{}".

Definition empty_video_app : App :=
  mkApp (mkWorld [] None None [] [] []) VIDEO "" false [].

Definition twenty_mebibytes (q : QueueItem) : N := (20 * 1024 * 1024)%N.

Definition picture : File := mkFile "cat.png" 1024 "image/png".

Definition empty_image_app : App :=
  mkApp (mkWorld [] None None [] [] []) IMAGE "" false [].

Definition one_kibibyte (q : QueueItem) : N := 1024%N.

Definition default_config : AnalysisConfig :=
  mkAnalysisConfig balanced general
    (mkAdvancedConfig (2 # 10) (8 # 10) 32 standard false 5).

End Samples.

(** No character of [s] is a comma. *)
Fixpoint comma_free (s : string) : bool :=
  match s with
  | EmptyString => true
  | String c s' => negb (Ascii.eqb c ",") && comma_free s'
  end.

(** * Properties *)

(** ** Numbers *)

Lemma lt_true_iff (a b : Q) : JS.lt a b = true <-> a < b.
Proof.
  unfold JS.lt. rewrite negb_true_iff. split; intro H.
  - apply Qnot_le_lt. intro Hle. apply Qle_bool_iff in Hle. congruence.
  - destruct (Qle_bool b a) eqn:E; [|reflexivity].
    apply Qle_bool_iff in E. exfalso. apply (Qlt_not_le _ _ H E).
Qed.

Lemma lt_false_iff (a b : Q) : JS.lt a b = false <-> b <= a.
Proof.
  unfold JS.lt. rewrite negb_false_iff. apply Qle_bool_iff.
Qed.

Lemma Math_max_lower (x : Q) : 1 <= JS.Math_max 1 x.
Proof.
  unfold JS.Math_max. destruct (Qle_bool 1 x) eqn:E.
  - now apply Qle_bool_iff.
  - apply Qle_refl.
Qed.

Lemma Math_max_clamps (x : Q) : x < 1 -> JS.Math_max 1 x = 1.
Proof.
  intro H. unfold JS.Math_max. destruct (Qle_bool 1 x) eqn:E; [|reflexivity].
  apply Qle_bool_iff in E. exfalso. apply (Qlt_not_le _ _ H E).
Qed.

Lemma Math_max_keeps (x : Q) : 1 <= x -> JS.Math_max 1 x = x.
Proof.
  intro H. unfold JS.Math_max. apply Qle_bool_iff in H. now rewrite H.
Qed.

Lemma inject_succ (n : nat) : inject_Z (Z.of_nat (S n)) == inject_Z (Z.of_nat n) + 1.
Proof.
  rewrite Nat2Z.inj_succ. unfold Z.succ. now rewrite inject_Z_plus.
Qed.

(** ** The sample schedule *)

Section Schedule.
Variables duration interval : Q.
Hypothesis step_positive : 1 <= interval.

Lemma timestamps_loop_bounds (fuel : nat) : forall t,
  Forall (fun x => t <= x /\ x < duration) (timestamps_loop fuel t duration interval).
Proof.
  induction fuel as [|fuel IH]; intro t; simpl; [constructor|].
  destruct (JS.lt t duration) eqn:E; [|constructor].
  apply lt_true_iff in E. constructor.
  - split; [apply Qle_refl | exact E].
  - eapply Forall_impl; [|apply IH]. cbv beta. intros x [Hlo Hhi]. split; lra.
Qed.

Lemma timestamps_loop_increasing (fuel : nat) : forall t,
  StronglySorted Qlt (timestamps_loop fuel t duration interval).
Proof.
  induction fuel as [|fuel IH]; intro t; simpl; [constructor|].
  destruct (JS.lt t duration); constructor; [apply IH|].
  eapply Forall_impl; [|apply timestamps_loop_bounds].
  cbv beta. intros x [Hlo _]. lra.
Qed.

Lemma timestamps_loop_step (fuel : nat) : forall t k x,
  nth_error (timestamps_loop fuel t duration interval) k = Some x ->
  x == t + inject_Z (Z.of_nat k) * interval.
Proof.
  induction fuel as [|fuel IH]; intros t k x; simpl.
  - destruct k; discriminate.
  - destruct (JS.lt t duration); [|destruct k; discriminate].
    destruct k as [|k]; cbn [nth_error].
    + intros [= <-]. change (inject_Z (Z.of_nat 0)) with 0. lra.
    + intro H. apply IH in H. rewrite H, inject_succ. lra.
Qed.

(** The loop has left by itself once the fuel covers [duration - t]:
    more fuel changes nothing. *)
Lemma timestamps_loop_fuel (fuel : nat) : forall t extra,
  duration - t <= inject_Z (Z.of_nat fuel) ->
  timestamps_loop (fuel + extra) t duration interval
  = timestamps_loop fuel t duration interval.
Proof.
  induction fuel as [|fuel IH]; intros t extra Hfuel.
  - change (inject_Z (Z.of_nat 0)) with 0 in Hfuel.
    destruct extra; [reflexivity|]. simpl.
    assert (E : JS.lt t duration = false) by (apply lt_false_iff; lra).
    now rewrite E.
  - simpl. destruct (JS.lt t duration); [|reflexivity].
    f_equal. apply IH. rewrite inject_succ in Hfuel. lra.
Qed.

Lemma timestamps_fuel_covers : duration <= inject_Z (Z.of_nat (timestamps_fuel duration)).
Proof.
  unfold timestamps_fuel. pose proof (Qle_ceiling duration) as Hc.
  eapply Qle_trans; [exact Hc|]. rewrite <- Zle_Qle. lia.
Qed.

End Schedule.

Lemma timestamps_loop_head (fuel : nat) (t duration interval : Q) :
  timestamps_loop fuel t duration interval = []
  \/ exists l, timestamps_loop fuel t duration interval = t :: l.
Proof.
  destruct fuel; simpl; [now left|].
  destruct (JS.lt t duration); [right; eauto | now left].
Qed.

Lemma timestamps_loop_exhausted (fuel : nat) (t duration interval : Q) :
  duration <= t -> timestamps_loop fuel t duration interval = [].
Proof.
  intro H. destruct fuel; simpl; [reflexivity|].
  apply lt_false_iff in H. now rewrite H.
Qed.

Lemma num_or_zero (x d : Q) : x == 0 -> JS.num_or x d = d.
Proof.
  intro H. unfold JS.num_or. apply Qeq_bool_iff in H. now rewrite H.
Qed.

Lemma num_or_nonzero (x d : Q) : ~ x == 0 -> JS.num_or x d = x.
Proof.
  intro H. unfold JS.num_or. destruct (Qeq_bool x 0) eqn:E; [|reflexivity].
  apply Qeq_bool_iff in E. contradiction.
Qed.

(** C6: whatever the video element and the configuration report, the
    step is the sample interval clamped to at least 1 (so it is never 0 or
    negative) and the loop that builds the schedule ends within its fuel;
    the schedule is non-empty, starts at 0, is strictly increasing, its
    k-th entry is k times the step, every entry is below a positive
    duration, and it is exactly [0] when the duration is at most 0 or at
    most the step. *)
Theorem schedule_well_formed (video_duration sampleInterval : Q) :
  let duration := JS.num_or video_duration 1 in
  let interval := JS.Math_max 1 sampleInterval in
  let ts := timestamps video_duration sampleInterval in
  1 <= interval
  /\ (sampleInterval < 1 -> interval = 1)
  /\ (1 <= sampleInterval -> interval = sampleInterval)
  /\ (forall extra,
        timestamps_loop (timestamps_fuel duration + extra) 0 duration interval
        = timestamps_loop (timestamps_fuel duration) 0 duration interval)
  /\ ts <> []
  /\ hd_error ts = Some 0
  /\ StronglySorted Qlt ts
  /\ (forall k t, nth_error ts k = Some t -> t == inject_Z (Z.of_nat k) * interval)
  /\ (0 < video_duration -> Forall (fun t => t < video_duration) ts)
  /\ (video_duration <= 0 \/ video_duration <= interval -> ts = [0]).
Proof.
  intros duration interval ts.
  pose proof (Math_max_lower sampleInterval) as Hstep. fold interval in Hstep.
  assert (Hts : ts = match timestamps_loop (timestamps_fuel duration) 0 duration interval with
                     | [] => [0]
                     | _ :: _ => timestamps_loop (timestamps_fuel duration) 0 duration interval
                     end) by reflexivity.
  pose proof (timestamps_loop_bounds duration interval Hstep (timestamps_fuel duration) 0) as Hb.
  pose proof (timestamps_loop_increasing duration interval Hstep (timestamps_fuel duration) 0) as Hs.
  pose proof (timestamps_loop_step duration interval (timestamps_fuel duration) 0) as Hk.
  pose proof (timestamps_loop_head (timestamps_fuel duration) 0 duration interval) as Hh.
  repeat split.
  - exact Hstep.
  - apply Math_max_clamps.
  - apply Math_max_keeps.
  - intro extra. apply timestamps_loop_fuel; [exact Hstep|].
    pose proof (timestamps_fuel_covers duration). lra.
  - rewrite Hts. destruct (timestamps_loop _ _ _ _); discriminate.
  - rewrite Hts. destruct Hh as [-> | [l ->]]; reflexivity.
  - rewrite Hts. destruct (timestamps_loop _ _ _ _); [repeat constructor | exact Hs].
  - intros k t. rewrite Hts.
    destruct (timestamps_loop _ _ _ _) eqn:E.
    + destruct k as [|k]; cbn [nth_error].
      * intros [= <-]. change (inject_Z (Z.of_nat 0)) with 0. lra.
      * destruct k; discriminate.
    + intro H. apply Hk in H. lra.
  - intro Hpos. rewrite Hts.
    assert (Hd : duration = video_duration).
    { apply num_or_nonzero. intro H0. rewrite H0 in Hpos. now apply Qlt_irrefl in Hpos. }
    destruct (timestamps_loop _ _ _ _) eqn:E.
    + repeat constructor. exact Hpos.
    + eapply Forall_impl; [|exact Hb]. cbv beta. intros x [_ Hx]. now rewrite <- Hd.
  - intro Hshort. rewrite Hts.
    destruct (Qeq_dec video_duration 0) as [Hz|Hnz].
    + unfold duration. rewrite (num_or_zero _ _ Hz). reflexivity.
    + assert (Hd : duration = video_duration) by now apply num_or_nonzero.
      rewrite Hd in *.
      destruct (Qlt_le_dec 0 video_duration) as [Hpos|Hneg].
      * assert (Hle : video_duration <= interval) by (destruct Hshort; lra).
        destruct (timestamps_fuel video_duration); [reflexivity|]. simpl.
        apply lt_true_iff in Hpos. rewrite Hpos.
        rewrite timestamps_loop_exhausted; [reflexivity | lra].
      * now rewrite timestamps_loop_exhausted.
Qed.

(** ** Labels *)

Lemma progressive_label_rule (avgProb : Z) :
  (progressive_label avgProb = LikelyAI <-> (50 < avgProb)%Z)
  /\ (progressive_label avgProb = LikelyHuman <-> (avgProb <= 50)%Z)
  /\ progressive_label avgProb <> MixedUncertain.
Proof.
  unfold progressive_label. destruct (Z.ltb_spec 50 avgProb);
    repeat split; intros; try discriminate; try reflexivity; lia.
Qed.

Lemma final_label_rule (avgProb : Z) :
  (final_label avgProb = LikelyAI <-> (50 < avgProb)%Z)
  /\ (final_label avgProb = MixedUncertain <-> (30 < avgProb <= 50)%Z)
  /\ (final_label avgProb = LikelyHuman <-> (avgProb <= 30)%Z).
Proof.
  unfold final_label.
  destruct (Z.ltb_spec 50 avgProb); [|destruct (Z.ltb_spec 30 avgProb)];
    repeat split; intros; try discriminate; try reflexivity; lia.
Qed.

(** C5: the label of an intermediate result is "Likely AI" exactly when
    its probability exceeds 50 and "Likely Human" otherwise, never
    "Mixed/Uncertain"; the label of the final result is "Likely AI" above
    50, "Mixed/Uncertain" above 30 and up to 50, "Likely Human" up to 30;
    so 30, 31, 50 and 51 give Human, Mixed, Mixed and AI. *)
Theorem label_thresholds :
  (forall st i total frameResult,
     let r := progressiveResult st i total frameResult in
     (label r = LikelyAI <-> 50 < probabilityAI r)
     /\ (label r = LikelyHuman <-> probabilityAI r <= 50)
     /\ label r <> MixedUncertain)
  /\ (forall st total,
     let r := finalResult st total in
     (label r = LikelyAI <-> 50 < probabilityAI r)
     /\ (label r = MixedUncertain <-> 30 < probabilityAI r /\ probabilityAI r <= 50)
     /\ (label r = LikelyHuman <-> probabilityAI r <= 30))
  /\ (forall avgProb : Z,
     (progressive_label avgProb = LikelyAI <-> (50 < avgProb)%Z)
     /\ (progressive_label avgProb = LikelyHuman <-> (avgProb <= 50)%Z)
     /\ progressive_label avgProb <> MixedUncertain)
  /\ (forall avgProb : Z,
     (final_label avgProb = LikelyAI <-> (50 < avgProb)%Z)
     /\ (final_label avgProb = MixedUncertain <-> (30 < avgProb <= 50)%Z)
     /\ (final_label avgProb = LikelyHuman <-> (avgProb <= 30)%Z))
  /\ map final_label [30; 31; 50; 51]%Z
     = [LikelyHuman; MixedUncertain; MixedUncertain; LikelyAI]
  /\ map Label_text [LikelyAI; LikelyHuman; MixedUncertain]
     = ["Likely AI"; "Likely Human"; "Mixed/Uncertain"].
Proof.
  repeat apply conj; try reflexivity;
    try apply progressive_label_rule; try apply final_label_rule.
  - intros st i total frameResult r. subst r. cbn [progressiveResult label probabilityAI].
    set (z := JS.Math_round _).
    destruct (progressive_label_rule z) as (Ha & Hh & Hm).
    change 50 with (inject_Z 50). rewrite <- Zlt_Qlt, <- Zle_Qle. auto.
  - intros st total r. subst r. cbn [finalResult label probabilityAI].
    set (z := JS.Math_round _).
    destruct (final_label_rule z) as (Ha & Hm & Hh).
    change 50 with (inject_Z 50). change 30 with (inject_Z 30).
    rewrite <- !Zlt_Qlt, <- !Zle_Qle. auto.
Qed.

(** ** The guard on [previewUrl] *)

(** C10: for an item without a preview URL the function returns at once;
    the world (queue, shown result, history, toasts and the calls made to
    the video element and to the classifier) is left exactly as it was,
    whatever the environment and the other handlers do. *)
Theorem absent_preview_is_noop (env : Env) (intf : Interference)
    (item : QueueItem) (w : World) :
  previewUrl item = None ->
  handleProgressiveVideoAnalysis env intf item w = w.
Proof.
  intro H. unfold handleProgressiveVideoAnalysis. now rewrite H.
Qed.

Lemma absent_preview_is_noop_witness :
  previewUrl Scenario.no_preview = None
  /\ handleProgressiveVideoAnalysis Scenario.five_frames
       (remove_during_capture "v1" 1) Scenario.no_preview Scenario.world0
     = Scenario.world0.
Proof.
  split; [reflexivity|].
  apply (absent_preview_is_noop Scenario.five_frames
           (remove_during_capture "v1" 1) Scenario.no_preview Scenario.world0).
  reflexivity.
Defined.

(** ** The evidence pool *)

Section MapFacts.
Context {V : Type}.
Implicit Types (m : list (string * V)) (k : string) (v : V).

Lemma Map_of_snoc (pairs : list (string * V)) kv :
  JS.Map_of (pairs ++ [kv])%list = JS.Map_set (fst kv) (snd kv) (JS.Map_of pairs).
Proof.
  unfold JS.Map_of. now rewrite fold_left_app.
Qed.

Lemma Map_set_keys k v m :
  map fst (JS.Map_set k v m)
  = if in_dec string_dec k (map fst m) then map fst m else (map fst m ++ [k])%list.
Proof.
  induction m as [|[k' v'] m IH]; simpl; [reflexivity|].
  destruct (String.eqb_spec k' k) as [->|Hne].
  - simpl. destruct (string_dec k k); [|congruence].
    destruct (in_dec string_dec k (map fst m)); reflexivity.
  - simpl. rewrite IH. destruct (string_dec k' k); [congruence|].
    destruct (in_dec string_dec k (map fst m)); reflexivity.
Qed.

Lemma Map_set_find k k' v m :
  option_map snd (find (has_key k) (JS.Map_set k' v m))
  = if String.eqb k' k then Some v else option_map snd (find (has_key k) m).
Proof.
  induction m as [|[k0 v0] m IH]; simpl.
  - unfold has_key. simpl. now destruct (String.eqb k' k).
  - destruct (String.eqb_spec k0 k') as [->|Hne]; simpl; unfold has_key in *; simpl.
    + now destruct (String.eqb k' k).
    + destruct (String.eqb_spec k0 k) as [->|Hne'].
      * destruct (String.eqb_spec k' k); [congruence|reflexivity].
      * exact IH.
Qed.

(** The keys are the distinct keys of the pairs, each at the place of its
    first occurrence. *)
Lemma Map_of_keys (pairs : list (string * V)) :
  map fst (JS.Map_of pairs) = rev (nodup string_dec (rev (map fst pairs))).
Proof.
  induction pairs as [|kv pairs IH] using rev_ind; [reflexivity|].
  rewrite Map_of_snoc, Map_set_keys, IH, map_app, rev_app_distr. simpl.
  destruct (in_dec string_dec (fst kv) (rev (map fst pairs))) as [Hin|Hout].
  - destruct (in_dec string_dec (fst kv) (rev (nodup string_dec (rev (map fst pairs)))))
      as [|Hno]; [reflexivity|].
    exfalso. apply Hno. rewrite <- in_rev. now apply nodup_In.
  - destruct (in_dec string_dec (fst kv) (rev (nodup string_dec (rev (map fst pairs)))))
      as [Hyes|]; [|reflexivity].
    exfalso. apply Hout. rewrite <- in_rev in Hyes. now apply nodup_In in Hyes.
Qed.

(** Looking a key up gives the value written last. *)
Lemma Map_of_find (pairs : list (string * V)) k :
  option_map snd (find (has_key k) (JS.Map_of pairs))
  = option_map snd (find (has_key k) (rev pairs)).
Proof.
  induction pairs as [|kv pairs IH] using rev_ind; [reflexivity|].
  rewrite Map_of_snoc, Map_set_find, rev_app_distr. simpl.
  unfold has_key at 2. now destruct (String.eqb (fst kv) k).
Qed.

Lemma NoDup_keys_find m k v :
  NoDup (map fst m) -> In (k, v) m -> option_map snd (find (has_key k) m) = Some v.
Proof.
  induction m as [|[k' v'] m IH]; simpl; [easy|].
  intros Hnd [Heq|Hin]; inversion Hnd as [|? ? Hnotin Hnd']; subst.
  - inversion Heq; subst. unfold has_key. simpl. now rewrite String.eqb_refl.
  - unfold has_key at 1. simpl. destruct (String.eqb_spec k' k) as [->|Hne].
    + exfalso. apply Hnotin. now apply (in_map fst) in Hin.
    + now apply IH.
Qed.

End MapFacts.

Lemma Map_set_In {V : Type} (k k' : string) (v v' : V) (m : list (string * V)) :
  In (k, v) (JS.Map_set k' v' m) -> (k, v) = (k', v') \/ In (k, v) m.
Proof.
  induction m as [|[k0 v0] m IH]; simpl.
  - intros [H|[]]. left. now symmetry.
  - destruct (String.eqb_spec k0 k') as [->|Hne]; simpl.
    + intros [H|H]; [left; now symmetry | right; now right].
    + intros [H|H]; [right; now left|]. destruct (IH H); auto.
Qed.

Lemma Map_of_In {V : Type} (pairs : list (string * V)) (k : string) (v : V) :
  In (k, v) (JS.Map_of pairs) -> In (k, v) pairs.
Proof.
  induction pairs as [|kv pairs IH] using rev_ind; [easy|].
  rewrite Map_of_snoc. intro H. apply Map_set_In in H. apply in_or_app.
  destruct H as [H|H]; [right; left; destruct kv; now symmetry | left; auto].
Qed.

Lemma find_named (k : string) (l : list KeyFeature) :
  option_map snd (find (has_key k) (map named l))
  = find (fun g => String.eqb (feature g) k) l.
Proof.
  induction l as [|g l IH]; simpl; [reflexivity|].
  unfold has_key at 1. simpl. now destruct (String.eqb (feature g) k).
Qed.

Lemma evidencePool_names (all : list KeyFeature) :
  map feature (evidencePool all)
  = rev (nodup string_dec (rev (map feature all))).
Proof.
  unfold evidencePool, JS.Map_values. fold named.
  assert (map feature (map snd (JS.Map_of (map named all)))
          = map fst (JS.Map_of (map named all))) as ->.
  { rewrite map_map. apply map_ext_in. intros [k f] Hin.
    apply Map_of_In, in_map_iff in Hin. destruct Hin as (g & [= <- <-] & _).
    reflexivity. }
  rewrite Map_of_keys, map_map. reflexivity.
Qed.

Lemma evidencePool_NoDup (all : list KeyFeature) :
  NoDup (map feature (evidencePool all)).
Proof.
  rewrite evidencePool_names. apply NoDup_rev, NoDup_nodup.
Qed.

Lemma evidencePool_last_write (all : list KeyFeature) (f : KeyFeature) :
  In f (evidencePool all) ->
  find (fun g => String.eqb (feature g) (feature f)) (rev all) = Some f.
Proof.
  unfold evidencePool, JS.Map_values. fold named. intro Hin.
  apply in_map_iff in Hin. destruct Hin as ([k g] & Hg & Hin). simpl in Hg. subst g.
  assert (k = feature f) as ->.
  { apply Map_of_In, in_map_iff in Hin. now destruct Hin as (g & [= <- <-] & _). }
  rewrite <- find_named, map_rev, <- Map_of_find.
  apply NoDup_keys_find; [|exact Hin].
  rewrite Map_of_keys. apply NoDup_rev, NoDup_nodup.
Qed.

(** ** Ranking by impact *)

Lemma by_impact_desc_le (x y : KeyFeature) :
  Qle_bool (by_impact_desc x y) 0 = true <-> outranks x y.
Proof.
  unfold by_impact_desc, outranks. rewrite Qle_bool_iff. split; intro; lra.
Qed.

Lemma sort_insert_perm {A : Type} (cmp : A -> A -> Q) (x : A) (l : list A) :
  Permutation (x :: l) (JS.sort_insert cmp x l).
Proof.
  induction l as [|y l IH]; simpl; [reflexivity|].
  destruct (Qle_bool (cmp x y) 0); [reflexivity|].
  rewrite perm_swap. now constructor.
Qed.

Lemma sort_perm {A : Type} (cmp : A -> A -> Q) (l : list A) :
  Permutation l (JS.sort cmp l).
Proof.
  induction l as [|x l IH]; simpl; [constructor|].
  rewrite <- sort_insert_perm. now constructor.
Qed.

Lemma sort_insert_sorted (x : KeyFeature) (l : list KeyFeature) :
  StronglySorted outranks l ->
  StronglySorted outranks (JS.sort_insert by_impact_desc x l).
Proof.
  induction 1 as [|y l Hs IH Hy]; simpl; [repeat constructor|].
  destruct (Qle_bool (by_impact_desc x y) 0) eqn:E.
  - apply by_impact_desc_le in E. constructor; [now constructor|].
    constructor; [exact E|]. eapply Forall_impl; [|exact Hy].
    unfold outranks in *. intros z Hz. lra.
  - constructor; [exact IH|].
    eapply Permutation_Forall; [apply sort_insert_perm|].
    constructor; [|exact Hy].
    destruct (Qlt_le_dec (impactScore x) (impactScore y)) as [Hlt|Hle].
    + unfold outranks. lra.
    + apply by_impact_desc_le in Hle. congruence.
Qed.

Lemma sort_sorted (l : list KeyFeature) :
  StronglySorted outranks (JS.sort by_impact_desc l).
Proof.
  induction l; simpl; [constructor | now apply sort_insert_sorted].
Qed.

(** Stability: entries of equal impact keep their relative order. *)
Lemma sort_insert_stable (s : Q) (x : KeyFeature) (l : list KeyFeature) :
  filter (scored s) (JS.sort_insert by_impact_desc x l) = filter (scored s) (x :: l).
Proof.
  induction l as [|y l IH]; [reflexivity|].
  cbn [JS.sort_insert]. destruct (Qle_bool (by_impact_desc x y) 0) eqn:E; [reflexivity|].
  cbn [filter] in *. rewrite IH.
  destruct (scored s x) eqn:Ex; [|reflexivity].
  destruct (scored s y) eqn:Ey; [|reflexivity].
  exfalso. unfold scored in *. apply Qeq_bool_iff in Ex, Ey.
  assert (outranks x y) as Hle by (unfold outranks; lra).
  apply by_impact_desc_le in Hle. congruence.
Qed.

Lemma sort_stable (s : Q) (l : list KeyFeature) :
  filter (scored s) (JS.sort by_impact_desc l) = filter (scored s) l.
Proof.
  induction l as [|x l IH]; [reflexivity|].
  cbn [JS.sort fold_right]. fold (JS.sort by_impact_desc l).
  rewrite sort_insert_stable. cbn [filter]. now rewrite IH.
Qed.

Lemma fold_frames_features (frames : list AnalysisResult) : forall st,
  allKeyFeatures (fold_frames frames st)
  = (allKeyFeatures st ++ List.concat (map keyFeatures frames))%list.
Proof.
  induction frames as [|r frames IH]; intro st; simpl.
  - now rewrite app_nil_r.
  - unfold fold_frames in *. rewrite IH. simpl. now rewrite app_assoc.
Qed.

(** C4: after folding any sequence of frame results, the key features of
    the intermediate and of the final result are the first six entries of
    the ranked evidence pool.  The pool has one entry per feature name, in
    the order in which the names were first seen, and each entry is the
    one written last under its name.  The ranking is a rearrangement of
    the pool in descending order of impact that keeps entries of equal
    impact in pool order.  Two frames reporting "texture blur" with
    impact 40 and then 70 leave the single entry "texture blur", 70. *)
Theorem keyFeatures_top6_of_pool (frames : list AnalysisResult)
    (i total : nat) (latest : AnalysisResult) :
  let st := fold_frames frames initial_locals in
  let all := List.concat (map keyFeatures frames) in
  let pool := evidencePool all in
  let ranked := JS.sort by_impact_desc pool in
  keyFeatures (progressiveResult st i total latest) = firstn 6 ranked
  /\ keyFeatures (finalResult st total) = firstn 6 ranked
  /\ map feature pool = rev (nodup string_dec (rev (map feature all)))
  /\ NoDup (map feature pool)
  /\ (forall f, In f pool ->
        find (fun g => String.eqb (feature g) (feature f)) (rev all) = Some f)
  /\ Permutation pool ranked
  /\ StronglySorted (fun a b => impactScore b <= impactScore a) ranked
  /\ (forall s, filter (fun f => Qeq_bool (impactScore f) s) ranked
                = filter (fun f => Qeq_bool (impactScore f) s) pool)
  /\ keyFeatures
       (finalResult
          (fold_frames
             [Scenario.frame 20 90 "first" [mkKeyFeature "texture blur" 40];
              Scenario.frame 30 90 "second" [mkKeyFeature "texture blur" 70]]
             initial_locals) 2)
     = [mkKeyFeature "texture blur" 70].
Proof.
  intros st all pool ranked.
  assert (Hall : allKeyFeatures st = all).
  { unfold st. now rewrite fold_frames_features. }
  repeat apply conj.
  - cbn [progressiveResult keyFeatures]. now rewrite Hall.
  - cbn [finalResult keyFeatures]. now rewrite Hall.
  - apply evidencePool_names.
  - apply evidencePool_NoDup.
  - apply evidencePool_last_write.
  - apply sort_perm.
  - apply sort_sorted.
  - intro s. apply (sort_stable s).
  - reflexivity.
Qed.

(** ** The loop *)

Section Loop.
Variable env : Env.
Variable intf : Interference.
Variable item : QueueItem.
Variable ts : list Q.
Variable total : nat.

Lemma loop_body_skipped i st w :
  segment_outcome env ts i = None ->
  loop_body env intf item ts total i st w
  = Normal st (intf (AwaitCapture i) (call (Seek (nth i ts 0)) w)).
Proof.
  unfold segment_outcome, loop_body.
  destruct (captureFrame env (nth i ts 0)); [reflexivity | discriminate].
Qed.

Lemma loop_body_rejected i st w message :
  segment_outcome env ts i = Some (inl message) ->
  loop_body env intf item ts total i st w
  = Thrown message
      (intf (AwaitClassify i)
         (call (Classify (captureFrame env (nth i ts 0)))
            (intf (AwaitCapture i) (call (Seek (nth i ts 0)) w)))).
Proof.
  unfold segment_outcome, loop_body.
  destruct (captureFrame env (nth i ts 0)) eqn:E; [discriminate|].
  intros [= ->]. reflexivity.
Qed.

Lemma loop_body_folded i st w r :
  segment_outcome env ts i = Some (inr r) ->
  loop_body env intf item ts total i st w
  = Normal (accumulate r st)
      (updateQueueItem (id item)
         (mkUpdates None (Some (progressiveResult (accumulate r st) i total r))
                    None (Some (S i)) None)
         (setResult (Some (progressiveResult (accumulate r st) i total r))
            (intf (AwaitClassify i)
               (call (Classify (captureFrame env (nth i ts 0)))
                  (intf (AwaitCapture i) (call (Seek (nth i ts 0)) w)))))).
Proof.
  unfold segment_outcome, loop_body.
  destruct (captureFrame env (nth i ts 0)) eqn:E; [discriminate|].
  intros [= ->]. reflexivity.
Qed.

(** When every segment in [i, i + n) is folded the loop ends normally and
    the result shown last is the intermediate result of segment
    [i + n - 1]. *)
Lemma frames_loop_all_folded n : forall i st w,
  (forall j, (i <= j < i + n)%nat -> exists r, segment_outcome env ts j = Some (inr r)) ->
  exists st' w',
    frames_loop env intf item ts total n i st w = Normal st' w'
    /\ (n = O -> st' = st /\ w' = w)
    /\ ((0 < n)%nat -> exists r,
          lastResult st' = Some r
          /\ shownResult w' = Some (progressiveResult st' (i + n - 1) total r)).
Proof.
  induction n as [|n IH]; intros i st w Hall.
  - exists st, w. repeat split; [lia].
  - destruct (Hall i ltac:(lia)) as [r Hr]. cbn [frames_loop].
    rewrite (loop_body_folded _ _ _ _ Hr).
    match goal with |- context [frames_loop _ _ _ _ _ _ _ ?s ?v] =>
      destruct (IH (S i) s v) as (st' & w' & Hrun & H0 & Hpos) end.
    { intros j Hj. apply Hall. lia. }
    exists st', w'. split; [exact Hrun|]. split; [discriminate|]. intros _.
    destruct n as [|n].
    + destruct (H0 eq_refl) as [-> ->]. exists r. split; [reflexivity|].
      replace (i + 1 - 1)%nat with i by lia. reflexivity.
    + destruct (Hpos ltac:(lia)) as (r' & Hlast & Hshown). exists r'.
      split; [exact Hlast|]. rewrite Hshown. do 2 f_equal. lia.
Qed.

End Loop.

Lemma timestamps_nonempty (video_duration sampleInterval : Q) :
  (1 <= List.length (timestamps video_duration sampleInterval))%nat.
Proof.
  unfold timestamps. destruct (timestamps_loop _ _ _ _); simpl; lia.
Qed.

Lemma handle_with_preview (env : Env) (intf : Interference) (item : QueueItem)
    (url : string) (w : World) :
  previewUrl item = Some url -> url <> "" ->
  handleProgressiveVideoAnalysis env intf item w
  = finish item (List.length (timestamps (video_duration env) (sampleInterval env)))
           (run_frames env intf item url w).
Proof.
  intros Hurl Hne. unfold handleProgressiveVideoAnalysis. rewrite Hurl.
  destruct url; [contradiction | reflexivity].
Qed.

Lemma finish_shows_final (item : QueueItem) (total : nat) (st : Locals) (w : World)
    (r : AnalysisResult) :
  lastResult st = Some r ->
  shownResult (finish item total (Normal st w)) = Some (finalResult st total).
Proof.
  intro H. unfold finish. rewrite H. reflexivity.
Qed.

(** The locals with which the loop ends are the folded results of the
    segments that were neither skipped nor rejected, in schedule order. *)
Lemma frames_loop_locals (env : Env) (intf : Interference) (item : QueueItem)
    (ts : list Q) (total : nat) n : forall i st w st' w',
  frames_loop env intf item ts total n i st w = Normal st' w' ->
  st' = fold_frames (folded_results env ts n i) st.
Proof.
  induction n as [|n IH]; intros i st w st' w' Hrun.
  - now injection Hrun as <- _.
  - cbn [frames_loop folded_results] in *.
    destruct (segment_outcome env ts i) as [[message|r]|] eqn:E.
    + rewrite (loop_body_rejected _ _ _ _ _ _ _ _ _ E) in Hrun. discriminate.
    + rewrite (loop_body_folded _ _ _ _ _ _ _ _ _ E) in Hrun.
      now apply IH in Hrun.
    + rewrite (loop_body_skipped _ _ _ _ _ _ _ _ E) in Hrun.
      now apply IH in Hrun.
Qed.

(** ** Finalization against the last intermediate result *)

(** C9: when every scheduled frame is captured and classified, the loop
    ends normally, the result shown when it ends is the intermediate
    result of the last segment, and the final result then shown has the
    same probability, confidence and key features; the two differ in the
    label, two-way for the intermediate and three-way for the final result
    on the same rounded average, and in the reasoning text. *)
Theorem final_agrees_with_last_intermediate (env : Env) (intf : Interference)
    (item : QueueItem) (url : string) (w : World) :
  previewUrl item = Some url -> url <> "" ->
  let ts := timestamps (video_duration env) (sampleInterval env) in
  (forall i, (i < List.length ts)%nat ->
     exists r, segment_outcome env ts i = Some (inr r)) ->
  exists st w1 pr z,
    run_frames env intf item url w = Normal st w1
    /\ shownResult w1 = Some pr
    /\ shownResult (handleProgressiveVideoAnalysis env intf item w)
       = Some (finalResult st (List.length ts))
    /\ probabilityAI (finalResult st (List.length ts)) = probabilityAI pr
    /\ confidence (finalResult st (List.length ts)) = confidence pr
    /\ keyFeatures (finalResult st (List.length ts)) = keyFeatures pr
    /\ probabilityAI pr = inject_Z z
    /\ label pr = progressive_label z
    /\ label (finalResult st (List.length ts)) = final_label z.
Proof.
  intros Hurl Hne ts Hall.
  pose proof (timestamps_nonempty (video_duration env) (sampleInterval env)) as Hlen.
  fold ts in Hlen.
  rewrite (handle_with_preview _ _ _ _ _ Hurl Hne). fold ts.
  unfold run_frames, begin. fold ts.
  match goal with |- context [frames_loop _ _ _ _ _ _ _ ?s ?v] =>
    destruct (frames_loop_all_folded env intf item ts (List.length ts)
                (List.length ts) 0 s v) as (st & w1 & Hrun & _ & Hpos) end.
  { intros j Hj. apply Hall. lia. }
  destruct (Hpos ltac:(lia)) as (r & Hlast & Hshown).
  replace (0 + List.length ts - 1)%nat with (Nat.pred (List.length ts)) in Hshown by lia.
  assert (Hcount : S (Nat.pred (List.length ts)) = List.length ts) by lia.
  exists st, w1, (progressiveResult st (Nat.pred (List.length ts)) (List.length ts) r),
    (JS.Math_round (aggregatedProb st / inject_Z (Z.of_nat (List.length ts)))).
  rewrite Hrun. split; [reflexivity|]. split; [exact Hshown|].
  split; [now apply (finish_shows_final _ _ _ _ r)|].
  unfold progressiveResult, finalResult. cbn [probabilityAI confidence keyFeatures label].
  rewrite Hcount. repeat split.
Qed.

Lemma final_agrees_with_last_intermediate_witness :
  exists st w1 pr z,
    run_frames Scenario.five_frames quiet Scenario.clip "blob:clip" Scenario.world0
    = Normal st w1
    /\ shownResult w1 = Some pr
    /\ shownResult (handleProgressiveVideoAnalysis Scenario.five_frames quiet
                      Scenario.clip Scenario.world0)
       = Some (finalResult st 5)
    /\ probabilityAI (finalResult st 5) = probabilityAI pr
    /\ confidence (finalResult st 5) = confidence pr
    /\ keyFeatures (finalResult st 5) = keyFeatures pr
    /\ probabilityAI pr = inject_Z z
    /\ label pr = progressive_label z
    /\ label (finalResult st 5) = final_label z.
Proof.
  apply (final_agrees_with_last_intermediate Scenario.five_frames quiet
           Scenario.clip "blob:clip" Scenario.world0).
  - reflexivity.
  - discriminate.
  - intros i Hi.
    do 5 (destruct i as [|i]; [eexists; reflexivity|]).
    exfalso. vm_compute in Hi. lia.
Defined.

(** ** What the queue helpers touch *)

Lemma merge_id (q : QueueItem) (u : Updates) : id (merge q u) = id q.
Proof. reflexivity. Qed.

Lemma updateQueueItem_ids uid u w :
  map id (queue (updateQueueItem uid u w)) = map id (queue w).
Proof.
  unfold updateQueueItem, setQueue. cbn [queue]. rewrite map_map.
  apply map_ext. intro q. now destruct (String.eqb (id q) uid).
Qed.

Lemma updateQueueItem_settled uid u w :
  u_status u = None -> u_error u = None -> u_totalSegments u = None ->
  map settled (queue (updateQueueItem uid u w)) = map settled (queue w).
Proof.
  intros Hs He Ht. unfold updateQueueItem, setQueue. cbn [queue]. rewrite map_map.
  apply map_ext. intro q. destruct (String.eqb (id q) uid); [|reflexivity].
  unfold settled, merge. cbn [id status error totalSegments].
  now rewrite Hs, He, Ht.
Qed.

Lemma settled_entry (qid : string) (w w' : World) (q : QueueItem) :
  map settled (queue w') = map settled (queue w) ->
  In q (entries qid w') ->
  exists q0, In q0 (entries qid w) /\ settled q0 = settled q.
Proof.
  unfold entries. intros Hmap Hin. apply filter_In in Hin. destruct Hin as [Hin Hid].
  apply (in_map settled) in Hin. rewrite Hmap in Hin.
  apply in_map_iff in Hin. destruct Hin as (q0 & Hq0 & Hin0).
  exists q0. split; [|exact Hq0]. apply filter_In. split; [exact Hin0|].
  unfold settled in Hq0. now injection Hq0 as -> _ _ _.
Qed.

Lemma updateQueueItem_entries uid u w q :
  In q (entries uid (updateQueueItem uid u w)) ->
  exists q0, In q0 (entries uid w) /\ q = merge q0 u.
Proof.
  unfold entries, updateQueueItem, setQueue. cbn [queue].
  rewrite filter_In, in_map_iff. intros [(q0 & Hq & Hin) Hid].
  destruct (String.eqb (id q0) uid) eqn:E.
  - exists q0. split; [|now symmetry]. apply filter_In. auto.
  - subst q. congruence.
Qed.

Lemma updateQueueItem_others uid u w q :
  In q (queue (updateQueueItem uid u w)) -> id q <> uid -> In q (queue w).
Proof.
  unfold updateQueueItem, setQueue. cbn [queue]. rewrite in_map_iff.
  intros (q0 & Hq & Hin) Hne.
  destruct (String.eqb_spec (id q0) uid) as [Heq|_]; [|now subst].
  subst q. now rewrite merge_id in Hne.
Qed.

Lemma loop_frame_refl w : loop_frame w w.
Proof. repeat split. Qed.

Lemma loop_frame_trans w1 w2 w3 :
  loop_frame w1 w2 -> loop_frame w2 w3 -> loop_frame w1 w3.
Proof.
  unfold loop_frame. intros (?&?&?&?&?) (?&?&?&?&?). repeat split; congruence.
Qed.

Section QuietLoop.
Variable env : Env.
Variable item : QueueItem.
Variable ts : list Q.
Variable total : nat.

(** An iteration that is skipped or folded adds its calls and nothing
    else outside the item's progress and result. *)
Lemma quiet_body_continues i st w :
  ~ rejected env ts i ->
  exists st' w',
    loop_body env quiet item ts total i st w = Normal st' w'
    /\ calls w' = (calls w ++ segment_calls env ts i)%list
    /\ loop_frame w w'.
Proof.
  intro Hok. destruct (segment_outcome env ts i) as [[message|r]|] eqn:E.
  - exfalso. apply Hok. now exists message.
  - rewrite (loop_body_folded _ _ _ _ _ _ _ _ r E). do 2 eexists.
    split; [reflexivity|].
    unfold segment_outcome in E. unfold segment_calls.
    destruct (captureFrame env (nth i ts 0)) eqn:Ec; [discriminate|].
    split.
    + unfold quiet. cbn. now rewrite <- app_assoc.
    + unfold loop_frame, quiet. repeat split.
      * now rewrite updateQueueItem_ids.
      * now rewrite updateQueueItem_settled.
  - rewrite (loop_body_skipped _ _ _ _ _ _ _ _ E). do 2 eexists.
    split; [reflexivity|].
    unfold segment_outcome in E. unfold segment_calls.
    destruct (captureFrame env (nth i ts 0)) eqn:Ec; [|discriminate].
    split; [reflexivity | repeat split].
Qed.

(** A skipped iteration changes nothing but the list of calls. *)
Lemma quiet_loop_all_skipped n : forall i st w,
  (forall j, (i <= j < i + n)%nat -> segment_outcome env ts j = None) ->
  exists w',
    frames_loop env quiet item ts total n i st w = Normal st w'
    /\ queue w' = queue w
    /\ activeFileId w' = activeFileId w
    /\ shownResult w' = shownResult w
    /\ history w' = history w
    /\ toasts w' = toasts w
    /\ calls w' = (calls w ++ map (fun j => Seek (nth j ts 0)) (seq i n))%list.
Proof.
  induction n as [|n IH]; intros i st w Hall.
  - exists w. cbn. rewrite app_nil_r. repeat split.
  - cbn [frames_loop]. rewrite (loop_body_skipped _ _ _ _ _ _ _ _ (Hall i ltac:(lia))).
    match goal with |- context [frames_loop _ _ _ _ _ _ _ _ ?v] =>
      destruct (IH (S i) st v) as (w' & Hrun & Hq & Ha & Hs & Hh & Ht & Hc) end.
    { intros j Hj. apply Hall. lia. }
    exists w'. split; [exact Hrun|]. repeat split; try assumption.
    rewrite Hc. unfold quiet. cbn. now rewrite <- app_assoc.
Qed.

(** The first rejection ends the loop: later segments are neither
    captured nor classified. *)
Lemma quiet_loop_first_rejection (k : nat) (message : string) n : forall i st w,
  (i <= k < i + n)%nat ->
  (forall j, (i <= j < k)%nat -> ~ rejected env ts j) ->
  segment_outcome env ts k = Some (inl message) ->
  exists w',
    frames_loop env quiet item ts total n i st w = Thrown message w'
    /\ calls w' = (calls w ++ flat_map (segment_calls env ts) (seq i (S k - i)))%list
    /\ loop_frame w w'.
Proof.
  induction n as [|n IH]; intros i st w Hk Hbefore Hrej; [lia|].
  cbn [frames_loop]. destruct (Nat.eq_dec i k) as [->|Hne].
  - rewrite (loop_body_rejected _ _ _ _ _ _ _ _ _ Hrej). eexists.
    split; [reflexivity|].
    replace (S k - k)%nat with 1%nat by lia. cbn [seq flat_map]. rewrite app_nil_r.
    unfold segment_outcome in Hrej. unfold segment_calls.
    destruct (captureFrame env (nth k ts 0)) eqn:Ec; [discriminate|].
    split; [|repeat split].
    unfold quiet. cbn. now rewrite <- app_assoc.
  - destruct (quiet_body_continues i st w) as (st1 & w1 & Hbody & Hcalls & Hframe).
    { apply Hbefore. lia. }
    rewrite Hbody.
    destruct (IH (S i) st1 w1) as (w' & Hrun & Hc & Hf); try assumption; [lia| |].
    { intros j Hj. apply Hbefore. lia. }
    exists w'. split; [exact Hrun|]. split; [|eapply loop_frame_trans; eassumption].
    rewrite Hc, Hcalls, <- app_assoc. f_equal.
    replace (S k - i)%nat with (S (S k - S i)) by lia. reflexivity.
Qed.

End QuietLoop.

(** ** When no frame is folded *)

(** C3 (behaviour of the code): when every capture of the schedule comes
    back empty the loop ends with nothing folded and the function only
    detaches the video.  The item is left with status [Analyzing], as set
    before the loop; no error is recorded or announced, no result is shown
    and nothing is written to the history. *)
Theorem no_frame_folded_leaves_item_analyzing (env : Env) (item : QueueItem)
    (url : string) (w : World) :
  previewUrl item = Some url -> url <> "" ->
  let ts := timestamps (video_duration env) (sampleInterval env) in
  (forall i, (i < List.length ts)%nat -> segment_outcome env ts i = None) ->
  let w' := handleProgressiveVideoAnalysis env quiet item w in
  queue w' = queue (updateQueueItem (id item)
                      (mkUpdates (Some Analyzing) None None (Some O)
                                 (Some (List.length ts))) w)
  /\ (forall q, In q (entries (id item) w') ->
        status q = Analyzing
        /\ exists q0, In q0 (entries (id item) w)
                      /\ error q = error q0 /\ result q = result q0)
  /\ shownResult w' = shownResult w
  /\ history w' = history w
  /\ toasts w' = toasts w
  /\ calls w' = (calls w ++ VideoLoad url
                   :: map (fun j => Seek (nth j ts 0)) (seq 0 (List.length ts))
                   ++ [VideoDetach])%list.
Proof.
  intros Hurl Hne ts Hall w'. subst w'.
  rewrite (handle_with_preview _ _ _ _ _ Hurl Hne). fold ts.
  unfold run_frames, begin. fold ts.
  match goal with |- context [frames_loop _ _ _ _ _ _ _ ?s ?v] =>
    destruct (quiet_loop_all_skipped env item ts (List.length ts)
                (List.length ts) 0 s v)
      as (w1 & Hrun & Hq & Ha & Hs & Hh & Ht & Hc) end.
  { intros j Hj. apply Hall. lia. }
  rewrite Hrun. unfold finish. cbn [initial_locals lastResult].
  assert (Hqueue : queue (call VideoDetach w1)
                   = queue (updateQueueItem (id item)
                              (mkUpdates (Some Analyzing) None None (Some O)
                                         (Some (List.length ts))) w)).
  { cbn [call queue]. rewrite Hq. reflexivity. }
  split; [exact Hqueue|]. split; [|repeat split].
  - intros q Hin. unfold entries in Hin. rewrite Hqueue in Hin.
    apply updateQueueItem_entries in Hin. destruct Hin as (q0 & Hin0 & ->).
    split; [reflexivity|]. exists q0. repeat split. exact Hin0.
  - cbn [call shownResult]. rewrite Hs. reflexivity.
  - cbn [call history]. rewrite Hh. reflexivity.
  - cbn [call toasts]. rewrite Ht. reflexivity.
  - cbn [call calls]. rewrite Hc. unfold quiet. cbn. rewrite <- !app_assoc. reflexivity.
Qed.

Lemma no_frame_folded_leaves_item_analyzing_witness :
  map status (entries "v1"
                (handleProgressiveVideoAnalysis Scenario.nothing_captured quiet
                   Scenario.clip Scenario.world0))
  = [Analyzing]
  /\ toasts (handleProgressiveVideoAnalysis Scenario.nothing_captured quiet
               Scenario.clip Scenario.world0) = [].
Proof.
  destruct (no_frame_folded_leaves_item_analyzing Scenario.nothing_captured
              Scenario.clip "blob:clip" Scenario.world0)
    as (Hq & _ & _ & _ & Ht & _).
  - reflexivity.
  - discriminate.
  - intros i _. reflexivity.
  - split; [|exact Ht]. unfold entries. rewrite Hq. reflexivity.
Defined.

(** ** When the classifier rejects a frame *)

(** C2 (as amended): frames whose capture is empty are skipped, but the
    first frame the classifier rejects ends the session.  The segments up
    to and including that one are the only ones captured or classified,
    the video is then detached, the item gets status [Error] with the
    rejection's message (or "Progressive analysis failed" when it is
    empty) and keeps the number of scheduled segments as its total, the
    message is shown as an error toast, and no final result reaches the
    history. *)
Theorem classifier_rejection_aborts_session (env : Env) (item : QueueItem)
    (url : string) (w : World) (k : nat) (message : string) :
  previewUrl item = Some url -> url <> "" ->
  let ts := timestamps (video_duration env) (sampleInterval env) in
  (k < List.length ts)%nat ->
  (forall j, (j < k)%nat -> ~ rejected env ts j) ->
  segment_outcome env ts k = Some (inl message) ->
  let errMsg := JS.str_or message "Progressive analysis failed" in
  let w' := handleProgressiveVideoAnalysis env quiet item w in
  calls w' = (calls w ++ VideoLoad url
                :: flat_map (segment_calls env ts) (seq 0 (S k))
                ++ [VideoDetach])%list
  /\ (forall q, In q (entries (id item) w') ->
        status q = Error /\ error q = Some errMsg
        /\ totalSegments q = Some (List.length ts))
  /\ toasts w' = (toasts w ++ [(errMsg, error_toast)])%list
  /\ history w' = history w
  /\ map id (queue w') = map id (queue w).
Proof.
  intros Hurl Hne ts Hk Hbefore Hrej errMsg w'. subst w'.
  rewrite (handle_with_preview _ _ _ _ _ Hurl Hne). fold ts.
  unfold run_frames, begin. fold ts.
  match goal with |- context [frames_loop _ _ _ _ _ _ _ ?s ?v] =>
    destruct (quiet_loop_first_rejection env item ts (List.length ts) k message
                (List.length ts) 0 s v)
      as (w1 & Hrun & Hc & (Hh & Ht & _ & Hi & Hs)) end; try assumption; [lia| |].
  { intros j Hj. apply Hbefore. lia. }
  rewrite Hrun. unfold finish. fold errMsg.
  replace (S k - 0)%nat with (S k) in Hc by lia.
  split; [|split; [|repeat split]].
  - cbn [call addToast updateQueueItem setQueue calls]. rewrite Hc.
    unfold quiet. cbn [call updateQueueItem setQueue calls].
    rewrite <- !app_assoc. reflexivity.
  - intros q Hin. apply updateQueueItem_entries in Hin.
    destruct Hin as (q0 & Hin0 & ->). do 2 (split; [reflexivity|]).
    destruct (settled_entry _ _ _ _ Hs Hin0) as (q1 & Hin1 & Hq1).
    apply updateQueueItem_entries in Hin1. destruct Hin1 as (q2 & _ & ->).
    unfold settled in Hq1. injection Hq1 as _ _ _ Htotal.
    cbn [merge totalSegments u_totalSegments or_else] in *. now rewrite <- Htotal.
  - cbn [call addToast updateQueueItem setQueue toasts]. rewrite Ht. reflexivity.
  - cbn [call addToast updateQueueItem setQueue history]. rewrite Hh. reflexivity.
  - cbn [call addToast queue]. rewrite updateQueueItem_ids, Hi, updateQueueItem_ids.
    reflexivity.
Qed.

Lemma classifier_rejection_aborts_session_witness :
  let w' := handleProgressiveVideoAnalysis Scenario.classifier_fails_at_5 quiet
              Scenario.clip Scenario.world0 in
  calls w' = [VideoLoad "blob:clip"; Seek 0; Classify "jpeg";
              Seek 5; Classify "jpeg"; VideoDetach]
  /\ (forall q, In q (entries "v1" w') ->
        status q = Error /\ error q = Some "503 Service Unavailable"
        /\ totalSegments q = Some 3%nat)
  /\ toasts w' = [("503 Service Unavailable", error_toast)]
  /\ history w' = []
  /\ map id (queue w') = ["v1"; "v2"; "v3"].
Proof.
  apply (classifier_rejection_aborts_session Scenario.classifier_fails_at_5
           Scenario.clip "blob:clip" Scenario.world0 1 "503 Service Unavailable").
  - reflexivity.
  - discriminate.
  - vm_compute. lia.
  - intros j Hj [message Hm]. destruct j; [discriminate Hm | lia].
  - reflexivity.
Defined.

(** C2 as stated fails on the 12 second example: with the frame at 5 s
    rejected by the classifier the item does not end with a result of 70
    over two processed segments; it ends in [Error]. *)
Lemma single_rejection_counterexample :
  let w' := handleProgressiveVideoAnalysis Scenario.classifier_fails_at_5 quiet
              Scenario.clip Scenario.world0 in
  ~ (forall q, In q (entries "v1" w') ->
       status q <> Error
       /\ segmentsProcessed q = Some 2%nat
       /\ totalSegments q = Some 3%nat
       /\ exists r, result q = Some r /\ probabilityAI r == 70 /\ label r = LikelyAI).
Proof.
  intros w' H.
  destruct (H (hd Scenario.clip (entries "v1" w'))) as (Hstatus & _).
  - left. reflexivity.
  - apply Hstatus. reflexivity.
Qed.

(** ** The divisor of the averages *)

(** C1 (behaviour of the code at the failing input): in the 12 second
    run whose frame at 5 s is skipped, two frames are folded, with
    probabilities 80 and 60, yet the result shown after the last fold and
    the final result both carry 47, the rounded value of 140 / 3, the
    divisor being the number of scheduled segments; the mean of the folded
    frames is 70. *)
Theorem skipped_capture_dilutes_average :
  exists st w1,
    run_frames Scenario.capture_empty_at_5 quiet Scenario.clip "blob:clip"
               Scenario.world0 = Normal st w1
    /\ List.length (filter is_Classify (calls w1)) = 2%nat
    /\ aggregatedProb st == 80 + 60
    /\ option_map probabilityAI (shownResult w1) = Some 47
    /\ option_map probabilityAI
         (shownResult (handleProgressiveVideoAnalysis Scenario.capture_empty_at_5
                         quiet Scenario.clip Scenario.world0)) = Some 47
    /\ option_map label
         (shownResult (handleProgressiveVideoAnalysis Scenario.capture_empty_at_5
                         quiet Scenario.clip Scenario.world0)) = Some MixedUncertain
    /\ JS.Math_round ((80 + 60) / 2) = 70%Z.
Proof.
  do 2 eexists. split; [vm_compute; reflexivity|].
  repeat split.
Qed.

(** C8 (behaviour of the code at the failing input): in the same run the
    count published with the third segment is 3, in the item's
    [segmentsProcessed] and in the status text, although only two frames
    have been classified and folded. *)
Theorem published_count_includes_skipped_segments :
  exists st w1,
    run_frames Scenario.capture_empty_at_5 quiet Scenario.clip "blob:clip"
               Scenario.world0 = Normal st w1
    /\ List.length (filter is_Classify (calls w1)) = 2%nat
    /\ map segmentsProcessed (entries "v1" w1) = [Some 3%nat]
    /\ option_map reasoning (shownResult w1)
       = Some "Progressive analysis in progress (3/3 segments). Latest frame finding: natural grain..."
    /\ option_map confidence (shownResult w1) = Some 53
    /\ JS.Math_round ((90 + 70) / 2) = 80%Z.
Proof.
  do 2 eexists. split; [vm_compute; reflexivity|].
  repeat split.
Qed.

(** ** Removing the item while the function runs *)

Section Removal.
Variable rid : string.

Lemma removeFile_call c w : removeFile rid (call c w) = call c (removeFile rid w).
Proof.
  unfold removeFile, call, setQueue, setActiveFileId.
  destruct w as [wq [a|] wr wh wt wc]; cbn; [destruct (String.eqb a rid)|]; reflexivity.
Qed.

Lemma removeFile_setResult r w :
  removeFile rid (setResult r w) = setResult r (removeFile rid w).
Proof.
  unfold removeFile, setResult, setQueue, setActiveFileId.
  destruct w as [wq [a|] wr wh wt wc]; cbn; [destruct (String.eqb a rid)|]; reflexivity.
Qed.

Lemma removeFile_addToast message type w :
  removeFile rid (addToast message type w) = addToast message type (removeFile rid w).
Proof.
  unfold removeFile, addToast, setQueue, setActiveFileId.
  destruct w as [wq [a|] wr wh wt wc]; cbn; [destruct (String.eqb a rid)|]; reflexivity.
Qed.

Lemma removeFile_saveToHistory r type preview content mime name w :
  removeFile rid (saveToHistory r type preview content mime name w)
  = saveToHistory r type preview content mime name (removeFile rid w).
Proof.
  unfold removeFile, saveToHistory, setHistory, setQueue, setActiveFileId.
  destruct w as [wq [a|] wr wh wt wc]; cbn; [destruct (String.eqb a rid)|]; reflexivity.
Qed.

Lemma filter_updated uid u (l : list QueueItem) :
  filter (fun q => negb (String.eqb (id q) rid))
         (map (fun q => if String.eqb (id q) uid then merge q u else q) l)
  = map (fun q => if String.eqb (id q) uid then merge q u else q)
        (filter (fun q => negb (String.eqb (id q) rid)) l).
Proof.
  induction l as [|q l IH]; [reflexivity|]. cbn [map filter].
  assert (id (if String.eqb (id q) uid then merge q u else q) = id q) as ->
    by now destruct (String.eqb (id q) uid).
  destruct (negb (String.eqb (id q) rid)); cbn [map]; now rewrite IH.
Qed.

Lemma removeFile_updateQueueItem uid u w :
  removeFile rid (updateQueueItem uid u w) = updateQueueItem uid u (removeFile rid w).
Proof.
  unfold removeFile, updateQueueItem, setQueue, setActiveFileId.
  destruct w as [wq [a|] wr wh wt wc]; cbn; rewrite filter_updated;
    [destruct (String.eqb a rid)|]; cbn; try reflexivity.
  f_equal. destruct (filter _ wq) as [|q l]; [reflexivity|]. cbn.
  now destruct (String.eqb (id q) uid).
Qed.

Lemma removeFile_entries w : entries rid (removeFile rid w) = [].
Proof.
  unfold entries, removeFile, setQueue, setActiveFileId.
  assert (H : forall l, filter (fun q => String.eqb (id q) rid)
                (filter (fun q => negb (String.eqb (id q) rid)) l) = []).
  { induction l as [|q l IH]; [reflexivity|]. cbn [filter].
    destruct (String.eqb (id q) rid) eqn:E; cbn [negb filter]; [exact IH|].
    now rewrite E. }
  destruct w as [wq [a|] wr wh wt wc]; cbn; [destruct (String.eqb a rid)|]; cbn; apply H.
Qed.

End Removal.

Section RemovalDuringRun.
Variable env : Env.
Variable item : QueueItem.
Variable ts : list Q.
Variable total : nat.
Variable rid : string.
Variable k : nat.

Lemma quiet_body_after_removal i st w :
  loop_body env quiet item ts total i st (removeFile rid w)
  = on_world (removeFile rid) (loop_body env quiet item ts total i st w).
Proof.
  destruct (segment_outcome env ts i) as [[message|r]|] eqn:E.
  - rewrite !(loop_body_rejected _ _ _ _ _ _ _ _ _ E). unfold quiet. cbn [on_world].
    now rewrite !removeFile_call.
  - rewrite !(loop_body_folded _ _ _ _ _ _ _ _ _ E). unfold quiet. cbn [on_world].
    now rewrite removeFile_updateQueueItem, removeFile_setResult, !removeFile_call.
  - rewrite !(loop_body_skipped _ _ _ _ _ _ _ _ E). unfold quiet. cbn [on_world].
    now rewrite removeFile_call.
Qed.

Lemma removing_body_elsewhere i st w :
  i <> k ->
  loop_body env (remove_during_capture rid k) item ts total i st w
  = loop_body env quiet item ts total i st w.
Proof.
  intro Hne. apply Nat.eqb_neq in Hne.
  unfold loop_body, remove_during_capture, quiet. now rewrite Hne.
Qed.

Lemma removing_body_at st w :
  loop_body env (remove_during_capture rid k) item ts total k st w
  = on_world (removeFile rid) (loop_body env quiet item ts total k st w).
Proof.
  destruct (segment_outcome env ts k) as [[message|r]|] eqn:E.
  - rewrite !(loop_body_rejected _ _ _ _ _ _ _ _ _ E).
    unfold remove_during_capture, quiet. rewrite Nat.eqb_refl. cbn [on_world].
    now rewrite !removeFile_call.
  - rewrite !(loop_body_folded _ _ _ _ _ _ _ _ _ E).
    unfold remove_during_capture, quiet. rewrite Nat.eqb_refl. cbn [on_world].
    now rewrite removeFile_updateQueueItem, removeFile_setResult, !removeFile_call.
  - rewrite !(loop_body_skipped _ _ _ _ _ _ _ _ E).
    unfold remove_during_capture, quiet. rewrite Nat.eqb_refl. reflexivity.
Qed.

Lemma removing_loop_after n : forall i st w,
  (k < i)%nat ->
  frames_loop env (remove_during_capture rid k) item ts total n i st (removeFile rid w)
  = on_world (removeFile rid) (frames_loop env quiet item ts total n i st w).
Proof.
  induction n as [|n IH]; intros i st w Hi; [reflexivity|].
  cbn [frames_loop].
  rewrite removing_body_elsewhere by lia. rewrite quiet_body_after_removal.
  destruct (loop_body env quiet item ts total i st w) as [st1 w1|message w1];
    cbn [on_world]; [apply IH; lia | reflexivity].
Qed.

Lemma removing_loop_reaching n : forall i st w,
  (i <= k < i + n)%nat ->
  (forall j, (i <= j < k)%nat -> ~ rejected env ts j) ->
  frames_loop env (remove_during_capture rid k) item ts total n i st w
  = on_world (removeFile rid) (frames_loop env quiet item ts total n i st w).
Proof.
  induction n as [|n IH]; intros i st w Hk Hbefore; [lia|].
  cbn [frames_loop]. destruct (Nat.eq_dec i k) as [->|Hne].
  - rewrite removing_body_at.
    destruct (loop_body env quiet item ts total k st w) as [st1 w1|message w1];
      cbn [on_world]; [apply removing_loop_after; lia | reflexivity].
  - rewrite removing_body_elsewhere by exact Hne.
    destruct (quiet_body_continues env item ts total i st w) as (st1 & w1 & Hbody & _).
    { apply Hbefore. lia. }
    rewrite Hbody. apply IH; [lia|]. intros j Hj. apply Hbefore. lia.
Qed.

Lemma finish_after_removal (c : Completion) :
  finish item total (on_world (removeFile rid) c) = removeFile rid (finish item total c).
Proof.
  destruct c as [st w|message w]; unfold finish; cbn [on_world].
  - destruct (lastResult st).
    + now rewrite removeFile_call, removeFile_addToast, removeFile_saveToHistory,
        removeFile_updateQueueItem, removeFile_setResult.
    + now rewrite removeFile_call.
  - now rewrite removeFile_call, removeFile_addToast, removeFile_updateQueueItem.
Qed.

End RemovalDuringRun.

Lemma removeFile_keeps (rid : string) (w : World) :
  calls (removeFile rid w) = calls w
  /\ shownResult (removeFile rid w) = shownResult w
  /\ history (removeFile rid w) = history w
  /\ toasts (removeFile rid w) = toasts w.
Proof.
  unfold removeFile, setQueue, setActiveFileId.
  destruct w as [wq [a|] wr wh wt wc]; cbn; [destruct (String.eqb a rid)|]; repeat split.
Qed.

Lemma finish_detaches (item : QueueItem) (total : nat) (c : Completion) :
  exists before, calls (finish item total c) = (before ++ [VideoDetach])%list.
Proof.
  unfold finish. cbn [call calls]. eexists. reflexivity.
Qed.

(** The loop never reads the world: which frames are folded and how the
    loop ends depend on the environment alone, not on what other handlers
    did to the queue in the meantime. *)
Lemma frames_loop_ignores_world (env : Env) (item : QueueItem) (ts : list Q)
    (total : nat) (intf intf' : Interference) n : forall i st w w',
  outcome_of (frames_loop env intf item ts total n i st w)
  = outcome_of (frames_loop env intf' item ts total n i st w').
Proof.
  induction n as [|n IH]; intros i st w w'; [reflexivity|].
  cbn [frames_loop]. destruct (segment_outcome env ts i) as [[message|r]|] eqn:E.
  - now rewrite !(loop_body_rejected _ _ _ _ _ _ _ _ _ E).
  - rewrite !(loop_body_folded _ _ _ _ _ _ _ _ _ E). apply IH.
  - rewrite !(loop_body_skipped _ _ _ _ _ _ _ _ E). apply IH.
Qed.

(** C7 (as amended): the function has no cancellation check.  If the
    item is removed from the queue while the function waits for the
    capture of segment [k], the run goes on exactly as an undisturbed run
    does: the same captures and classifications are made, the same
    results are folded and shown, the same history entry and toasts are
    produced, and the video is detached only when the run ends.  The two
    final worlds differ by the removal alone; the updates aimed at the
    removed item find no entry, so it does not reappear in the queue and no
    status is forced on it.  More generally, whatever other handlers do
    while the function is suspended, the frames it folds and the way its
    loop ends are those of the undisturbed run. *)
Theorem removal_does_not_stop_the_run (env : Env) (item : QueueItem)
    (url : string) (w : World) (k : nat) :
  previewUrl item = Some url -> url <> "" ->
  let ts := timestamps (video_duration env) (sampleInterval env) in
  (k < List.length ts)%nat ->
  (forall j, (j < k)%nat -> ~ rejected env ts j) ->
  let removed := handleProgressiveVideoAnalysis env
                   (remove_during_capture (id item) k) item w in
  let undisturbed := handleProgressiveVideoAnalysis env quiet item w in
  removed = removeFile (id item) undisturbed
  /\ calls removed = calls undisturbed
  /\ shownResult removed = shownResult undisturbed
  /\ history removed = history undisturbed
  /\ toasts removed = toasts undisturbed
  /\ entries (id item) removed = []
  /\ (exists before, calls removed = (before ++ [VideoDetach])%list)
  /\ (forall intf w2,
        outcome_of (run_frames env intf item url w2)
        = outcome_of (run_frames env quiet item url w)).
Proof.
  intros Hurl Hne ts Hk Hbefore removed undisturbed.
  assert (Heq : removed = removeFile (id item) undisturbed).
  { subst removed undisturbed.
    rewrite !(handle_with_preview _ _ _ _ _ Hurl Hne). fold ts.
    unfold run_frames, begin. fold ts.
    change (remove_during_capture (id item) k AwaitMetadata) with (quiet AwaitMetadata).
    rewrite (removing_loop_reaching env item ts (List.length ts) (id item) k).
    - apply finish_after_removal.
    - lia.
    - intros j Hj. apply Hbefore. lia. }
  destruct (removeFile_keeps (id item) undisturbed) as (Hc & Hs & Hh & Ht).
  split; [exact Heq|]. rewrite Heq. repeat split; try assumption.
  - apply removeFile_entries.
  - rewrite Hc. subst undisturbed. rewrite (handle_with_preview _ _ _ _ _ Hurl Hne).
    apply finish_detaches.
  - intros intf w2. unfold run_frames, begin. apply frames_loop_ignores_world.
Qed.

Lemma removal_does_not_stop_the_run_witness :
  let removed := handleProgressiveVideoAnalysis Scenario.five_frames
                   (remove_during_capture "v1" 1) Scenario.clip Scenario.world0 in
  let undisturbed := handleProgressiveVideoAnalysis Scenario.five_frames quiet
                       Scenario.clip Scenario.world0 in
  removed = removeFile "v1" undisturbed
  /\ calls removed = calls undisturbed
  /\ shownResult removed = shownResult undisturbed
  /\ history removed = history undisturbed
  /\ toasts removed = toasts undisturbed
  /\ entries "v1" removed = []
  /\ (exists before, calls removed = (before ++ [VideoDetach])%list)
  /\ (forall intf w2,
        outcome_of (run_frames Scenario.five_frames intf Scenario.clip "blob:clip" w2)
        = outcome_of (run_frames Scenario.five_frames quiet Scenario.clip "blob:clip"
                        Scenario.world0)).
Proof.
  apply (removal_does_not_stop_the_run Scenario.five_frames Scenario.clip
           "blob:clip" Scenario.world0 1).
  - reflexivity.
  - discriminate.
  - vm_compute. lia.
  - intros j Hj [message Hm]. destruct j; [discriminate Hm | lia].
Defined.

(** C7 as stated fails: five segments are scheduled, the item is removed
    after the first has been folded, and yet the run does not stop at one
    classification call; all five are made and the final result is shown. *)
Lemma cancellation_counterexample :
  let removed := handleProgressiveVideoAnalysis Scenario.five_frames
                   (remove_during_capture "v1" 1) Scenario.clip Scenario.world0 in
  ~ (List.length (filter is_Classify (calls removed)) = 1%nat
     /\ option_map probabilityAI (shownResult removed) = Some 10).
Proof.
  intros removed [Hcalls _]. vm_compute in Hcalls. discriminate Hcalls.
Qed.

(** ** Averages when nothing is skipped, and the range of what is shown *)

Lemma fold_frames_sums (frames : list AnalysisResult) : forall st,
  aggregatedProb (fold_frames frames st)
  == aggregatedProb st + Qsum (map probabilityAI frames)
  /\ aggregatedConf (fold_frames frames st)
     == aggregatedConf st + Qsum (map confidence frames).
Proof.
  induction frames as [|r frames IH]; intro st.
  - cbn. split; lra.
  - change (fold_frames (r :: frames) st) with (fold_frames frames (accumulate r st)).
    destruct (IH (accumulate r st)) as [Hp Hc]. rewrite Hp, Hc.
    cbn [accumulate aggregatedProb aggregatedConf map]. unfold Qsum. cbn [fold_right].
    split; lra.
Qed.

Lemma frames_loop_all_folded_locals (env : Env) (intf : Interference)
    (item : QueueItem) (ts : list Q) (total : nat) n : forall i st w,
  (forall j, (i <= j < i + n)%nat -> exists r, segment_outcome env ts j = Some (inr r)) ->
  exists frames w',
    frames_loop env intf item ts total n i st w = Normal (fold_frames frames st) w'
    /\ List.length frames = n.
Proof.
  induction n as [|n IH]; intros i st w Hall.
  - exists [], w. split; reflexivity.
  - destruct (Hall i ltac:(lia)) as [r Hr]. cbn [frames_loop].
    rewrite (loop_body_folded _ _ _ _ _ _ _ _ _ Hr).
    match goal with |- context [frames_loop _ _ _ _ _ _ _ ?s ?v] =>
      destruct (IH (S i) s v) as (frames & w' & Hrun & Hlen) end.
    { intros j Hj. apply Hall. lia. }
    exists (r :: frames), w'. split; [exact Hrun | simpl; lia].
Qed.

(** When every scheduled frame is folded the divisor of the final
    averages, the number of scheduled segments, is the number of folded
    frames, and the final result carries their rounded means. *)
Lemma averages_when_nothing_is_skipped (env : Env) (intf : Interference)
    (item : QueueItem) (url : string) (w : World) :
  previewUrl item = Some url -> url <> "" ->
  let ts := timestamps (video_duration env) (sampleInterval env) in
  (forall i, (i < List.length ts)%nat ->
     exists r, segment_outcome env ts i = Some (inr r)) ->
  exists frames fr,
    List.length frames = List.length ts
    /\ shownResult (handleProgressiveVideoAnalysis env intf item w) = Some fr
    /\ probabilityAI fr
       = inject_Z (JS.Math_round (Qsum (map probabilityAI frames)
                                  / inject_Z (Z.of_nat (List.length frames))))
    /\ confidence fr
       = inject_Z (JS.Math_round (Qsum (map confidence frames)
                                  / inject_Z (Z.of_nat (List.length frames)))).
Proof.
  intros Hurl Hne ts Hall.
  pose proof (timestamps_nonempty (video_duration env) (sampleInterval env)) as Hlen.
  fold ts in Hlen.
  rewrite (handle_with_preview _ _ _ _ _ Hurl Hne). fold ts.
  unfold run_frames, begin. fold ts.
  match goal with |- context [frames_loop _ _ _ _ _ _ _ ?s ?v] =>
    destruct (frames_loop_all_folded_locals env intf item ts (List.length ts)
                (List.length ts) 0 s v) as (frames & w1 & Hrun & Hn) end.
  { intros j Hj. apply Hall. lia. }
  rewrite Hrun.
  assert (Hlast : exists r, lastResult (fold_frames frames initial_locals) = Some r).
  { destruct frames as [|r frames] using rev_ind; [simpl in Hn; lia|].
    unfold fold_frames. rewrite fold_left_app. cbn. eauto. }
  destruct Hlast as [r Hlast].
  exists frames, (finalResult (fold_frames frames initial_locals) (List.length ts)).
  split; [exact Hn|]. split; [now apply (finish_shows_final _ _ _ _ r)|].
  destruct (fold_frames_sums frames initial_locals) as [Hp Hc].
  cbn [initial_locals aggregatedProb aggregatedConf] in Hp, Hc.
  unfold finalResult, JS.Math_round. cbn [probabilityAI confidence].
  rewrite Hn. split; f_equal; apply Qfloor_comp.
  - now rewrite Hp, Qplus_0_l.
  - now rewrite Hc, Qplus_0_l.
Qed.

Lemma Math_round_percent (x : Q) : percent x -> percent (inject_Z (JS.Math_round x)).
Proof.
  intros [Hlo Hhi]. unfold percent, JS.Math_round.
  change 0 with (inject_Z 0). change 100 with (inject_Z 100).
  rewrite <- !Zle_Qle. split.
  - change 0%Z with (Qfloor (0 + (1 # 2))). apply Qfloor_resp_le. lra.
  - change 100%Z with (Qfloor (100 + (1 # 2))). apply Qfloor_resp_le. lra.
Qed.

Lemma mean_percent (s : Q) (c : nat) :
  0 <= s -> s <= 100 * inject_Z (Z.of_nat c) -> (0 < c)%nat ->
  percent (s / inject_Z (Z.of_nat c)).
Proof.
  intros Hlo Hhi Hc.
  assert (Hpos : 0 < inject_Z (Z.of_nat c)).
  { change 0 with (inject_Z 0). rewrite <- Zlt_Qlt. lia. }
  split.
  - apply Qle_shift_div_l; [exact Hpos | lra].
  - apply Qle_shift_div_r; [exact Hpos | lra].
Qed.

Lemma sums_within_step (i : nat) (st : Locals) (r : AnalysisResult) :
  sums_within i st -> percent_result r -> sums_within (S i) (accumulate r st).
Proof.
  unfold sums_within, percent_result, percent.
  intros [[? ?] [? ?]] [[? ?] [? ?]].
  cbn [accumulate aggregatedProb aggregatedConf]. rewrite inject_succ.
  repeat split; lra.
Qed.

Lemma sums_within_skip (i : nat) (st : Locals) :
  sums_within i st -> sums_within (S i) st.
Proof.
  unfold sums_within. intros [[? ?] [? ?]]. rewrite inject_succ. repeat split; lra.
Qed.

Lemma progressiveResult_percent (st : Locals) (i total : nat) (r : AnalysisResult) :
  sums_within (S i) st -> percent_result (progressiveResult st i total r).
Proof.
  intros [[? ?] [? ?]]. unfold percent_result, progressiveResult.
  cbn [probabilityAI confidence].
  split; apply Math_round_percent, mean_percent; auto; lia.
Qed.

Lemma finalResult_percent (st : Locals) (total : nat) :
  (0 < total)%nat -> sums_within total st -> percent_result (finalResult st total).
Proof.
  intros Hpos [[? ?] [? ?]]. unfold percent_result, finalResult.
  cbn [probabilityAI confidence].
  split; apply Math_round_percent, mean_percent; auto.
Qed.

(** Whatever is skipped, rejected or folded, the values shown during the
    loop stay between 0 and 100 as long as the classifier's do. *)
Lemma quiet_loop_in_range (env : Env) (item : QueueItem) (ts : list Q) (total : nat) n :
  classifier_in_range env ->
  forall i st w,
  sums_within i st -> shown_in_range w ->
  shown_in_range (world_of (frames_loop env quiet item ts total n i st w))
  /\ match frames_loop env quiet item ts total n i st w with
     | Normal st' _ => sums_within (i + n) st'
     | Thrown _ _ => True
     end.
Proof.
  intro Hvalid. induction n as [|n IH]; intros i st w Hsum Hshown.
  - cbn. rewrite Nat.add_0_r. auto.
  - cbn [frames_loop]. replace (i + S n)%nat with (S i + n)%nat by lia.
    destruct (segment_outcome env ts i) as [[message|r]|] eqn:E.
    + rewrite (loop_body_rejected _ _ _ _ _ _ _ _ _ E). cbn. auto.
    + rewrite (loop_body_folded _ _ _ _ _ _ _ _ _ E).
      assert (Hr : percent_result r).
      { unfold segment_outcome in E.
        destruct (captureFrame env (nth i ts 0)); [discriminate|].
        injection E as E. exact (Hvalid _ _ _ E). }
      apply IH; [now apply sums_within_step|].
      unfold shown_in_range. cbn.
      apply progressiveResult_percent. now apply sums_within_step.
    + rewrite (loop_body_skipped _ _ _ _ _ _ _ _ E).
      apply IH; [now apply sums_within_skip | exact Hshown].
Qed.

(** The same holds for the world the function leaves behind. *)
Lemma shown_values_in_range (env : Env) (item : QueueItem) (w : World) :
  classifier_in_range env -> shown_in_range w ->
  shown_in_range (handleProgressiveVideoAnalysis env quiet item w).
Proof.
  intros Hvalid Hshown. unfold handleProgressiveVideoAnalysis.
  destruct (previewUrl item) as [url|]; [|exact Hshown].
  destruct url as [|a url]; [exact Hshown|].
  set (ts := timestamps (video_duration env) (sampleInterval env)).
  pose proof (timestamps_nonempty (video_duration env) (sampleInterval env)) as Hlen.
  fold ts in Hlen. unfold run_frames, begin. fold ts.
  match goal with |- context [frames_loop _ _ _ _ _ _ _ ?s ?v] =>
    destruct (quiet_loop_in_range env item ts (List.length ts) (List.length ts)
                Hvalid 0 s v) as [Hw Hst];
    [ | | destruct (frames_loop env quiet item ts (List.length ts)
                      (List.length ts) 0 s v) as [st1 w1|message w1] ] end.
  - unfold sums_within. cbn [initial_locals aggregatedProb aggregatedConf].
    change (inject_Z (Z.of_nat 0)) with 0. repeat split; lra.
  - exact Hshown.
  - unfold finish. destruct (lastResult st1); [|exact Hw].
    unfold shown_in_range. cbn. now apply finalResult_percent.
  - exact Hw.
Qed.

(** * Further properties *)

(** ** The history *)

Lemma firstn_cons_firstn {A : Type} (n : nat) (x : A) (l : list A) :
  firstn (S n) (x :: firstn (S n) l) = firstn (S n) (x :: l).
Proof.
  cbn [firstn]. f_equal. revert l. induction n as [|n IH]; intro l; [reflexivity|].
  destruct l as [|y l]; [reflexivity|]. cbn [firstn]. f_equal. apply IH.
Qed.

Lemma save_entry (s : Save) (w : World) :
  exists e, stored_as s e /\ history (save s w) = firstn 50 (e :: history w).
Proof.
  unfold save, saveToHistory, setHistory, JS.slice0. cbn [history].
  eexists. split; [|reflexivity].
  unfold stored_as. cbn [h_result h_mediaType h_preview h_mimeType h_fileName h_content].
  do 5 (split; [reflexivity|]). intro c.
  destruct (s_content s) as [c0|]; [|split; [discriminate | intros [H _]; discriminate]].
  destruct (N.ltb_spec 5242880 (N.of_nat (String.length c0))) as [Hbig|Hsmall];
    change (5 * 1024 * 1024)%N with 5242880%N.
  - apply N.ltb_lt in Hbig. rewrite Hbig.
    split; [discriminate|]. intros [[= ->] Hle]. apply N.ltb_lt in Hbig. lia.
  - apply N.ltb_ge in Hsmall. rewrite Hsmall.
    split; [intros [= ->]; split; [reflexivity | now apply N.ltb_ge] |].
    now intros [H _].
Qed.

(** X1: after any non-empty sequence of [saveToHistory] calls the history
    holds the newest entries first, the saved ones in reverse order of
    saving followed by the older history, cut after 50 entries; every
    saved entry keeps its result, type, preview, MIME type and file name,
    and its content exactly when that is at most 5 * 1024 * 1024
    characters long.  Nothing else of the world changes. *)
Theorem history_keeps_newest_fifty (saves : list Save) (w : World) :
  saves <> [] ->
  let w' := fold_left (fun v s => save s v) saves w in
  (exists entries,
     Forall2 stored_as saves entries
     /\ history w' = firstn 50 (rev entries ++ history w))
  /\ (List.length (history w') <= 50)%nat
  /\ queue w' = queue w /\ activeFileId w' = activeFileId w
  /\ shownResult w' = shownResult w /\ toasts w' = toasts w /\ calls w' = calls w.
Proof.
  intros Hne w'. subst w'.
  assert (Hmain : exists entries,
     Forall2 stored_as saves entries
     /\ history (fold_left (fun v s => save s v) saves w)
        = firstn 50 (rev entries ++ history w)).
  { induction saves as [|s saves IH] using rev_ind; [contradiction|].
    rewrite fold_left_app. cbn [fold_left].
    destruct (save_entry s (fold_left (fun v s0 => save s0 v) saves w)) as (e & He & Hh).
    destruct saves as [|s0 saves].
    - exists [e]. split; [cbn [app]; constructor; [exact He | constructor] | exact Hh].
    - destruct IH as (entries & Hall & Hhist); [discriminate|].
      exists (entries ++ [e])%list.
      split; [apply Forall2_app; [exact Hall | constructor; [exact He | constructor]]|].
      rewrite Hh, Hhist, rev_app_distr. apply (firstn_cons_firstn 49). }
  assert (Hrest : forall l v,
     let v' := fold_left (fun v s => save s v) l v in
     queue v' = queue v /\ activeFileId v' = activeFileId v
     /\ shownResult v' = shownResult v /\ toasts v' = toasts v /\ calls v' = calls v).
  { induction l as [|s l IH]; intro v; [repeat split|].
    cbn [fold_left]. destruct (IH (save s v)) as (H1 & H2 & H3 & H4 & H5).
    cbv zeta. rewrite H1, H2, H3, H4, H5. repeat split. }
  destruct Hmain as (entries & Hall & Hhist).
  split; [now exists entries|]. split; [|apply Hrest].
  rewrite Hhist, length_firstn. lia.
Qed.

Lemma history_keeps_newest_fifty_witness :
  let r := Scenario.frame 80 90 "smooth skin" [] in
  let saves := repeat (mkSave r IMAGE "a.png" (Some "aGk=") (Some "image/png") (Some "a.png")) 60 in
  List.length (history (fold_left (fun v s => save s v) saves Scenario.world0)) = 50%nat.
Proof.
  intros r saves.
  destruct (history_keeps_newest_fifty saves Scenario.world0)
    as ((entries & Hall & Hhist) & _); [discriminate|].
  rewrite Hhist, length_firstn, length_app, length_rev.
  apply Forall2_length in Hall. rewrite <- Hall. reflexivity.
Defined.

(** ** The queue helpers *)

Lemma map_unless_absent (uid : string) (f : QueueItem -> QueueItem) (l : list QueueItem) :
  ~ In uid (map id l) ->
  map (fun q => if String.eqb (id q) uid then f q else q) l = l.
Proof.
  induction l as [|q l IH]; [reflexivity|]. cbn [map In]. intro Hout.
  destruct (String.eqb_spec (id q) uid) as [Heq|_]; [exfalso; auto|].
  f_equal. apply IH. auto.
Qed.

(** X2: an update addressed to an id that is not in the queue changes
    nothing at all. *)
Theorem updateQueueItem_absent_id (uid : string) (u : Updates) (w : World) :
  ~ In uid (map id (queue w)) -> updateQueueItem uid u w = w.
Proof.
  intro Hout. unfold updateQueueItem, setQueue.
  rewrite (map_unless_absent _ _ _ Hout). now destruct w.
Qed.

Lemma updateQueueItem_absent_id_witness :
  updateQueueItem "gone" (mkUpdates (Some Done) None None (Some 3%nat) None) Scenario.world0
  = Scenario.world0.
Proof.
  apply updateQueueItem_absent_id. cbn. intros [H|[H|[H|[]]]]; discriminate H.
Defined.

(** X3: updates addressed to two different ids commute; each item sees
    only its own. *)
Theorem updateQueueItem_commutes (uid1 uid2 : string) (u1 u2 : Updates) (w : World) :
  uid1 <> uid2 ->
  updateQueueItem uid1 u1 (updateQueueItem uid2 u2 w)
  = updateQueueItem uid2 u2 (updateQueueItem uid1 u1 w).
Proof.
  intro Hne. unfold updateQueueItem, setQueue. cbn [queue activeFileId shownResult
    history toasts calls]. f_equal. rewrite !map_map. apply map_ext. intro q.
  destruct (String.eqb_spec (id q) uid1) as [H1|H1];
    destruct (String.eqb_spec (id q) uid2) as [H2|H2]; try congruence;
    rewrite ?merge_id;
    repeat match goal with
    | |- context [String.eqb (id q) ?x] =>
        destruct (String.eqb_spec (id q) x); try congruence
    end.
Qed.

Lemma updateQueueItem_commutes_witness :
  updateQueueItem "v1" (mkUpdates (Some Done) None None None None)
    (updateQueueItem "v2" (mkUpdates (Some Error) None (Some "x") None None) Scenario.world0)
  = updateQueueItem "v2" (mkUpdates (Some Error) None (Some "x") None None)
      (updateQueueItem "v1" (mkUpdates (Some Done) None None None None) Scenario.world0).
Proof.
  apply updateQueueItem_commutes. discriminate.
Defined.

Lemma filter_keeps_ids (rid a : string) (l : list QueueItem) :
  a <> rid -> In a (map id l) ->
  In a (map id (filter (fun q => negb (String.eqb (id q) rid)) l)).
Proof.
  intros Hne Hin. apply in_map_iff in Hin. destruct Hin as (q & Hq & Hin).
  apply in_map_iff. exists q. split; [exact Hq|]. apply filter_In. split; [exact Hin|].
  subst a. now destruct (String.eqb_spec (id q) rid).
Qed.

(** X4: [removeFile] removes every entry with the given id and leaves the
    other entries as they were, in order; afterwards the removed id is
    never the active one, and if the active id named a queue item before,
    it still does (the first remaining item takes over when the active
    one is removed, none when the queue becomes empty). *)
Theorem removeFile_keeps_active_valid (rid : string) (w : World) :
  let w' := removeFile rid w in
  entries rid w' = []
  /\ queue w' = others rid w
  /\ activeFileId w' <> Some rid
  /\ (active_valid w -> active_valid w')
  /\ (activeFileId w <> Some rid -> activeFileId w' = activeFileId w)
  /\ (activeFileId w = Some rid ->
      activeFileId w' = match others rid w with q :: _ => Some (id q) | [] => None end).
Proof.
  intro w'. subst w'. split; [apply removeFile_entries|].
  unfold removeFile, active_valid, others, setQueue, setActiveFileId.
  destruct w as [wq [a|] wr wh wt wc]; cbn.
  - destruct (String.eqb_spec a rid) as [->|Hne]; cbn.
    + repeat split; try congruence.
      * destruct (filter _ wq) as [|q l] eqn:E; [discriminate|].
        intros [= Hq].
        assert (Hin : In q (filter (fun item => negb (String.eqb (id item) rid)) wq))
          by (rewrite E; now left).
        apply filter_In in Hin. destruct Hin as [_ Hin]. rewrite Hq in Hin.
        now rewrite String.eqb_refl in Hin.
      * intros _. destruct (filter _ wq) as [|q l]; [exact I | now left].
    + repeat split; try congruence. intro Hin. now apply filter_keeps_ids.
  - repeat split; congruence.
Qed.

(** ** More on the progressive run *)

Lemma updateQueueItem_keeps_others (uid : string) (u : Updates) (w : World) :
  others uid (updateQueueItem uid u w) = others uid w.
Proof.
  unfold others, updateQueueItem, setQueue. cbn [queue].
  induction (queue w) as [|q l IH]; [reflexivity|]. cbn [map filter].
  destruct (String.eqb_spec (id q) uid) as [Heq|Hne].
  - rewrite merge_id. apply String.eqb_eq in Heq. rewrite Heq. cbn [negb]. exact IH.
  - apply String.eqb_neq in Hne. rewrite Hne. cbn [negb]. now rewrite IH.
Qed.

(** What an undisturbed loop leaves behind, whichever way it ends: the
    calls of the segments it reached, in schedule order, and a queue in
    which only the item's own entries may have changed. *)
Lemma quiet_loop_trace (env : Env) (item : QueueItem) (ts : list Q) (total : nat) n :
  forall i st w,
  exists m,
    (m <= n)%nat
    /\ calls (world_of (frames_loop env quiet item ts total n i st w))
       = (calls w ++ flat_map (segment_calls env ts) (seq i m))%list
    /\ loop_frame w (world_of (frames_loop env quiet item ts total n i st w))
    /\ others (id item) (world_of (frames_loop env quiet item ts total n i st w))
       = others (id item) w
    /\ (forall j, (i <= j < i + m - 1)%nat -> ~ rejected env ts j)
    /\ match frames_loop env quiet item ts total n i st w with
       | Normal _ _ => m = n /\ (forall j, (i <= j < i + n)%nat -> ~ rejected env ts j)
       | Thrown message _ =>
           (1 <= m)%nat /\ segment_outcome env ts (i + m - 1) = Some (inl message)
       end.
Proof.
  induction n as [|n IH]; intros i st w.
  - exists 0%nat. cbn. rewrite app_nil_r.
    repeat split; try lia; intros j Hj; lia.
  - cbn [frames_loop]. destruct (segment_outcome env ts i) as [[message|r]|] eqn:E.
    + rewrite (loop_body_rejected _ _ _ _ _ _ _ _ _ E). exists 1%nat.
      cbn [world_of seq flat_map]. rewrite app_nil_r.
      unfold segment_outcome in E. unfold segment_calls.
      destruct (captureFrame env (nth i ts 0)) eqn:Ec; [discriminate|].
      split; [lia|]. split; [unfold quiet; cbn; now rewrite <- app_assoc|].
      split; [repeat split|]. split; [reflexivity|].
      split; [intros j Hj; lia|]. split; [lia|].
      replace (i + 1 - 1)%nat with i by lia.
      unfold segment_outcome. now rewrite Ec.
    + assert (Hok : ~ rejected env ts i) by (intros [m Hm]; congruence).
      destruct (quiet_body_continues env item ts total i st w Hok)
        as (st1 & w1 & Hbody & Hcalls & Hframe).
      assert (Hoth : others (id item) w1 = others (id item) w).
      { rewrite (loop_body_folded _ _ _ _ _ _ _ _ _ E) in Hbody.
        injection Hbody as _ <-. now rewrite updateQueueItem_keeps_others. }
      rewrite Hbody. destruct (IH (S i) st1 w1) as (m & Hm & Hc & Hf & Ho & Hbefore & Hend).
      exists (S m). split; [lia|].
      split; [rewrite Hc, Hcalls, <- app_assoc; reflexivity|].
      split; [eapply loop_frame_trans; eassumption|].
      split; [now rewrite Ho|].
      split.
      { intros j Hj. destruct (Nat.eq_dec j i) as [->|Hne]; [exact Hok|].
        apply Hbefore. lia. }
      destruct (frames_loop env quiet item ts total n (S i) st1 w1).
      * destruct Hend as [-> Hall]. split; [reflexivity|]. intros j Hj.
        destruct (Nat.eq_dec j i) as [->|Hne]; [exact Hok | apply Hall; lia].
      * destruct Hend as [Hpos Hrej]. split; [lia|].
        replace (i + S m - 1)%nat with (S i + m - 1)%nat by lia. exact Hrej.
    + assert (Hok : ~ rejected env ts i) by (intros [m Hm]; congruence).
      destruct (quiet_body_continues env item ts total i st w Hok)
        as (st1 & w1 & Hbody & Hcalls & Hframe).
      assert (Hoth : others (id item) w1 = others (id item) w).
      { rewrite (loop_body_skipped _ _ _ _ _ _ _ _ E) in Hbody.
        now injection Hbody as _ <-. }
      rewrite Hbody. destruct (IH (S i) st1 w1) as (m & Hm & Hc & Hf & Ho & Hbefore & Hend).
      exists (S m). split; [lia|].
      split; [rewrite Hc, Hcalls, <- app_assoc; reflexivity|].
      split; [eapply loop_frame_trans; eassumption|].
      split; [now rewrite Ho|].
      split.
      { intros j Hj. destruct (Nat.eq_dec j i) as [->|Hne]; [exact Hok|].
        apply Hbefore. lia. }
      destruct (frames_loop env quiet item ts total n (S i) st1 w1).
      * destruct Hend as [-> Hall]. split; [reflexivity|]. intros j Hj.
        destruct (Nat.eq_dec j i) as [->|Hne]; [exact Hok | apply Hall; lia].
      * destruct Hend as [Hpos Hrej]. split; [lia|].
        replace (i + S m - 1)%nat with (S i + m - 1)%nat by lia. exact Hrej.
Qed.

Lemma finish_frame (item : QueueItem) (total : nat) (c : Completion) :
  let w' := finish item total c in
  others (id item) w' = others (id item) (world_of c)
  /\ map id (queue w') = map id (queue (world_of c))
  /\ activeFileId w' = activeFileId (world_of c)
  /\ calls w' = (calls (world_of c) ++ [VideoDetach])%list.
Proof.
  destruct c as [st w|message w]; unfold finish; cbn [world_of].
  - destruct (lastResult st); cbn; repeat split.
    + apply (updateQueueItem_keeps_others (id item)).
    + apply (updateQueueItem_ids (id item)).
  - cbn. repeat split.
    + apply (updateQueueItem_keeps_others (id item)).
    + apply (updateQueueItem_ids (id item)).
Qed.

(** X5: whatever the environment answers, an undisturbed run never
    adds, removes or reorders queue items, never changes which item is
    active, and leaves every entry that does not carry the item's id
    exactly as it was. *)
Theorem run_touches_only_its_item (env : Env) (item : QueueItem) (w : World) :
  let w' := handleProgressiveVideoAnalysis env quiet item w in
  others (id item) w' = others (id item) w
  /\ map id (queue w') = map id (queue w)
  /\ activeFileId w' = activeFileId w.
Proof.
  intro w'. subst w'. unfold handleProgressiveVideoAnalysis.
  destruct (previewUrl item) as [url|]; [|repeat split].
  destruct url as [|a url]; [repeat split|].
  set (ts := timestamps (video_duration env) (sampleInterval env)).
  unfold run_frames, begin. fold ts.
  match goal with |- context [frames_loop _ _ _ _ _ _ _ ?s ?v] =>
    destruct (quiet_loop_trace env item ts (List.length ts) (List.length ts) 0 s v)
      as (m & _ & _ & (_ & _ & Ha & Hi & _) & Ho & _);
    destruct (finish_frame item (List.length ts)
                (frames_loop env quiet item ts (List.length ts) (List.length ts) 0 s v))
      as (Fo & Fi & Fa & _) end.
  split; [|split].
  - rewrite Fo, Ho, updateQueueItem_keeps_others. reflexivity.
  - rewrite Fi, Hi, updateQueueItem_ids. reflexivity.
  - rewrite Fa, Ha. reflexivity.
Qed.

(** X6: an undisturbed run on an item with a preview loads the video
    once, then takes the segments in schedule order, each captured once
    and, unless its capture is empty, classified right after, and detaches
    the video as its last call.  It reaches every scheduled segment unless
    the classifier rejects one, which is then the last one reached. *)
Theorem run_calls_follow_schedule (env : Env) (item : QueueItem) (url : string)
    (w : World) :
  previewUrl item = Some url -> url <> "" ->
  let ts := timestamps (video_duration env) (sampleInterval env) in
  exists m,
    (1 <= m <= List.length ts)%nat
    /\ calls (handleProgressiveVideoAnalysis env quiet item w)
       = (calls w ++ VideoLoad url
            :: flat_map (segment_calls env ts) (seq 0 m) ++ [VideoDetach])%list
    /\ (forall j, (j < m - 1)%nat -> ~ rejected env ts j)
    /\ ((m < List.length ts)%nat -> rejected env ts (m - 1)).
Proof.
  intros Hurl Hne ts.
  pose proof (timestamps_nonempty (video_duration env) (sampleInterval env)) as Hlen.
  fold ts in Hlen.
  rewrite (handle_with_preview _ _ _ _ _ Hurl Hne). fold ts.
  unfold run_frames, begin. fold ts.
  match goal with |- context [frames_loop _ _ _ _ _ _ _ ?s ?v] =>
    destruct (quiet_loop_trace env item ts (List.length ts) (List.length ts) 0 s v)
      as (m & Hm & Hc & _ & _ & Hbefore & Hend);
    destruct (finish_frame item (List.length ts)
                (frames_loop env quiet item ts (List.length ts) (List.length ts) 0 s v))
      as (_ & _ & _ & Fc);
    destruct (frames_loop env quiet item ts (List.length ts) (List.length ts) 0 s v)
      as [st1 w1|message w1] end.
  - destruct Hend as [-> _]. exists (List.length ts). split; [lia|].
    split; [|split; [intros j Hj; apply Hbefore; lia | lia]].
    rewrite Fc. cbn [world_of] in *. rewrite Hc. unfold quiet. cbn.
    now rewrite <- !app_assoc.
  - destruct Hend as [Hpos Hrej]. exists m. split; [lia|].
    split; [|split; [intros j Hj; apply Hbefore; lia|]].
    + rewrite Fc. cbn [world_of] in *. rewrite Hc. unfold quiet. cbn.
      now rewrite <- !app_assoc.
    + intros _. exists message. exact Hrej.
Qed.

Lemma run_calls_follow_schedule_witness :
  exists m,
    (1 <= m <= 3)%nat
    /\ calls (handleProgressiveVideoAnalysis Scenario.capture_empty_at_5 quiet
                Scenario.clip Scenario.world0)
       = (VideoLoad "blob:clip"
            :: flat_map (segment_calls Scenario.capture_empty_at_5 [0; 5; 10]) (seq 0 m)
            ++ [VideoDetach])%list
    /\ (forall j, (j < m - 1)%nat -> ~ rejected Scenario.capture_empty_at_5 [0; 5; 10] j)
    /\ ((m < 3)%nat -> rejected Scenario.capture_empty_at_5 [0; 5; 10] (m - 1)).
Proof.
  apply (run_calls_follow_schedule Scenario.capture_empty_at_5 Scenario.clip
           "blob:clip" Scenario.world0).
  - reflexivity.
  - discriminate.
Defined.

(** X7: if the classifier only returns probabilities and confidences
    between 0 and 100 and the result shown before the run is in that
    range, then so is the result shown after any number of iterations of
    the loop, whether frames are folded, skipped or rejected, and so is the
    result shown when the function returns. *)
Theorem shown_results_stay_percentages (env : Env) (item : QueueItem) (w : World) :
  classifier_in_range env -> shown_in_range w ->
  shown_in_range (handleProgressiveVideoAnalysis env quiet item w)
  /\ forall url n,
       let ts := timestamps (video_duration env) (sampleInterval env) in
       shown_in_range
         (world_of (frames_loop env quiet item ts (List.length ts) n 0 initial_locals
                      (snd (begin env quiet item url w)))).
Proof.
  intros Hvalid Hshown. split; [now apply shown_values_in_range|].
  intros url n ts.
  apply (quiet_loop_in_range env item ts (List.length ts) n Hvalid 0).
  - unfold sums_within. cbn [initial_locals aggregatedProb aggregatedConf].
    change (inject_Z (Z.of_nat 0)) with 0. repeat split; lra.
  - exact Hshown.
Qed.

Lemma shown_results_stay_percentages_witness :
  shown_in_range (handleProgressiveVideoAnalysis Scenario.classifier_fails_at_5 quiet
                    Scenario.clip Scenario.world0).
Proof.
  apply (shown_results_stay_percentages Scenario.classifier_fails_at_5 Scenario.clip
           Scenario.world0).
  - intros i payload r. unfold Scenario.classifier_fails_at_5. cbn [detectAIContent].
    destruct i as [|[|i]]; intros [= <-]; unfold percent_result, percent; cbn;
      repeat split; lra.
  - exact I.
Defined.

Lemma folded_results_all (env : Env) (ts : list Q) n : forall i,
  (forall j, (i <= j < i + n)%nat -> exists r, segment_outcome env ts j = Some (inr r)) ->
  map (segment_outcome env ts) (seq i n)
  = map (fun r => Some (inr r)) (folded_results env ts n i).
Proof.
  induction n as [|n IH]; intros i Hall; [reflexivity|].
  cbn [seq map folded_results]. destruct (Hall i ltac:(lia)) as [r Hr]. rewrite Hr.
  cbn [map]. f_equal. apply IH. intros j Hj. apply Hall. lia.
Qed.

Lemma quiet_loop_no_rejection (env : Env) (item : QueueItem) (ts : list Q)
    (total n i : nat) (st : Locals) (w : World) :
  (forall j, (i <= j < i + n)%nat -> ~ rejected env ts j) ->
  exists w',
    frames_loop env quiet item ts total n i st w
    = Normal (fold_frames (folded_results env ts n i) st) w'
    /\ loop_frame w w'.
Proof.
  intro Hok.
  destruct (quiet_loop_trace env item ts total n i st w)
    as (m & Hm & _ & Hf & _ & _ & Hend).
  destruct (frames_loop env quiet item ts total n i st w) as [st1 w1|message w1] eqn:E.
  - exists w1. split; [|exact Hf]. f_equal. now apply frames_loop_locals in E.
  - exfalso. destruct Hend as [Hpos Hrej].
    apply (Hok (i + m - 1)%nat); [lia|]. now exists message.
Qed.



(** X9: when every scheduled frame is captured and classified, an
    undisturbed run on an item with a preview ends with every entry of the
    item in status [Done], holding the final result and a count of
    processed segments equal to the number of scheduled segments; the
    final result is put first in the history as a video entry without
    content (the history is cut after 50 entries), and the toast
    "Progressive analysis complete" is the only one added. *)
Theorem successful_run_publishes_final (env : Env) (item : QueueItem)
    (url : string) (w : World) :
  previewUrl item = Some url -> url <> "" ->
  let ts := timestamps (video_duration env) (sampleInterval env) in
  (forall i, (i < List.length ts)%nat ->
     exists r, segment_outcome env ts i = Some (inr r)) ->
  let w' := handleProgressiveVideoAnalysis env quiet item w in
  exists fr,
    shownResult w' = Some fr
    /\ (forall q, In q (entries (id item) w') ->
          status q = Done /\ result q = Some fr
          /\ segmentsProcessed q = Some (List.length ts)
          /\ totalSegments q = Some (List.length ts))
    /\ history w'
       = firstn 50 (mkHistoryItem VIDEO (fileName item) fr None
                      (Some (mimeType item)) (Some (fileName item)) :: history w)
    /\ toasts w' = (toasts w ++ [("Progressive analysis complete", success)])%list.
Proof.
  intros Hurl Hne ts Hall w'. subst w'.
  pose proof (timestamps_nonempty (video_duration env) (sampleInterval env)) as Hlen.
  fold ts in Hlen.
  assert (Hmap := folded_results_all env ts (List.length ts) 0
                    ltac:(intros j Hj; apply Hall; lia)).
  set (frames := folded_results env ts (List.length ts) 0) in *.
  assert (Hn : List.length frames = List.length ts).
  { apply (f_equal (@List.length _)) in Hmap.
    now rewrite !length_map, length_seq in Hmap. }
  rewrite (handle_with_preview _ _ _ _ _ Hurl Hne). fold ts.
  unfold run_frames, begin. fold ts.
  match goal with |- context [frames_loop _ _ _ _ _ _ _ ?s ?v] =>
    destruct (quiet_loop_no_rejection env item ts (List.length ts) (List.length ts) 0 s v)
      as (w1 & Hrun & (Hh & Ht & _ & _ & Hs)) end.
  { intros j Hj [message Hm]. destruct (Hall j ltac:(lia)) as [r Hr]. congruence. }
  rewrite Hrun. fold frames.
  assert (Hlast : exists r, lastResult (fold_frames frames initial_locals) = Some r).
  { destruct frames as [|r l] using rev_ind; [simpl in Hn; lia|].
    unfold fold_frames. rewrite fold_left_app. cbn. eauto. }
  destruct Hlast as [r Hlast].
  exists (finalResult (fold_frames frames initial_locals) (List.length ts)).
  unfold finish. rewrite Hlast.
  split; [reflexivity|]. split; [|split].
  - intros q Hin.
    apply updateQueueItem_entries in Hin. destruct Hin as (q0 & Hin0 & ->).
    do 3 (split; [reflexivity|]).
    assert (Hin0' : In q0 (entries (id item) w1)) by exact Hin0.
    destruct (settled_entry _ _ _ _ Hs Hin0') as (q1 & Hin1 & Hq1).
    apply updateQueueItem_entries in Hin1. destruct Hin1 as (q2 & _ & ->).
    unfold settled in Hq1. injection Hq1 as _ _ _ Htotal.
    cbn [merge totalSegments u_totalSegments or_else] in *. now rewrite <- Htotal.
  - cbn. rewrite Hh. reflexivity.
  - cbn. rewrite Ht. reflexivity.
Qed.

Lemma successful_run_publishes_final_witness :
  let w' := handleProgressiveVideoAnalysis Scenario.five_frames quiet
              Scenario.clip Scenario.world0 in
  exists fr,
    shownResult w' = Some fr
    /\ (forall q, In q (entries "v1" w') ->
          status q = Done /\ result q = Some fr
          /\ segmentsProcessed q = Some 5%nat /\ totalSegments q = Some 5%nat)
    /\ history w'
       = firstn 50 (mkHistoryItem VIDEO "clip.mp4" fr None
                      (Some "video/mp4") (Some "clip.mp4") :: [])
    /\ toasts w' = [("Progressive analysis complete", success)].
Proof.
  apply (successful_run_publishes_final Scenario.five_frames Scenario.clip
           "blob:clip" Scenario.world0).
  - reflexivity.
  - discriminate.
  - intros i Hi.
    do 5 (destruct i as [|i]; [eexists; reflexivity|]).
    exfalso. vm_compute in Hi. lia.
Defined.

(** ** The number of segments *)




(** ** The classification service *)

Module ServiceFacts.
Import geminiService.

Lemma strip_prefix_app (p s : string) : strip_prefix p (p ++ s) = Some s.
Proof.
  induction p as [|a p IH]; [reflexivity|]. cbn. now rewrite Ascii.eqb_refl.
Qed.

Lemma skip_spaces_app (ws s : string) :
  all_space ws = true -> skip_spaces (ws ++ s) = skip_spaces s.
Proof.
  induction ws as [|c ws IH]; [reflexivity|]. cbn. intro H.
  apply andb_prop in H. destruct H as [Hc Hws]. rewrite Hc. now apply IH.
Qed.

Lemma skip_spaces_stops (s : string) :
  starts_with_space s = false -> skip_spaces s = s.
Proof.
  destruct s as [|c s]; [reflexivity|]. cbn. now intros ->.
Qed.

Lemma closes_fence_spaces (ws : string) :
  all_space ws = true -> closes_fence (ws ++ fence) = true.
Proof.
  induction ws as [|c ws IH]; [reflexivity|]. cbn [all_space append closes_fence].
  intro H. apply andb_prop in H. destruct H as [Hc Hws]. rewrite Hc. now apply IH.
Qed.

Lemma closes_fence_shape (s : string) :
  closes_fence s = true -> exists ws, s = ws ++ fence.
Proof.
  induction s as [|c s IH]; [discriminate|]. cbn [closes_fence].
  destruct (is_space c).
  - intro H. destruct (IH H) as [ws ->]. now exists (String c ws).
  - intro H. apply String.eqb_eq in H. now exists "".
Qed.

Lemma length_append (a b : string) :
  String.length (a ++ b) = (String.length a + String.length b)%nat.
Proof.
  induction a as [|c a IH]; [reflexivity|]. cbn. now rewrite IH.
Qed.

Lemma closes_fence_after_text (b ws : string) :
  b <> "" -> ends_with_space b = false -> closes_fence (b ++ ws ++ fence) = false.
Proof.
  induction b as [|c b IH]; [congruence|]. intros _ Hend.
  cbn [append closes_fence]. destruct (is_space c) eqn:Ec.
  - destruct b as [|c' b]; [cbn in Hend; congruence|].
    apply IH; [discriminate | exact Hend].
  - apply String.eqb_neq. intro H.
    apply (f_equal String.length) in H. cbn in H.
    rewrite !length_append in H. cbn in H. lia.
Qed.

Lemma drop_closing_fence_text (b ws : string) :
  all_space ws = true -> ends_with_space b = false ->
  drop_closing_fence (b ++ ws ++ fence) = b.
Proof.
  intros Hws. induction b as [|c b IH]; intro Hend.
  - cbn [append]. assert (H := closes_fence_spaces ws Hws).
    destruct (ws ++ fence) as [|c s] eqn:E; [reflexivity|].
    cbn [drop_closing_fence]. now rewrite H.
  - assert (Hno := closes_fence_after_text (String c b) ws ltac:(discriminate) Hend).
    cbn [append drop_closing_fence] in *. rewrite Hno. f_equal. apply IH.
    destruct b as [|c' b]; [reflexivity | exact Hend].
Qed.

Lemma drop_closing_fence_none (s : string) :
  (forall pre, s <> pre ++ fence) -> drop_closing_fence s = s.
Proof.
  induction s as [|c s IH]; intro Hno; [reflexivity|].
  cbn [drop_closing_fence]. destruct (closes_fence (String c s)) eqn:E.
  - exfalso. apply closes_fence_shape in E. destruct E as [ws Hws]. exact (Hno ws Hws).
  - f_equal. apply IH. intros pre Hpre. apply (Hno (String c pre)). cbn. now rewrite Hpre.
Qed.

End ServiceFacts.

(** X11: [cleanJsonString] returns a text unchanged when it neither
    starts with the opening fence nor ends with three backticks. *)
Theorem cleanJsonString_leaves_bare_text (str : string) :
  geminiService.strip_prefix "```json" str = None ->
  (forall pre, str <> pre ++ "```") ->
  geminiService.cleanJsonString str = str.
Proof.
  intros Hopen Hclose. unfold geminiService.cleanJsonString,
    geminiService.drop_opening_fence. rewrite Hopen.
  now apply ServiceFacts.drop_closing_fence_none.
Qed.

Lemma cleanJsonString_leaves_bare_text_witness :
  geminiService.cleanJsonString "[80, 60]" = "[80, 60]".
Proof.
  apply cleanJsonString_leaves_bare_text.
  - reflexivity.
  - intros pre H.
    repeat (destruct pre as [|? pre]; cbn in H; [discriminate H | injection H as _ H]).
    destruct pre; discriminate H.
Defined.

(** X12: a payload wrapped in a fence, that is "```json", white space,
    the payload, white space and "```", comes back from [cleanJsonString]
    exactly, provided the payload itself neither starts nor ends with
    white space. *)
Theorem cleanJsonString_unwraps_fenced (ws1 body ws2 : string) :
  all_space ws1 = true -> all_space ws2 = true ->
  starts_with_space body = false -> ends_with_space body = false ->
  geminiService.cleanJsonString ("```json" ++ ws1 ++ body ++ ws2 ++ "```") = body.
Proof.
  intros H1 H2 Hstart Hend.
  unfold geminiService.cleanJsonString, geminiService.drop_opening_fence.
  rewrite ServiceFacts.strip_prefix_app, (ServiceFacts.skip_spaces_app _ _ H1).
  destruct body as [|c body].
  - cbn [append]. rewrite (ServiceFacts.skip_spaces_app ws2 "```" H2). reflexivity.
  - rewrite ServiceFacts.skip_spaces_stops by exact Hstart.
    now apply ServiceFacts.drop_closing_fence_text.
Qed.

Lemma cleanJsonString_unwraps_fenced_witness :
  geminiService.cleanJsonString ("```json" ++ geminiService.nl ++ "[80, 60]"
                                   ++ geminiService.nl ++ "```")
  = "[80, 60]".
Proof.
  apply (cleanJsonString_unwraps_fenced geminiService.nl "[80, 60]" geminiService.nl);
    reflexivity.
Defined.

(** X13: [detectAIContent] sends at most one request.  For media
    without a MIME type it sends none and rejects with "MimeType is
    required for media files"; otherwise it sends exactly one, whose
    sampling parameters are those of the configuration and whose system
    instruction ends with the preset's instruction.  An empty response is
    parsed as "{}".  Whatever the network and the parser do, a rejection
    never carries an empty message. *)
Theorem detectAIContent_rejections_have_messages (J : Type)
    (generateContent : geminiService.Request -> string + string)
    (JSON_parse : string -> string + J)
    (mediaType : MediaType) (content : string) (mimeType : option string)
    (config : AnalysisConfig) :
  let run := geminiService.detectAIContent J generateContent JSON_parse
               mediaType content mimeType config in
  (forall message, snd run = inl message -> message <> "")
  /\ (fst run = [] <->
      mediaType <> TEXT /\ (mimeType = None \/ mimeType = Some ""))
  /\ (fst run = [] -> snd run = inl "MimeType is required for media files")
  /\ (forall req, In req (fst run) ->
        fst run = [req]
        /\ snd run = geminiService.send J generateContent JSON_parse req
        /\ geminiService.req_temperature req = temperature (advanced config)
        /\ geminiService.req_topP req = topP (advanced config)
        /\ geminiService.req_topK req = topK (advanced config)
        /\ exists intro,
             geminiService.systemInstruction req
             = intro ++ geminiService.presetInstruction (preset config))
  /\ (forall req, generateContent req = inr "" ->
        geminiService.send J generateContent JSON_parse req
        = match JSON_parse "{}" with
          | inl message => inl (JS.str_or message "Failed to analyze content. Please try again.")
          | inr value => inr value
          end).
Proof.
  intro run. subst run.
  assert (Hsend : forall req message,
            geminiService.send J generateContent JSON_parse req = inl message ->
            message <> "").
  { intros req message. unfold geminiService.send.
    destruct (generateContent req) as [m|text].
    - intros [= <-]. now destruct m.
    - destruct (JSON_parse _) as [m|v]; [|discriminate]. intros [= <-]. now destruct m. }
  unfold geminiService.detectAIContent.
  split; [|split; [|split; [|split]]].
  - intros message H.
    destruct mediaType; destruct mimeType as [[|c mime]|]; cbn [snd] in H;
      first [ now apply Hsend in H | injection H as <-; discriminate ].
  - destruct mediaType; destruct mimeType as [[|c mime]|]; cbn [fst];
      split; intro H;
      first [ discriminate H
            | reflexivity
            | destruct H as [? [?|?]]; congruence
            | split; [discriminate | auto] ].
  - destruct mediaType; destruct mimeType as [[|c mime]|]; cbn [fst snd];
      intro H; first [discriminate H | reflexivity].
  - intros req H.
    destruct mediaType; destruct mimeType as [[|c mime]|]; cbn [fst snd] in *;
      first [ contradiction
            | destruct H as [<-|[]]; repeat split; eexists; reflexivity ].
  - intros req Hempty. unfold geminiService.send. rewrite Hempty. reflexivity.
Qed.

(** ** Files entering the queue *)









Lemma screen_file_verdict (mime : list string) (acc : Screening) (file : File) :
  let accepted := ((file_size file <=? MAX_FILE_SIZE)%N
                   && includes (getMimeType file) mime)%bool in
  validFiles (screen_file mime acc file)
  = (if accepted then validFiles acc ++ [file] else validFiles acc)%list
  /\ rejectedCount (screen_file mime acc file)
     = (if accepted then rejectedCount acc else S (rejectedCount acc))
  /\ errorDetails (screen_file mime acc file)
     = (if accepted then errorDetails acc
        else JS.str_or (errorDetails acc)
               (if (MAX_FILE_SIZE <? file_size file)%N
                then "File size > 100MB" else "Invalid format")).
Proof.
  unfold screen_file. rewrite N.leb_antisym.
  destruct (MAX_FILE_SIZE <? file_size file)%N; cbn [negb andb].
  - repeat split.
  - destruct (includes (getMimeType file) mime) eqn:Einc; cbn [negb andb].
    + repeat split.
    + assert (Hdead : (negb (String.eqb (file_type file) "")
                       && includes (file_type file) mime)%bool = false).
      { unfold getMimeType in Einc. destruct (file_type file) as [|c t]; [reflexivity|].
        cbn [String.eqb negb andb]. exact Einc. }
      rewrite Hdead. repeat split.
Qed.

(** What the screening of a list of files comes to. *)
Lemma screen_files_spec (mime : list string) (files : list File) :
  let accepted f := ((file_size f <=? MAX_FILE_SIZE)%N
                     && includes (getMimeType f) mime)%bool in
  let s := screen_files mime files in
  validFiles s = filter accepted files
  /\ (rejectedCount s + List.length (validFiles s) = List.length files)%nat
  /\ errorDetails s
     = match filter (fun f => negb (accepted f)) files with
       | [] => ""
       | f :: _ => if (MAX_FILE_SIZE <? file_size f)%N
                   then "File size > 100MB" else "Invalid format"
       end
  /\ ((0 < rejectedCount s)%nat -> errorDetails s <> "").
Proof.
  intros accepted s. subst s. unfold screen_files.
  assert (Hgen : forall acc,
    let s := fold_left (screen_file mime) files acc in
    validFiles s = (validFiles acc ++ filter accepted files)%list
    /\ (rejectedCount s + List.length (filter accepted files)
        = rejectedCount acc + List.length files)%nat
    /\ errorDetails s
       = JS.str_or (errorDetails acc)
           match filter (fun f => negb (accepted f)) files with
           | [] => ""
           | f :: _ => if (MAX_FILE_SIZE <? file_size f)%N
                       then "File size > 100MB" else "Invalid format"
           end).
  { induction files as [|f files IH]; intro acc.
    - cbn. rewrite app_nil_r. do 2 (split; [reflexivity|]).
      now destruct (errorDetails acc).
    - cbn [fold_left filter]. destruct (IH (screen_file mime acc f)) as (Hv & Hr & He).
      destruct (screen_file_verdict mime acc f) as (Sv & Sr & Se).
      fold (accepted f) in Sv, Sr, Se. cbv zeta. rewrite Hv, He, Sv, Se.
      destruct (accepted f); cbn [negb List.length].
      + split; [now rewrite <- app_assoc|]. split; [rewrite Sr in Hr; lia | reflexivity].
      + split; [reflexivity|]. split; [rewrite Sr in Hr; lia|].
        destruct (errorDetails acc); [|reflexivity].
        cbn [JS.str_or]. now destruct (MAX_FILE_SIZE <? file_size f)%N. }
  destruct (Hgen (mkScreening [] 0 "")) as (Hv & Hr & He).
  cbn [validFiles rejectedCount errorDetails app] in Hv, Hr, He.
  split; [exact Hv|]. split; [rewrite Hv; lia|]. split.
  - rewrite He. now destruct (filter _ files).
  - intro Hpos. rewrite He.
    destruct (filter (fun f => negb (accepted f)) files) as [|f l] eqn:E.
    + exfalso.
      assert (Hall : List.length (filter accepted files) = List.length files).
      { clear -E. induction files as [|f files IH]; [reflexivity|].
        cbn [filter] in *. destruct (accepted f); cbn [negb] in *; [|discriminate].
        cbn [List.length]. now rewrite IH. }
      lia.
    + cbn [JS.str_or]. now destruct (MAX_FILE_SIZE <? file_size f)%N.
Qed.

(** X15: [handleFiles] keeps a file exactly when it is at most
    100 * 1024 * 1024 bytes and the media mode accepts the type that
    [getMimeType] gives it; the second look at the browser's type never
    admits a file.  The kept files stay in their order, every other file
    is counted as rejected, and the reason reported is that of the first
    rejected file, its size being checked before its format; it is never
    empty when a file was rejected. *)
Theorem screening_accepts_by_size_and_type (mime : list string) (files : list File) :
  let accepted f := ((file_size f <=? MAX_FILE_SIZE)%N
                     && includes (getMimeType f) mime)%bool in
  let s := screen_files mime files in
  validFiles s = filter accepted files
  /\ (rejectedCount s + List.length (validFiles s) = List.length files)%nat
  /\ errorDetails s
     = match filter (fun f => negb (accepted f)) files with
       | [] => ""
       | f :: _ => if (MAX_FILE_SIZE <? file_size f)%N
                   then "File size > 100MB" else "Invalid format"
       end
  /\ ((0 < rejectedCount s)%nat -> errorDetails s <> "").
Proof.
  apply screen_files_spec.
Qed.


Section IngestFacts.
Variable createObjectURL : File -> string.
Variable randomUUID : nat -> string.

Lemma new_items_ids (fs : list File) : forall k,
  map id (new_items randomUUID k fs) = map randomUUID (seq k (List.length fs)).
Proof.
  induction fs as [|f fs IH]; intro k; [reflexivity|]. cbn. now rewrite IH.
Qed.

Lemma ingested_all_ids (tab : MediaType) (fs : list File) : forall k,
  map id (ingested_all createObjectURL randomUUID tab k fs)
  = map randomUUID (seq k (List.length fs)).
Proof.
  induction fs as [|f fs IH]; intro k; [reflexivity|]. cbn [ingested_all map List.length seq].
  rewrite IH. f_equal. unfold ingested. now destruct (too_large_to_inline tab f).
Qed.

Lemma map_update_absent (uid : string) (u : FileUpdates) (l : list QueueItem) :
  ~ In uid (map id l) ->
  map (fun item => if String.eqb (id item) uid then merge_file item u else item) l = l.
Proof.
  induction l as [|q l IH]; [reflexivity|]. cbn [map In]. intro Hout.
  destruct (String.eqb_spec (id q) uid) as [Heq|_]; [exfalso; auto|].
  f_equal. apply IH. auto.
Qed.

Lemma processFile_frame (rid : string) (f : File) (a : App) :
  let a' := processFile createObjectURL rid f a in
  activeTab a' = activeTab a /\ textInput a' = textInput a
  /\ isAnalyzingText a' = isAnalyzingText a
  /\ activeFileId (world a') = activeFileId (world a)
  /\ shownResult (world a') = shownResult (world a)
  /\ history (world a') = history (world a)
  /\ toasts (world a') = toasts (world a)
  /\ calls (world a') = calls (world a).
Proof.
  unfold processFile.
  destruct (activeTab a) eqn:E; try (cbn; rewrite E; repeat split);
    destruct (SAFE_INLINE_LIMIT <? file_size f)%N; cbn; rewrite E; repeat split.
Qed.

(** Processing the accepted files one by one settles each new item in its
    place and touches nothing else of the queue. *)
Lemma process_all_queue (fs : list File) : forall k a before,
  queue (world a) = (before ++ new_items randomUUID k fs)%list ->
  NoDup (map randomUUID (seq k (List.length fs))) ->
  (forall j, (k <= j < k + List.length fs)%nat -> ~ In (randomUUID j) (map id before)) ->
  let a' := process_all createObjectURL randomUUID k fs a in
  queue (world a')
  = (before ++ ingested_all createObjectURL randomUUID (activeTab a) k fs)%list
  /\ reads a' = (reads a ++ started_reads randomUUID (activeTab a) k fs)%list
  /\ activeTab a' = activeTab a /\ textInput a' = textInput a
  /\ isAnalyzingText a' = isAnalyzingText a
  /\ activeFileId (world a') = activeFileId (world a)
  /\ shownResult (world a') = shownResult (world a)
  /\ history (world a') = history (world a)
  /\ toasts (world a') = toasts (world a)
  /\ calls (world a') = calls (world a).
Proof.
  induction fs as [|f fs IH]; intros k a before Hq Hnd Hfresh.
  - cbn in *. rewrite !app_nil_r in *. repeat split. exact Hq.
  - cbn [process_all]. cbn [List.length seq map] in Hnd.
    apply NoDup_cons_iff in Hnd. destruct Hnd as [Hk Hnd].
    destruct (processFile_frame (randomUUID k) f a) as (Pt & Px & Pa & Pf & Ps & Ph & Po & Pc).
    set (a1 := processFile createObjectURL (randomUUID k) f a) in *.
    assert (Hq1 : queue (world a1)
                  = ((before ++ [ingested createObjectURL randomUUID (activeTab a) k f])
                       ++ new_items randomUUID (S k) fs)%list
                  /\ reads a1 = (reads a ++ if too_large_to_inline (activeTab a) f
                                           then [] else [randomUUID k])%list).
    { subst a1. unfold processFile, ingested, too_large_to_inline.
      destruct (activeTab a) eqn:Etab; cbn [world reads in_world start_read];
        try (rewrite Hq, <- app_assoc; split; reflexivity).
      destruct (SAFE_INLINE_LIMIT <? file_size f)%N;
        cbn [world reads in_world start_read];
        [|rewrite Hq, <- app_assoc; split; reflexivity].
      split; [|now rewrite app_nil_r].
      unfold updateQueueItemFile, setQueue. cbn [queue]. rewrite Hq.
      rewrite map_app. cbn [new_items map].
      rewrite (map_update_absent _ _ before) by (apply Hfresh; cbn; lia).
      rewrite (map_update_absent _ _ (new_items randomUUID (S k) fs))
        by (now rewrite new_items_ids).
      cbn [new_item id]. rewrite String.eqb_refl. rewrite <- app_assoc. reflexivity. }
    destruct Hq1 as [Hq1 Hr1].
    destruct (IH (S k) a1 _ Hq1 Hnd) as (Iq & Ir & It & Ix & Ia & If & Is & Ih & Io & Ic).
    { intros j Hj. rewrite map_app, in_app_iff. intros [Hin|Hin].
      - apply (Hfresh j); [cbn; lia | exact Hin].
      - cbn in Hin. destruct Hin as [Hin|[]]. apply Hk.
        assert (Hid : id (ingested createObjectURL randomUUID (activeTab a) k f)
                      = randomUUID k)
          by (unfold ingested; now destruct (too_large_to_inline (activeTab a) f)).
        rewrite Hid in Hin. rewrite Hin. apply in_map, in_seq. lia. }
    cbv zeta. rewrite Iq, Ir, It, Ix, Ia, If, Is, Ih, Io, Ic, Pt, Hr1.
    cbn [ingested_all started_reads]. rewrite <- !app_assoc.
    repeat split; try assumption.
    now destruct (too_large_to_inline (activeTab a) f).
Qed.

End IngestFacts.

(** X16: in a media mode, [handleFiles] appends one queue item per
    accepted file, in the order of the files and with the ids drawn for
    them, and leaves the items already queued as they are.  A new item
    carries the file's name and inferred type, which the mode accepts; in
    the video mode an item whose file exceeds 18 * 1024 * 1024 bytes is
    ready at once, with a preview URL and an empty [base64], while every
    other item is uploading and its file starts being read.  The first
    new item becomes the active one only if none was active.  Rejected
    files give exactly one error toast, which counts them. *)
Theorem handleFiles_queues_accepted_files (createObjectURL : File -> string)
    (randomUUID : nat -> string) (files : list File) (a : App)
    (mime : list string) (label : string) :
  files <> [] ->
  FILE_CONFIG (activeTab a) = Some (mime, label) ->
  let accepted f := ((file_size f <=? MAX_FILE_SIZE)%N
                     && includes (getMimeType f) mime)%bool in
  let valid := filter accepted files in
  let fresh := map randomUUID (seq 0 (List.length valid)) in
  NoDup fresh ->
  (forall u, In u fresh -> ~ In u (map id (queue (world a)))) ->
  let a' := handleFiles createObjectURL randomUUID files a in
  exists added,
    queue (world a') = (queue (world a) ++ added)%list
    /\ map id added = fresh
    /\ Forall2 (fun f q =>
                  fileName q = file_name f /\ mimeType q = getMimeType f
                  /\ includes (mimeType q) mime = true
                  /\ (file_size f <= MAX_FILE_SIZE)%N
                  /\ result q = None /\ error q = None
                  /\ (too_large_to_inline (activeTab a) f = true ->
                      status q = Ready /\ previewUrl q = Some (createObjectURL f)
                      /\ base64 q = Some "")
                  /\ (too_large_to_inline (activeTab a) f = false ->
                      status q = Uploading /\ previewUrl q = None /\ base64 q = None
                      /\ In (id q) (reads a')))
               valid added
    /\ activeFileId (world a')
       = match activeFileId (world a), valid with
         | Some (String _ _), _ => activeFileId (world a)
         | _, [] => activeFileId (world a)
         | _, _ :: _ => Some (randomUUID 0%nat)
         end
    /\ toasts (world a')
       = (toasts (world a)
            ++ match (List.length files - List.length valid)%nat with
               | O => []
               | S r =>
                   [((JS.show (S r) ++ " file(s) ignored: "
                       ++ match filter (fun f => negb (accepted f)) files with
                          | [] => ""
                          | f :: _ => if (MAX_FILE_SIZE <? file_size f)%N
                                      then "File size > 100MB" else "Invalid format"
                          end)%string, error_toast)]
               end)%list
    /\ shownResult (world a') = shownResult (world a)
    /\ history (world a') = history (world a)
    /\ calls (world a') = calls (world a)
    /\ activeTab a' = activeTab a /\ textInput a' = textInput a.
Proof.
  intros Hne Hcfg accepted valid fresh Hnd Hfresh a'. subst a'.
  destruct (screen_files_spec mime files) as (Sv & Sr & Se & Spos).
  fold accepted valid in Sv, Sr, Se. rewrite Sv in Sr.
  unfold handleFiles. destruct files as [|f0 files0]; [congruence|].
  set (files := f0 :: files0) in *. rewrite Hcfg.
  set (s := screen_files mime files) in *.
  assert (Hrej : rejectedCount s = (List.length files - List.length valid)%nat) by lia.
  set (a1 := match rejectedCount s with O => a | S _ => _ end).
  assert (Ha1 : queue (world a1) = queue (world a)
                /\ activeFileId (world a1) = activeFileId (world a)
                /\ reads a1 = reads a /\ activeTab a1 = activeTab a
                /\ textInput a1 = textInput a
                /\ shownResult (world a1) = shownResult (world a)
                /\ history (world a1) = history (world a)
                /\ calls (world a1) = calls (world a)
                /\ toasts (world a1)
                   = (toasts (world a)
                        ++ match (List.length files - List.length valid)%nat with
                           | O => []
                           | S r => [((JS.show (S r) ++ " file(s) ignored: "
                                         ++ errorDetails s)%string, error_toast)]
                           end)%list).
  { subst a1. rewrite <- Hrej. destruct (rejectedCount s) as [|r] eqn:Er.
    - rewrite app_nil_r. repeat split.
    - assert (Hstr : JS.str_or (errorDetails s) "Incompatible" = errorDetails s).
      { destruct (errorDetails s) eqn:Ed; [|reflexivity].
        exfalso. apply Spos; [lia | reflexivity]. }
      cbn [world in_world addToast queue activeFileId reads activeTab textInput
           shownResult history calls toasts].
      rewrite Hstr. repeat split. }
  destruct Ha1 as (Q1 & A1 & R1 & T1 & X1 & S1 & H1 & C1 & O1).
  rewrite Se in O1. rewrite Sv. destruct valid as [|v valid0] eqn:Ev.
  - exists []. rewrite app_nil_r.
    split; [exact Q1|]. split; [reflexivity|]. split; [constructor|].
    split; [rewrite A1; now destruct (activeFileId (world a)) as [[|? ?]|]|].
    split; [exact O1|]. auto.
  - set (a2 := in_world _ a1).
    destruct (process_all_queue createObjectURL randomUUID (v :: valid0) 0%nat a2
                (queue (world a))) as (Pq & Pr & Pt & Px & _ & Pa & Ps & Ph & Po & Pc).
    { subst a2. cbn [world in_world setQueue queue].
      destruct (activeFileId (world a1)) as [[|? ?]|];
        cbn [setActiveFileId queue]; now rewrite Q1. }
    { exact Hnd. }
    { intros j Hj. apply Hfresh. apply in_map, in_seq. lia. }
    assert (Tab : activeTab a2 = activeTab a) by (subst a2; exact T1).
    rewrite Tab in Pq, Pr.
    exists (ingested_all createObjectURL randomUUID (activeTab a) 0%nat (v :: valid0)).
    rewrite Pq, Pa, Ps, Ph, Po, Pc, Pt, Px.
    split; [reflexivity|]. split; [apply ingested_all_ids|]. split.
    + (* the new items, one by one *)
      assert (Hacc : Forall (fun f => accepted f = true) (v :: valid0)).
      { rewrite <- Ev. subst valid. apply Forall_forall. intros f Hf.
        apply filter_In in Hf. tauto. }
      assert (Hreads : forall q,
                In q (ingested_all createObjectURL randomUUID (activeTab a) 0%nat (v :: valid0)) ->
                status q = Uploading ->
                In (id q) (started_reads randomUUID (activeTab a) 0%nat (v :: valid0))).
      { generalize (v :: valid0) as l. generalize 0%nat as k. intros k l. revert k.
        induction l as [|f l IHl]; intros k q; [contradiction|].
        cbn [ingested_all started_reads]. unfold ingested at 1.
        destruct (too_large_to_inline (activeTab a) f).
        - intros [<-|Hin] Hst; [discriminate Hst | now apply (IHl (S k))].
        - intros [<-|Hin] Hst; [now left | right; now apply (IHl (S k))]. }
      assert (Hgen : forall k l,
                Forall (fun f => accepted f = true) l ->
                (forall q, In q (ingested_all createObjectURL randomUUID (activeTab a) k l) ->
                           status q = Uploading -> In (id q) (reads
                             (process_all createObjectURL randomUUID 0%nat (v :: valid0) a2))) ->
                Forall2 (fun f q =>
                  fileName q = file_name f /\ mimeType q = getMimeType f
                  /\ includes (mimeType q) mime = true
                  /\ (file_size f <= MAX_FILE_SIZE)%N
                  /\ result q = None /\ error q = None
                  /\ (too_large_to_inline (activeTab a) f = true ->
                      status q = Ready /\ previewUrl q = Some (createObjectURL f)
                      /\ base64 q = Some "")
                  /\ (too_large_to_inline (activeTab a) f = false ->
                      status q = Uploading /\ previewUrl q = None /\ base64 q = None
                      /\ In (id q) (reads
                           (process_all createObjectURL randomUUID 0%nat (v :: valid0) a2))))
                  l (ingested_all createObjectURL randomUUID (activeTab a) k l)).
      { intros k l. revert k. induction l as [|f l IHl]; intros k Hl Hrd; [constructor|].
        inversion Hl as [|? ? Hf Hl']; subst. cbn [ingested_all].
        constructor; [|apply IHl; [exact Hl' | intros q Hq; apply Hrd; now right]].
        unfold accepted in Hf. apply andb_prop in Hf. destruct Hf as [Hsize Hinc].
        apply N.leb_le in Hsize.
        specialize (Hrd (ingested createObjectURL randomUUID (activeTab a) k f)
                        (or_introl eq_refl)).
        unfold ingested in *. destruct (too_large_to_inline (activeTab a) f);
          cbn in *; repeat split; try assumption; try discriminate; auto. }
      apply Hgen; [exact Hacc|]. intros q Hq Hst. rewrite Pr, in_app_iff. right.
      now apply Hreads.
    + subst a2. cbn [world in_world activeTab textInput].
      rewrite T1, X1.
      rewrite <- A1, <- S1, <- H1, <- C1.
      destruct (activeFileId (world a1)) as [[|? ?]|] eqn:Eact;
        cbn [setQueue setActiveFileId activeFileId toasts shownResult history calls];
        rewrite ?Eact; (split; [reflexivity|]); (split; [exact O1|]); repeat split.
Qed.

Lemma handleFiles_queues_accepted_files_witness :
  let a' := handleFiles Samples.createObjectURL Samples.randomUUID
              [Samples.long_clip; Samples.notes; Samples.huge_clip; Samples.short_clip]
              Samples.video_app in
  map id (queue (world a')) = ["v1"; "v2"; "v3"; "id-0"; "id-1"]
  /\ toasts (world a') = [("2 file(s) ignored: Invalid format", error_toast)].
Proof.
  destruct (handleFiles_queues_accepted_files Samples.createObjectURL Samples.randomUUID
              [Samples.long_clip; Samples.notes; Samples.huge_clip; Samples.short_clip]
              Samples.video_app
              ["video/mp4"; "video/mpeg"; "video/quicktime"; "video/x-msvideo";
               "video/webm"; "video/3gpp"; "video/x-matroska"; "video/x-flv";
               "video/x-ms-wmv"]
              "MP4, WEBM, MOV, AVI, MKV, WMV")
    as (added & Hq & Hids & _ & _ & Ht & _).
  - discriminate.
  - reflexivity.
  - vm_compute. repeat constructor; cbn; intuition discriminate.
  - vm_compute. intros u [<-|[<-|[]]]; intuition discriminate.
  - cbv zeta. split; [|exact Ht]. rewrite Hq, map_app, Hids. reflexivity.
Defined.

Lemma updateQueueItemFile_entries uid u w q :
  In q (entries uid (updateQueueItemFile uid u w)) ->
  exists q0, In q0 (entries uid w) /\ q = merge_file q0 u.
Proof.
  unfold entries, updateQueueItemFile, setQueue. cbn [queue].
  rewrite filter_In, in_map_iff. intros [(q0 & Hq & Hin) Hid].
  destruct (String.eqb (id q0) uid) eqn:E.
  - exists q0. split; [|now symmetry]. apply filter_In. auto.
  - subst q. congruence.
Qed.

Lemma updateQueueItemFile_others uid u w :
  others uid (updateQueueItemFile uid u w) = others uid w.
Proof.
  unfold others, updateQueueItemFile, setQueue. cbn [queue].
  induction (queue w) as [|q l IH]; [reflexivity|]. cbn [map filter].
  destruct (String.eqb_spec (id q) uid) as [Heq|Hne].
  - cbn [merge_file id]. apply String.eqb_eq in Heq. rewrite Heq. cbn [negb]. exact IH.
  - apply String.eqb_neq in Hne. rewrite Hne. cbn [negb]. now rewrite IH.
Qed.

(** X17: while a file is read, the progress stored for its item is a
    whole number between 0 and 100, and 100 when everything is loaded; the
    item keeps its status and the other items are not touched. *)
Theorem reader_progress_is_percentage (rid : string) (loaded total : Q) (a : App) :
  0 <= loaded -> loaded <= total -> 0 < total ->
  let a' := reader_onprogress rid loaded total a in
  (forall q, In q (entries rid (world a')) ->
     exists (p : Z) q0,
       In q0 (entries rid (world a))
       /\ progress q = inject_Z p /\ (0 <= p <= 100)%Z
       /\ (loaded == total -> p = 100%Z)
       /\ status q = status q0 /\ base64 q = base64 q0 /\ result q = result q0)
  /\ others rid (world a') = others rid (world a).
Proof.
  intros Hlo Hhi Hpos a'. subst a'. unfold reader_onprogress.
  cbn [world in_world]. split; [|apply updateQueueItemFile_others].
  intros q Hin. apply updateQueueItemFile_entries in Hin.
  destruct Hin as (q0 & Hin0 & ->).
  exists (JS.Math_round (loaded / total * 100)), q0.
  split; [exact Hin0|]. split; [reflexivity|].
  assert (Hfrac : 0 <= loaded / total /\ loaded / total <= 1).
  { split.
    - apply Qle_shift_div_l; [exact Hpos | lra].
    - apply Qle_shift_div_r; [exact Hpos | lra]. }
  assert (Hp : percent (loaded / total * 100)).
  { destruct Hfrac as [F0 F1]. unfold percent.
    generalize dependent (loaded / total). intros x F0 F1. lra. }
  apply Math_round_percent in Hp. destruct Hp as [Hp0 Hp1].
  split; [split; rewrite Zle_Qle; assumption|]. split; [|repeat split].
  intro Hall. unfold JS.Math_round.
  assert (Hone : loaded / total * 100 + (1 # 2) == 100 + (1 # 2)).
  { rewrite Hall. field. lra. }
  rewrite Hone. reflexivity.
Qed.

Lemma reader_progress_is_percentage_witness :
  others "v1" (world (reader_onprogress "v1" 1 3 Samples.video_app))
  = others "v1" (world Samples.video_app).
Proof.
  apply (reader_progress_is_percentage "v1" 1 3 Samples.video_app); lra.
Defined.

Lemma append_empty_r_local (s : string) : s ++ "" = s.
Proof.
  induction s as [|c s IH]; [reflexivity|]. cbn. now rewrite IH.
Qed.

Lemma append_assoc_local (a b c : string) : (a ++ b) ++ c = a ++ (b ++ c).
Proof.
  induction a as [|x a IH]; [reflexivity|]. cbn. now rewrite IH.
Qed.

Lemma second_piece_payload (payload : string) : forall piece,
  comma_free payload = true ->
  second_piece payload true piece = Some (piece ++ payload).
Proof.
  induction payload as [|c s IH]; intros piece Hfree.
  - cbn. now rewrite append_empty_r_local.
  - cbn in *. apply andb_prop in Hfree. destruct Hfree as [Hc Hs].
    apply negb_true_iff in Hc. rewrite Hc, (IH _ Hs).
    f_equal. rewrite append_assoc_local. reflexivity.
Qed.

Lemma second_piece_after_header (header rest : string) :
  comma_free header = true ->
  second_piece (header ++ "," ++ rest) false "" = second_piece rest true "".
Proof.
  induction header as [|c h IH]; intro Hfree; [reflexivity|].
  cbn in *. apply andb_prop in Hfree. destruct Hfree as [Hc Hh].
  apply negb_true_iff in Hc. rewrite Hc. now apply IH.
Qed.

Lemma second_piece_without_comma (s : string) :
  comma_free s = true -> second_piece s false "" = None.
Proof.
  induction s as [|c s IH]; intro Hfree; [reflexivity|].
  cbn in *. apply andb_prop in Hfree. destruct Hfree as [Hc Hs].
  apply negb_true_iff in Hc. rewrite Hc. now apply IH.
Qed.

(** X18: when a file has been read, its item becomes ready with full
    progress and a preview URL, and its [base64] is exactly the payload of
    the data URL, that is the text after the comma that ends the header;
    from a data URL without a comma no [base64] is stored, and the item is
    ready all the same.  The other items are not touched. *)
Theorem reader_onload_stores_payload (createObjectURL : File -> string)
    (rid : string) (file : File) (header payload : string) (a : App) :
  comma_free header = true -> comma_free payload = true ->
  (forall q, In q (entries rid (world (reader_onload createObjectURL rid file
                                        (header ++ "," ++ payload) a))) ->
     status q = Ready /\ progress q = 100
     /\ previewUrl q = Some (createObjectURL file) /\ base64 q = Some payload)
  /\ (forall q, In q (entries rid (world (reader_onload createObjectURL rid file
                                           header a))) ->
      status q = Ready /\ base64 q = None)
  /\ others rid (world (reader_onload createObjectURL rid file
                          (header ++ "," ++ payload) a))
     = others rid (world a).
Proof.
  intros Hh Hp. unfold reader_onload. cbn [world in_world].
  rewrite (second_piece_after_header _ _ Hh), (second_piece_payload _ "" Hp),
    (second_piece_without_comma _ Hh).
  split; [|split; [|apply updateQueueItemFile_others]].
  - intros q Hin. apply updateQueueItemFile_entries in Hin.
    destruct Hin as (q0 & _ & ->). repeat split.
  - intros q Hin. apply updateQueueItemFile_entries in Hin.
    destruct Hin as (q0 & _ & ->). repeat split.
Qed.

Lemma reader_onload_stores_payload_witness :
  Forall (fun q => status q = Ready /\ progress q = 100
                   /\ previewUrl q = Some "blob:intro.webm"
                   /\ base64 q = Some "GkXfo59ChoEB")
    (entries "v1" (world (reader_onload Samples.createObjectURL "v1" Samples.short_clip
                            ("data:video/webm;base64" ++ "," ++ "GkXfo59ChoEB")
                            Samples.video_app))).
Proof.
  apply Forall_forall.
  apply (reader_onload_stores_payload Samples.createObjectURL "v1" Samples.short_clip
           "data:video/webm;base64" "GkXfo59ChoEB" Samples.video_app); reflexivity.
Defined.

(** ** Starting an analysis *)

Lemma detectAIContent_message (J : Type)
    (generateContent : geminiService.Request -> string + string)
    (JSON_parse : string -> string + J)
    (mediaType : MediaType) (content : string) (mimeType : option string)
    (config : AnalysisConfig) (message : string) :
  snd (geminiService.detectAIContent J generateContent JSON_parse
         mediaType content mimeType config) = inl message ->
  message <> "".
Proof.
  assert (Hsend : forall req,
            geminiService.send J generateContent JSON_parse req = inl message ->
            message <> "").
  { intros req. unfold geminiService.send.
    destruct (generateContent req) as [m|text].
    - intros [= <-]. now destruct m.
    - destruct (JSON_parse _) as [m|v]; [|discriminate]. intros [= <-]. now destruct m. }
  unfold geminiService.detectAIContent. intro H.
  destruct mediaType; destruct mimeType as [[|? ?]|]; cbn [snd] in H;
    first [ now apply Hsend in H | injection H as <-; discriminate ].
Qed.

Lemma str_or_nonempty (s d : string) : s <> "" -> JS.str_or s d = s.
Proof. destruct s; [contradiction | reflexivity]. Qed.


Lemma entries_ids (uid : string) (w : World) :
  entries uid w <> [] -> In uid (map id (queue w)).
Proof.
  unfold entries. induction (queue w) as [|q l IH]; [intro H; now contradiction H|].
  cbn [filter map In]. destruct (String.eqb_spec (id q) uid) as [Heq|Hne].
  - intros _. now left.
  - intro H. right. now apply IH.
Qed.




Lemma quiet_run_calls (env : Env) (item : QueueItem) (url : string) (w : World) :
  previewUrl item = Some url -> url <> "" ->
  let ts := timestamps (video_duration env) (sampleInterval env) in
  exists m,
    (1 <= m <= List.length ts)%nat
    /\ calls (handleProgressiveVideoAnalysis env quiet item w)
       = (calls w ++ VideoLoad url
            :: flat_map (segment_calls env ts) (seq 0 m) ++ [VideoDetach])%list
    /\ others (id item) (handleProgressiveVideoAnalysis env quiet item w)
       = others (id item) w.
Proof.
  intros Hurl Hne ts.
  pose proof (timestamps_nonempty (video_duration env) (sampleInterval env)) as Hlen.
  fold ts in Hlen.
  rewrite (handle_with_preview _ _ _ _ _ Hurl Hne). fold ts.
  unfold run_frames, begin. fold ts.
  match goal with |- context [frames_loop _ _ _ _ _ _ _ ?s ?v] =>
    destruct (quiet_loop_trace env item ts (List.length ts) (List.length ts) 0 s v)
      as (m & Hm & Hc & _ & Ho & _ & Hend);
    destruct (finish_frame item (List.length ts)
                (frames_loop env quiet item ts (List.length ts) (List.length ts) 0 s v))
      as (Fo & _ & _ & Fc);
    destruct (frames_loop env quiet item ts (List.length ts) (List.length ts) 0 s v)
      as [st1 w1|message w1] end.
  - destruct Hend as [-> _]. exists (List.length ts). split; [lia|]. split.
    + rewrite Fc. cbn [world_of] in *. rewrite Hc. unfold quiet. cbn.
      now rewrite <- !app_assoc.
    + rewrite Fo. cbn [world_of] in *. rewrite Ho. unfold quiet.
      rewrite updateQueueItem_keeps_others. reflexivity.
  - destruct Hend as [Hpos _]. exists m. split; [lia|]. split.
    + rewrite Fc. cbn [world_of] in *. rewrite Hc. unfold quiet. cbn.
      now rewrite <- !app_assoc.
    + rewrite Fo. cbn [world_of] in *. rewrite Ho. unfold quiet.
      rewrite updateQueueItem_keeps_others. reflexivity.
Qed.

(** X20: in the video mode, an active item whose file exceeds
    18 * 1024 * 1024 bytes, or any active item when progressive analysis
    is switched on, is never sent as a whole: [handleAnalyze] loads the
    video from the item's preview URL, samples it at the configured
    interval, sends only captured frames, each as an "image/jpeg" part
    followed by the media prompt, and detaches the video at the end.  The
    other items stay as they are. *)
Theorem oversized_video_is_sampled
    (file_size_of : QueueItem -> N) (config : AnalysisConfig)
    (generateContent : string -> geminiService.Request -> string + string)
    (JSON_parse : string -> string + AnalysisResult)
    (duration_of : QueueItem -> Q) (frame_of : QueueItem -> Q -> string)
    (frame_answer : QueueItem -> nat -> geminiService.Request -> string + string)
    (a : App) (item : QueueItem) (url : string) :
  activeItem (world a) = Some item ->
  activeTab a = VIDEO ->
  progressiveAnalysis (advanced config) = true
    \/ (SAFE_INLINE_LIMIT < file_size_of item)%N ->
  previewUrl item = Some url -> url <> "" ->
  let ts := timestamps (duration_of item) (advancedSampleInterval (advanced config)) in
  let w' := world (handleAnalyze file_size_of config generateContent JSON_parse
                     duration_of frame_of frame_answer a) in
  (exists m,
     (1 <= m <= List.length ts)%nat
     /\ calls w'
        = (calls (world a) ++ VideoLoad url
             :: flat_map (fun i =>
                  Seek (nth i ts 0)
                  :: match frame_of item (nth i ts 0) with
                     | EmptyString => []
                     | payload => [Classify payload]
                     end) (seq 0 m)
             ++ [VideoDetach])%list)
  /\ (forall i c payload,
        fst (geminiService.detectAIContent AnalysisResult (frame_answer item i)
               JSON_parse IMAGE (String c payload) (Some "image/jpeg") config)
        = [geminiService.request_for config
             [geminiService.InlineData "image/jpeg" (String c payload);
              geminiService.Text (geminiService.mediaPrompt config)]])
  /\ others (id item) w' = others (id item) (world a).
Proof.
  intros Hact Htab Hbig Hurl Hne ts w'. subst w'. unfold handleAnalyze. rewrite Hact.
  assert (Hpath : takes_progressive_path file_size_of config (activeTab a) item = true).
  { unfold takes_progressive_path. rewrite Htab. apply Bool.orb_true_iff.
    destruct Hbig as [Hp|Hs]; [now left | right; now apply N.ltb_lt]. }
  rewrite Hpath. cbn [world in_world].
  destruct (quiet_run_calls (progressive_env config JSON_parse duration_of frame_of
                               frame_answer item) item url (world a) Hurl Hne)
    as (m & Hm & Hc & Ho).
  split; [|split; [reflexivity | exact Ho]].
  exists m. split; [exact Hm|]. exact Hc.
Qed.

Lemma oversized_video_is_sampled_witness :
  others "v1" (world (handleAnalyze Samples.sizes Samples.default_config Samples.network
                        Samples.parse Samples.durations Samples.frames
                        Samples.frame_network Samples.video_app))
  = [Scenario.other; Scenario.no_preview].
Proof.
  apply (oversized_video_is_sampled Samples.sizes Samples.default_config Samples.network
           Samples.parse Samples.durations Samples.frames Samples.frame_network
           Samples.video_app Scenario.clip "blob:clip").
  - reflexivity.
  - reflexivity.
  - right. reflexivity.
  - reflexivity.
  - discriminate.
Defined.

Lemma substring0_length (n : nat) : forall s,
  (String.length (JS.substring0 n s) <= n)%nat.
Proof.
  unfold JS.substring0. induction n as [|n IH]; intros [|c s]; cbn; try lia.
  specialize (IH s). lia.
Qed.

Lemma length_append_local (s t : string) :
  String.length (s ++ t) = (String.length s + String.length t)%nat.
Proof. induction s as [|c s IH]; cbn; [reflexivity | now rewrite IH]. Qed.

(** X21: [handleTextAnalyze] never sends blank text: when the input is
    empty or all white space it makes no call, shows the error toast
    "Please enter text." and leaves the history alone.  Otherwise it sends
    exactly one request, the text prompt ending with the input; on success
    the analysis is shown and stored in the history under a preview of at
    most 43 characters (the first 40 of the input and "..."), with the
    input as content unless it is longer than 5 * 1024 * 1024; on failure
    the service's message, which is never empty, is the error toast and no
    result is shown.  In every case the result shown before is cleared
    first, the waiting flag is off at the end and the queue is not
    touched. *)
Theorem text_analysis_outcomes (config : AnalysisConfig)
    (generateContent : string -> geminiService.Request -> string + string)
    (JSON_parse : string -> string + AnalysisResult) (a : App) :
  let a' := handleTextAnalyze config generateContent JSON_parse a in
  let w := world a in
  let w' := world a' in
  let text := textInput a in
  isAnalyzingText a' = false
  /\ queue w' = queue w /\ activeFileId w' = activeFileId w
  /\ textInput a' = text /\ activeTab a' = activeTab a
  /\ (all_space text = true ->
        calls w' = calls w /\ shownResult w' = None /\ history w' = history w
        /\ toasts w' = (toasts w ++ [("Please enter text.", error_toast)])%list)
  /\ (all_space text = false ->
        calls w' = (calls w ++ [Classify text])%list
        /\ (exists intro,
              fst (geminiService.detectAIContent AnalysisResult (generateContent "")
                     JSON_parse TEXT text None config)
              = [geminiService.request_for config [geminiService.Text (intro ++ text)]])
        /\ match detect config generateContent JSON_parse "" TEXT text None with
           | inr analysis =>
               shownResult w' = Some analysis
               /\ toasts w' = (toasts w ++ [("Text analysis complete", success)])%list
               /\ exists e,
                    history w' = firstn 50 (e :: history w)
                    /\ h_result e = analysis /\ h_mediaType e = TEXT
                    /\ h_preview e = JS.substring0 40 text ++ "..."
                    /\ (String.length (h_preview e) <= 43)%nat
                    /\ h_content e
                       = (if (5 * 1024 * 1024 <? N.of_nat (String.length text))%N
                          then None else Some text)
                    /\ h_mimeType e = None /\ h_fileName e = None
           | inl message =>
               message <> "" /\ shownResult w' = None /\ history w' = history w
               /\ toasts w' = (toasts w ++ [(message, error_toast)])%list
           end).
Proof.
  intros a' w w' text. subst a' w w' text. unfold handleTextAnalyze.
  cbn [textInput setIsAnalyzingText in_world world].
  destruct (all_space (textInput a)) eqn:Hblank.
  - cbn [world in_world setIsAnalyzingText isAnalyzingText textInput activeTab].
    repeat split; try discriminate; reflexivity.
  - cbn [world in_world setIsAnalyzingText isAnalyzingText textInput activeTab].
    destruct (detect config generateContent JSON_parse "" TEXT (textInput a) None)
      as [message|analysis] eqn:Hd;
      cbn [world in_world setIsAnalyzingText isAnalyzingText textInput activeTab].
    + do 5 (split; [reflexivity|]). split; [discriminate|]. intros _.
      split; [reflexivity|]. split.
      { unfold geminiService.detectAIContent, geminiService.textPrompt. cbn [fst].
        eexists. rewrite <- !append_assoc_local. reflexivity. }
      split; [exact (detectAIContent_message _ _ _ _ _ _ _ _ Hd)|].
      repeat split.
    + do 5 (split; [reflexivity|]). split; [discriminate|]. intros _.
      split; [reflexivity|]. split.
      { unfold geminiService.detectAIContent, geminiService.textPrompt. cbn [fst].
        eexists. rewrite <- !append_assoc_local. reflexivity. }
      split; [reflexivity|]. split; [reflexivity|].
      eexists. split; [reflexivity|]. cbn [h_result h_mediaType h_preview h_content
                                            h_mimeType h_fileName].
      repeat split.
      rewrite length_append_local. pose proof (substring0_length 40 (textInput a)).
      cbn [String.length]. lia.
Qed.

Lemma mark_analyzing_settles (q : QueueItem) : eligible (mark_analyzing q) = false.
Proof. unfold mark_analyzing. destruct (eligible q) eqn:E; [reflexivity | exact E]. Qed.

Lemma filter_none {A : Type} (f : A -> bool) (l : list A) :
  filter f l = [] <-> Forall (fun x => f x = false) l.
Proof.
  induction l as [|x l IH]; cbn [filter].
  - split; [constructor | reflexivity].
  - destruct (f x) eqn:E.
    + split; [discriminate|]. intro H. inversion H; congruence.
    + rewrite IH. split; [now constructor | intro H; now inversion H].
Qed.

(** X22: a batch starts only outside the text mode and only when some
    item is ready or in error.  It takes up exactly those items, in queue
    order, puts each of them in status analyzing with its error cleared
    and everything else kept, leaves every other item as it is, and
    announces their number in one info toast.  Afterwards no item is
    ready or in error, so starting a batch again does nothing until an
    item settles. *)
Theorem batch_begin_takes_up_eligible_items (a : App) :
  (batch_begin a = None
   <-> activeTab a = TEXT \/ Forall (fun q => eligible q = false) (queue (world a)))
  /\ (forall items a',
        batch_begin a = Some (items, a') ->
        items = filter eligible (queue (world a)) /\ items <> []
        /\ Forall2 (fun q q' =>
                      id q' = id q /\ fileName q' = fileName q
                      /\ progress q' = progress q /\ previewUrl q' = previewUrl q
                      /\ base64 q' = base64 q /\ mimeType q' = mimeType q
                      /\ result q' = result q
                      /\ match status q with
                         | Ready | Error => status q' = Analyzing /\ error q' = None
                         | _ => q' = q
                         end)
                   (queue (world a)) (queue (world a'))
        /\ toasts (world a')
           = (toasts (world a)
                ++ [(("Starting batch analysis for " ++ JS.show (List.length items)
                        ++ " items")%string, info)])%list
        /\ activeFileId (world a') = activeFileId (world a)
        /\ history (world a') = history (world a)
        /\ calls (world a') = calls (world a)
        /\ batch_begin a' = None).
Proof.
  split.
  - unfold batch_begin. rewrite <- filter_none.
    destruct (activeTab a); [split; [intros _; now left | reflexivity]| | |];
      (destruct (filter eligible (queue (world a))) as [|x l];
       [ split; [intros _; now right | reflexivity]
       | split; [discriminate | intros [H|H]; discriminate H] ]).
  - intros items a' H. unfold batch_begin in H.
    assert (Hsome : activeTab a <> TEXT
                    /\ items = filter eligible (queue (world a)) /\ items <> []
                    /\ a' = in_world (fun w =>
                              addToast ("Starting batch analysis for "
                                          ++ JS.show (List.length items)
                                          ++ " items")%string info
                                (setQueue (map mark_analyzing) w)) a).
    { destruct (activeTab a); [discriminate H| | |];
        (destruct (filter eligible (queue (world a))) as [|x l]; [discriminate H|];
         injection H as <- <-; repeat split; discriminate). }
    clear H. destruct Hsome as (Htab & Hitems & Hne & ->).
    split; [exact Hitems|]. split; [exact Hne|].
    cbn [world in_world queue addToast setQueue toasts activeFileId history calls].
    split; [|split; [reflexivity|split; [reflexivity|split; [reflexivity|split;
             [reflexivity|]]]]].
    + clear. induction (queue (world a)) as [|q l IH]; [constructor|].
      cbn [map]. constructor; [|exact IH].
      unfold mark_analyzing, eligible. destruct (status q) eqn:E; cbn; rewrite ?E;
        repeat split.
    + unfold batch_begin. cbn [activeTab in_world world queue addToast setQueue].
      assert (Hnone : filter eligible (map mark_analyzing (queue (world a))) = []).
      { apply filter_none. apply Forall_map. apply Forall_forall. intros q _.
        apply mark_analyzing_settles. }
      rewrite Hnone. now destruct (activeTab a).
Qed.

Section SettleFacts.
Variable config : AnalysisConfig.
Variable generateContent : string -> geminiService.Request -> string + string.
Variable JSON_parse : string -> string + AnalysisResult.
Variable tab : MediaType.

Let settle := settle_in_queue config generateContent JSON_parse tab.
Let settle_by (order : list QueueItem) (q : QueueItem) : QueueItem :=
  fold_left (fun q item => settle item q) order q.

Lemma batch_settle_queue (item : QueueItem) (w : World) :
  queue (batch_settle config generateContent JSON_parse tab item w)
  = map (settle item) (queue w).
Proof.
  unfold batch_settle, settle, settle_in_queue.
  destruct (detect config generateContent JSON_parse (id item) tab (base64_of item)
              (Some (mimeType item))); reflexivity.
Qed.

Lemma settle_id (item q : QueueItem) : id (settle item q) = id q.
Proof.
  unfold settle, settle_in_queue. destruct (String.eqb (id q) (id item)); [|reflexivity].
  now destruct (detect _ _ _ _ _ _ _).
Qed.

Lemma settle_other (item q : QueueItem) : id q <> id item -> settle item q = q.
Proof.
  intro H. unfold settle, settle_in_queue. apply String.eqb_neq in H. now rewrite H.
Qed.

Lemma settle_commutes (i1 i2 q : QueueItem) :
  id i1 <> id i2 -> settle i1 (settle i2 q) = settle i2 (settle i1 q).
Proof.
  intro Hne. destruct (String.eqb_spec (id q) (id i1)) as [H1|H1].
  - rewrite (settle_other i2 q) by congruence.
    rewrite (settle_other i2 (settle i1 q)); [reflexivity|].
    rewrite settle_id. congruence.
  - rewrite (settle_other i1 q H1).
    rewrite (settle_other i1 (settle i2 q)); [reflexivity|].
    now rewrite settle_id.
Qed.

Lemma settle_by_id (order : list QueueItem) : forall q, id (settle_by order q) = id q.
Proof.
  induction order as [|x l IH]; intro q; [reflexivity|].
  cbn [settle_by fold_left]. fold (settle_by l (settle x q)). now rewrite IH, settle_id.
Qed.

Lemma settle_by_keeps (order : list QueueItem) : forall q,
  base64 (settle_by order q) = base64 q
  /\ previewUrl (settle_by order q) = previewUrl q.
Proof.
  induction order as [|x l IH]; intro q; [split; reflexivity|].
  cbn [settle_by fold_left]. fold (settle_by l (settle x q)).
  destruct (IH (settle x q)) as [-> ->].
  unfold settle, settle_in_queue. destruct (String.eqb (id q) (id x)); [|split; reflexivity].
  destruct (detect _ _ _ _ _ _ _); split; reflexivity.
Qed.

Lemma settle_by_absent (order : list QueueItem) : forall q,
  ~ In (id q) (map id order) -> settle_by order q = q.
Proof.
  induction order as [|x l IH]; intros q Hout; [reflexivity|].
  cbn [settle_by fold_left]. fold (settle_by l (settle x q)).
  cbn [map In] in Hout. rewrite (settle_other x q) by (intro E; apply Hout; now left).
  apply IH. intro E. apply Hout. now right.
Qed.

Lemma batch_settle_all_queue (order : list QueueItem) : forall w,
  queue (batch_settle_all config generateContent JSON_parse tab order w)
  = map (settle_by order) (queue w).
Proof.
  induction order as [|x l IH]; intro w.
  - cbn. now rewrite map_id.
  - cbn [batch_settle_all fold_left].
    fold (batch_settle_all config generateContent JSON_parse tab l
            (batch_settle config generateContent JSON_parse tab x w)).
    rewrite IH, batch_settle_queue, map_map. reflexivity.
Qed.

Lemma settle_by_permutation (o1 o2 : list QueueItem) :
  Permutation o1 o2 -> NoDup (map id o1) ->
  forall q, settle_by o1 q = settle_by o2 q.
Proof.
  induction 1 as [|x l l' Hp IH|x y l|l l' l'' Hp1 IH1 Hp2 IH2]; intros Hnd q.
  - reflexivity.
  - cbn [settle_by fold_left]. apply IH. cbn [map] in Hnd. now inversion Hnd.
  - cbn [settle_by fold_left]. f_equal. apply settle_commutes.
    cbn [map] in Hnd. inversion Hnd as [|? ? Hout _]. intro E. apply Hout. now left.
  - rewrite IH1 by exact Hnd. apply IH2.
    apply (Permutation_NoDup (Permutation_map id Hp1) Hnd).
Qed.

Lemma settle_by_outcome (order : list QueueItem) :
  NoDup (map id order) ->
  forall q item, In item order -> id item = id q ->
  settle_by order q = settle item q.
Proof.
  induction order as [|x l IH]; intros Hnd q item Hin Hid; [contradiction|].
  cbn [map] in Hnd. inversion Hnd as [|? ? Hout Hnd']. subst.
  cbn [settle_by fold_left]. fold (settle_by l (settle x q)).
  destruct Hin as [->|Hin].
  - apply settle_by_absent. rewrite settle_id, <- Hid. exact Hout.
  - rewrite (settle_other x q).
    + now apply IH.
    + intro E. apply Hout. rewrite <- E, <- Hid. now apply in_map.
Qed.

End SettleFacts.

(** X23: the queue a batch on the direct path leaves behind does not
    depend on the order in which the classifications settle.  Every item
    taken up ends done, with the analysis made for it as its result, or in
    error, with the service's message, which is never empty; none is left
    analyzing.  Items outside the batch are not touched. *)
Theorem batch_queue_ignores_settling_order (config : AnalysisConfig)
    (generateContent : string -> geminiService.Request -> string + string)
    (JSON_parse : string -> string + AnalysisResult)
    (tab : MediaType) (order order' : list QueueItem) (w : World) :
  NoDup (map id order) -> Permutation order order' ->
  let settled_queue :=
    queue (batch_settle_all config generateContent JSON_parse tab order w) in
  settled_queue
  = queue (batch_settle_all config generateContent JSON_parse tab order' w)
  /\ Forall2 (fun q q' =>
       id q' = id q /\ base64 q' = base64 q /\ previewUrl q' = previewUrl q
       /\ (~ In (id q) (map id order) -> q' = q)
       /\ (forall item, In item order -> id item = id q ->
             match detect config generateContent JSON_parse (id item) tab
                     (base64_of item) (Some (mimeType item)) with
             | inr analysis => status q' = Done /\ result q' = Some analysis
                               /\ error q' = error q
             | inl message => status q' = Error /\ error q' = Some message
                              /\ message <> "" /\ result q' = result q
             end))
     (queue w) settled_queue.
Proof.
  intros Hnd Hperm settled_queue. subst settled_queue.
  rewrite !batch_settle_all_queue. split.
  - apply map_ext. intro q. now apply settle_by_permutation.
  - induction (queue w) as [|q l IH]; [constructor|].
    cbn [map]. constructor; [|exact IH].
    split; [apply settle_by_id|].
    split; [apply settle_by_keeps|]. split; [apply settle_by_keeps|].
    destruct (in_dec string_dec (id q) (map id order)) as [Hin|Hout].
    + split; [intro Hout; contradiction|].
      intros item Hin' Hid.
      rewrite (settle_by_outcome config generateContent JSON_parse tab order Hnd q item
                 Hin' Hid).
      unfold settle_in_queue. rewrite Hid, String.eqb_refl. rewrite <- Hid.
      destruct (detect config generateContent JSON_parse (id item) tab (base64_of item)
                  (Some (mimeType item))) as [message|analysis] eqn:Hd.
      * pose proof (detectAIContent_message _ _ _ _ _ _ _ _ Hd) as Hmsg.
        rewrite (str_or_nonempty _ _ Hmsg). repeat split. exact Hmsg.
      * repeat split.
    + rewrite (settle_by_absent config generateContent JSON_parse tab order q Hout).
      split; [reflexivity|].
      intros item Hin Hid. exfalso. apply Hout. rewrite <- Hid. now apply in_map.
Qed.

Lemma batch_queue_ignores_settling_order_witness :
  queue (batch_settle_all Samples.default_config Samples.network Samples.parse IMAGE
           [Samples.photo; Samples.scan] (world Samples.image_app))
  = queue (batch_settle_all Samples.default_config Samples.network Samples.parse IMAGE
             [Samples.scan; Samples.photo] (world Samples.image_app)).
Proof.
  refine (proj1 (batch_queue_ignores_settling_order Samples.default_config Samples.network
                   Samples.parse IMAGE [Samples.photo; Samples.scan]
                   [Samples.scan; Samples.photo] (world Samples.image_app) _ _)).
  - repeat constructor; cbn; intuition discriminate.
  - apply perm_swap.
Defined.

(** ** Settings *)

Lemma differs_false (x y : Q) : differs x y = false <-> x == y.
Proof.
  unfold differs. rewrite Bool.negb_false_iff. apply Qeq_bool_iff.
Qed.

Lemma isModified_false (c : AnalysisConfig) :
  isModified c = false
  <-> preset c = balanced /\ focus c = general
      /\ temperature (advanced c) == 2 # 10 /\ topP (advanced c) == 8 # 10
      /\ topK (advanced c) == 32 /\ reasoningDepth (advanced c) = standard
      /\ progressiveAnalysis (advanced c) = false
      /\ advancedSampleInterval (advanced c) == 5.
Proof.
  unfold isModified. split.
  - destruct (preset c); [|discriminate|discriminate].
    destruct (focus c); [|discriminate|discriminate|discriminate].
    destruct (differs (temperature (advanced c)) (2 # 10)) eqn:E1; [discriminate|].
    destruct (differs (topP (advanced c)) (8 # 10)) eqn:E2; [discriminate|].
    destruct (differs (topK (advanced c)) 32) eqn:E3; [discriminate|].
    destruct (reasoningDepth (advanced c)); [discriminate| |discriminate].
    destruct (progressiveAnalysis (advanced c)); [discriminate|].
    destruct (differs (advancedSampleInterval (advanced c)) 5) eqn:E4; [discriminate|].
    intros _. apply differs_false in E1, E2, E3, E4. repeat split; assumption.
  - intros (-> & -> & H1 & H2 & H3 & -> & -> & H4).
    apply differs_false in H1, H2, H3, H4. now rewrite H1, H2, H3, H4.
Qed.

(** X24: the flag [isModified] is off exactly for the default settings:
    the balanced preset, the general focus and the values of
    [defaultAdvanced].  So it is off after [handleResetConfig], whatever
    the settings were.  Choosing a preset overwrites temperature and topP
    with the preset's values and keeps every other setting: after choosing
    sensitive or conservative the flag is on, and after choosing balanced
    it is off exactly when the focus and the remaining advanced settings
    are the default ones, whatever temperature and topP had been set by
    hand.  The request sent afterwards carries the preset's temperature
    and topP. *)
Theorem modified_flag_tracks_defaults (c : AnalysisConfig) (w : World)
    (p : AnalysisPreset) :
  (isModified c = false
   <-> preset c = balanced /\ focus c = general
       /\ temperature (advanced c) == temperature defaultAdvanced
       /\ topP (advanced c) == topP defaultAdvanced
       /\ topK (advanced c) == topK defaultAdvanced
       /\ reasoningDepth (advanced c) = reasoningDepth defaultAdvanced
       /\ progressiveAnalysis (advanced c) = progressiveAnalysis defaultAdvanced
       /\ advancedSampleInterval (advanced c) == advancedSampleInterval defaultAdvanced)
  /\ isModified (fst (handleResetConfig c w)) = false
  /\ (isModified (handlePresetChange p c) = false
      <-> p = balanced /\ focus c = general
          /\ topK (advanced c) == 32 /\ reasoningDepth (advanced c) = standard
          /\ progressiveAnalysis (advanced c) = false
          /\ advancedSampleInterval (advanced c) == 5)
  /\ (forall parts,
        let req := geminiService.request_for (handlePresetChange p c) parts in
        (geminiService.req_temperature req, geminiService.req_topP req)
        = match p with
          | sensitive => (1 # 10, 7 # 10)
          | balanced => (2 # 10, 8 # 10)
          | conservative => (3 # 10, 9 # 10)
          end
        /\ geminiService.req_topK req = topK (advanced c))
  /\ (forall p', handlePresetChange p (handlePresetChange p' c) = handlePresetChange p c).
Proof.
  split; [apply isModified_false|]. split; [reflexivity|]. split; [|split].
  - rewrite isModified_false. cbn [handlePresetChange preset focus advanced].
    split.
    + intros (-> & Hf & _ & _ & H3 & Hd & Hp & Hi). cbn [with_sampling temperature topP topK
        reasoningDepth progressiveAnalysis advancedSampleInterval] in *.
      repeat split; assumption.
    + intros (-> & Hf & H3 & Hd & Hp & Hi). cbn [with_sampling temperature topP topK
        reasoningDepth progressiveAnalysis advancedSampleInterval].
      repeat split; assumption || reflexivity.
  - intros parts req. subst req. destruct p; split; reflexivity.
  - intro p'. destruct p, p'; reflexivity.
Qed.

(** ** Clearing the queue *)





(** ** Restoring from the history *)

Lemma restore_media (atob_ok : string -> bool) (blobURL : string -> string -> string)
    (uuid : string) (entry : HistoryItem) (a : App) :
  h_mediaType entry <> TEXT ->
  let a' := restoreFromHistory atob_ok blobURL uuid entry a in
  activeTab a' = h_mediaType entry
  /\ shownResult (world a') = Some (h_result entry)
  /\ history (world a') = history (world a)
  /\ textInput a' = textInput a
  /\ exists q,
       queue (world a') = [q]
       /\ activeFileId (world a') = Some uuid
       /\ id q = uuid /\ status q = Done /\ progress q = 100
       /\ result q = Some (h_result entry) /\ error q = None
       /\ (forall c0 c m0 m,
             h_content entry = Some (String c0 c) ->
             h_mimeType entry = Some (String m0 m) ->
             atob_ok (String c0 c) = true ->
             base64 q = Some (String c0 c)
             /\ previewUrl q = Some (blobURL (String c0 c) (String m0 m))
             /\ mimeType q = String m0 m
             /\ toasts (world a') = toasts (world a))
       /\ (h_content entry = None ->
             base64 q = None /\ previewUrl q = None
             /\ toasts (world a')
                = (toasts (world a)
                     ++ [("Media content not available (too large), showing result only.",
                          info)])%list).
Proof.
  intros Hmedia a'. subst a'. unfold restoreFromHistory, restored_from_content.
  destruct (h_content entry) as [[|c0 c]|] eqn:Hc;
    destruct (h_mimeType entry) as [[|m0 m]|] eqn:Hm;
    try destruct (atob_ok (String c0 c)) eqn:Hok;
    destruct (h_mediaType entry); try (now contradiction Hmedia);
    cbn [world in_world setActiveTab activeTab textInput setResult setQueue setActiveFileId
         shownResult history queue toasts activeFileId fold_left addToast fst snd app id
         placeholder];
    (do 4 (split; [reflexivity|])); eexists; (do 7 (split; [reflexivity|]));
    (split; [intros ? ? ? ? H1 H2 H3 | intro H1]);
    try discriminate; try congruence;
    try (injection H1 as <- <-; injection H2 as <- <-; repeat split);
    repeat split.
Qed.

(** X26: an analysis saved to the history can be restored from the entry
    it was saved as, which is the newest one.  Restoring switches to the
    entry's mode and shows the saved result.  For text it empties the
    queue and puts the saved text back, or the empty text when none was
    kept (text longer than 5 * 1024 * 1024 is not kept).  For media it
    replaces the queue by a single item, made active, done, and carrying
    the saved result; the item has the saved content as [base64] and a
    preview URL made from it when content and MIME type were saved
    non-empty, the content was short enough to be kept and decodes;
    content too long to be kept gives an item without content and preview
    and the info toast "Media content not available (too large), showing
    result only.". *)
Theorem restore_after_save (atob_ok : string -> bool)
    (blobURL : string -> string -> string) (uuid : string)
    (analysis : AnalysisResult) (type : MediaType) (preview : string)
    (content mime name : option string) (w : World) (a : App) :
  let too_long c := (5 * 1024 * 1024 <? N.of_nat (String.length c))%N in
  exists entry rest,
    history (saveToHistory analysis type preview content mime name w) = entry :: rest
    /\ let a' := restoreFromHistory atob_ok blobURL uuid entry a in
       activeTab a' = type
       /\ shownResult (world a') = Some analysis
       /\ history (world a') = history (world a)
       /\ (type = TEXT ->
             queue (world a') = []
             /\ toasts (world a') = toasts (world a)
             /\ textInput a'
                = match content with
                  | Some c => if too_long c then "" else c
                  | None => ""
                  end)
       /\ (type <> TEXT ->
             textInput a' = textInput a
             /\ exists q,
                  queue (world a') = [q]
                  /\ activeFileId (world a') = Some uuid
                  /\ id q = uuid /\ status q = Done /\ progress q = 100
                  /\ result q = Some analysis /\ error q = None
                  /\ (forall c0 c m0 m,
                        content = Some (String c0 c) -> mime = Some (String m0 m) ->
                        too_long (String c0 c) = false ->
                        atob_ok (String c0 c) = true ->
                        base64 q = Some (String c0 c)
                        /\ previewUrl q = Some (blobURL (String c0 c) (String m0 m))
                        /\ mimeType q = String m0 m
                        /\ toasts (world a') = toasts (world a))
                  /\ (forall c,
                        content = Some c -> too_long c = true ->
                        base64 q = None /\ previewUrl q = None
                        /\ toasts (world a')
                           = (toasts (world a)
                                ++ [("Media content not available (too large), showing result only.",
                                     info)])%list)).
Proof.
  intro too_long. unfold saveToHistory, setHistory, JS.slice0. cbn [history firstn].
  set (safe := match content with
               | Some c => if (5 * 1024 * 1024 <? N.of_nat (String.length c))%N
                           then None else content
               | None => None
               end).
  exists (mkHistoryItem type preview analysis safe mime name). eexists.
  split; [reflexivity|].
  destruct (MediaType_eq_dec type TEXT) as [->|Hmedia].
  - unfold restoreFromHistory.
    cbn [h_mediaType h_result world in_world setActiveTab setTextInput activeTab textInput
         setResult setQueue shownResult history queue toasts h_content].
    do 3 (split; [reflexivity|]). split; [|intro H; now contradiction H].
    intros _. do 2 (split; [reflexivity|]).
    subst safe too_long. destruct content as [c|]; [|reflexivity]. cbv beta.
    destruct (5 * 1024 * 1024 <? N.of_nat (String.length c))%N; [reflexivity|].
    now destruct c.
  - destruct (restore_media atob_ok blobURL uuid
                (mkHistoryItem type preview analysis safe mime name) a Hmedia)
      as (Ha & Hs & Hh & Ht & q & Q1 & Q2 & Q3 & Q4 & Q5 & Q6 & Q7 & Qgood & Qnone).
    cbn [h_mediaType h_result h_content h_mimeType] in *.
    split; [exact Ha|]. split; [exact Hs|]. split; [exact Hh|].
    split; [intro H; now contradiction Hmedia|]. intros _.
    split; [exact Ht|]. exists q.
    do 7 (split; [assumption|]). split.
    + intros c0 c m0 m Hc Hm Hshort Hok. apply Qgood; [|exact Hm|exact Hok].
      subst safe too_long. rewrite Hc. cbv beta in Hshort |- *. now rewrite Hshort.
    + intros c Hc Hlong. apply Qnone. subst safe too_long. rewrite Hc.
      cbv beta in Hlong |- *. now rewrite Hlong.
Qed.

(** ** From a dropped file to its analysis *)

(** X27: a video of more than 18 * 1024 * 1024 bytes dropped on the empty
    queue of the video mode is queued as the active item without its
    content being read, and analysing it then samples it: the video is
    loaded from the object URL made for the file, frames are captured at
    the configured interval and classified one by one, and the video is
    detached at the end, also when progressive analysis is switched
    off. *)
Theorem dropped_large_video_is_sampled
    (createObjectURL : File -> string) (randomUUID : nat -> string)
    (file_size_of : QueueItem -> N) (config : AnalysisConfig)
    (generateContent : string -> geminiService.Request -> string + string)
    (JSON_parse : string -> string + AnalysisResult)
    (duration_of : QueueItem -> Q) (frame_of : QueueItem -> Q -> string)
    (frame_answer : QueueItem -> nat -> geminiService.Request -> string + string)
    (file : File) (a : App) :
  activeTab a = VIDEO -> queue (world a) = [] -> activeFileId (world a) = None ->
  accepts VIDEO file = true ->
  (SAFE_INLINE_LIMIT < file_size file)%N ->
  createObjectURL file <> "" ->
  (forall q, id q = randomUUID 0%nat -> file_size_of q = file_size file) ->
  let a1 := handleFiles createObjectURL randomUUID [file] a in
  let a2 := handleAnalyze file_size_of config generateContent JSON_parse
              duration_of frame_of frame_answer a1 in
  exists item,
    queue (world a1) = [item] /\ activeItem (world a1) = Some item
    /\ id item = randomUUID 0%nat /\ status item = Ready
    /\ base64 item = Some "" /\ reads a1 = reads a
    /\ calls (world a1) = calls (world a)
    /\ let ts := timestamps (duration_of item)
                   (advancedSampleInterval (advanced config)) in
       exists m,
         (1 <= m <= List.length ts)%nat
         /\ calls (world a2)
            = (calls (world a) ++ VideoLoad (createObjectURL file)
                 :: flat_map (fun i =>
                      Seek (nth i ts 0)
                      :: match frame_of item (nth i ts 0) with
                         | EmptyString => []
                         | payload => [Classify payload]
                         end) (seq 0 m)
                 ++ [VideoDetach])%list.
Proof.
  intros Htab Hq Hact Hacc Hbig Hurl Hsize a1 a2.
  unfold accepts in Hacc. cbn [FILE_CONFIG] in Hacc.
  apply andb_prop in Hacc. destruct Hacc as [Hmax Hinc].
  assert (Ha1 : queue (world a1)
                = [mkQueueItem (randomUUID 0%nat) (file_name file) Ready 100
                     (Some (createObjectURL file)) (Some "") (getMimeType file)
                     None None None None]
                /\ activeFileId (world a1) = Some (randomUUID 0%nat)
                /\ reads a1 = reads a /\ calls (world a1) = calls (world a)
                /\ activeTab a1 = VIDEO).
  { subst a1. unfold handleFiles. rewrite Htab. cbn [FILE_CONFIG].
    unfold screen_files. cbn [fold_left]. unfold screen_file.
    cbn [errorDetails validFiles rejectedCount].
    apply N.leb_le in Hmax.
    assert (Hnot : (MAX_FILE_SIZE <? file_size file)%N = false)
      by (now apply N.ltb_ge).
    rewrite Hnot, Hinc. cbn [andb negb validFiles rejectedCount app].
    cbn [new_items process_all]. unfold processFile.
    cbn [activeTab in_world]. rewrite Htab.
    apply N.ltb_lt in Hbig. rewrite Hbig.
    cbn [world in_world]. rewrite Hact. unfold updateQueueItemFile.
    cbn [setQueue setActiveFileId queue activeFileId reads calls activeTab]. rewrite Hq.
    cbn [app map new_item id]. rewrite String.eqb_refl.
    repeat split; try reflexivity; assumption. }
  destruct Ha1 as (Q1 & A1 & R1 & C1 & T1).
  set (item := mkQueueItem (randomUUID 0%nat) (file_name file) Ready 100
                 (Some (createObjectURL file)) (Some "") (getMimeType file)
                 None None None None) in *.
  assert (Hitem : activeItem (world a1) = Some item).
  { unfold activeItem. rewrite A1, Q1. cbn [find]. subst item. cbn [id].
    now rewrite String.eqb_refl. }
  exists item. do 2 (split; [assumption|]). do 3 (split; [reflexivity|]).
  do 2 (split; [assumption|]).
  intro ts. subst a2. unfold handleAnalyze. rewrite Hitem.
  assert (Hpath : takes_progressive_path file_size_of config (activeTab a1) item = true).
  { unfold takes_progressive_path. rewrite T1, (Hsize item eq_refl).
    apply Bool.orb_true_iff. right. now apply N.ltb_lt. }
  rewrite Hpath. cbn [world in_world].
  destruct (quiet_run_calls (progressive_env config JSON_parse duration_of frame_of
                               frame_answer item) item (createObjectURL file) (world a1)
              eq_refl Hurl) as (m & Hm & Hc & _).
  exists m. split; [exact Hm|]. rewrite <- C1. exact Hc.
Qed.

Lemma dropped_large_video_is_sampled_witness :
  reads (handleFiles Samples.createObjectURL Samples.randomUUID [Samples.long_clip]
           Samples.empty_video_app) = [].
Proof.
  destruct (dropped_large_video_is_sampled Samples.createObjectURL Samples.randomUUID
              Samples.twenty_mebibytes Samples.default_config Samples.network
              Samples.parse Samples.durations Samples.frames Samples.frame_network
              Samples.long_clip Samples.empty_video_app)
    as (item & _ & _ & _ & _ & _ & Hreads & _).
  - reflexivity.
  - reflexivity.
  - reflexivity.
  - vm_compute. reflexivity.
  - reflexivity.
  - discriminate.
  - intros q _. reflexivity.
  - exact Hreads.
Defined.

(** X28: a file of at most 18 * 1024 * 1024 bytes that the mode accepts,
    dropped on the empty queue, is queued as the active item and starts
    being read; once it has been read, analysing it with progressive
    analysis switched off sends the service exactly one request, whose
    inline part carries the payload of the data URL under the MIME type
    inferred for the file, so the service never rejects it for a missing
    MIME type.  The item then ends done or in error. *)
Theorem dropped_small_file_is_sent_whole
    (createObjectURL : File -> string) (randomUUID : nat -> string)
    (file_size_of : QueueItem -> N) (config : AnalysisConfig)
    (generateContent : string -> geminiService.Request -> string + string)
    (JSON_parse : string -> string + AnalysisResult)
    (duration_of : QueueItem -> Q) (frame_of : QueueItem -> Q -> string)
    (frame_answer : QueueItem -> nat -> geminiService.Request -> string + string)
    (file : File) (header payload : string) (a : App) :
  queue (world a) = [] -> activeFileId (world a) = None ->
  accepts (activeTab a) file = true ->
  (file_size file <= SAFE_INLINE_LIMIT)%N ->
  progressiveAnalysis (advanced config) = false ->
  (forall q, id q = randomUUID 0%nat -> file_size_of q = file_size file) ->
  comma_free header = true -> comma_free payload = true ->
  let rid := randomUUID 0%nat in
  let a1 := handleFiles createObjectURL randomUUID [file] a in
  let a2 := reader_onload createObjectURL rid file (header ++ "," ++ payload) a1 in
  let a3 := handleAnalyze file_size_of config generateContent JSON_parse
              duration_of frame_of frame_answer a2 in
  reads a1 = (reads a ++ [rid])%list
  /\ calls (world a3) = (calls (world a) ++ [Classify payload])%list
  /\ fst (geminiService.detectAIContent AnalysisResult (generateContent rid) JSON_parse
            (activeTab a) payload (Some (getMimeType file)) config)
     = [geminiService.request_for config
          [geminiService.InlineData (getMimeType file) payload;
           geminiService.Text (geminiService.mediaPrompt config)]]
  /\ exists q,
       queue (world a3) = [q] /\ id q = rid /\ base64 q = Some payload
       /\ previewUrl q = Some (createObjectURL file)
       /\ match detect config generateContent JSON_parse rid (activeTab a) payload
                  (Some (getMimeType file)) with
          | inr analysis => status q = Done /\ result q = Some analysis
          | inl message => status q = Error /\ error q = Some message /\ message <> ""
          end.
Proof.
  intros Hq Hact Hacc Hsmall Hprog Hsize Hh Hp rid a1 a2 a3.
  unfold accepts in Hacc.
  destruct (FILE_CONFIG (activeTab a)) as [[mime label]|] eqn:Hcfg; [|discriminate].
  apply andb_prop in Hacc. destruct Hacc as [Hmax Hinc].
  apply N.leb_le in Hmax.
  assert (Hnot : (MAX_FILE_SIZE <? file_size file)%N = false) by (now apply N.ltb_ge).
  assert (Hfits : (SAFE_INLINE_LIMIT <? file_size file)%N = false) by (now apply N.ltb_ge).
  assert (Hmime : getMimeType file <> "").
  { intro E. rewrite E in Hinc. destruct (activeTab a); cbn in Hcfg;
      [discriminate Hcfg| | |]; injection Hcfg as <- _; discriminate Hinc. }
  assert (Hmedia : activeTab a <> TEXT) by (intro E; rewrite E in Hcfg; discriminate Hcfg).
  set (item0 := mkQueueItem rid (file_name file) Uploading 0 None None (getMimeType file)
                  None None None None).
  assert (Ha1 : queue (world a1) = [item0]
                /\ activeFileId (world a1) = Some rid
                /\ reads a1 = (reads a ++ [rid])%list
                /\ calls (world a1) = calls (world a)
                /\ activeTab a1 = activeTab a).
  { subst a1. unfold handleFiles. rewrite Hcfg.
    unfold screen_files. cbn [fold_left]. unfold screen_file.
    cbn [errorDetails validFiles rejectedCount].
    rewrite Hnot, Hinc. cbn [andb negb validFiles rejectedCount app].
    cbn [new_items process_all]. unfold processFile.
    cbn [activeTab in_world]. rewrite Hfits.
    assert (Hread : forall b : App,
              match activeTab a with
              | VIDEO => start_read (randomUUID 0%nat) b
              | _ => start_read (randomUUID 0%nat) b
              end = start_read (randomUUID 0%nat) b) by (intro b; now destruct (activeTab a)).
    rewrite Hread. cbn [start_read world in_world reads activeTab]. rewrite Hact.
    cbn [setQueue setActiveFileId queue activeFileId calls]. rewrite Hq.
    repeat split. }
  destruct Ha1 as (Q1 & A1 & R1 & C1 & T1).
  set (item := mkQueueItem rid (file_name file) Ready 100 (Some (createObjectURL file))
                 (Some payload) (getMimeType file) None None None None).
  assert (Ha2 : queue (world a2) = [item] /\ activeFileId (world a2) = Some rid
                /\ calls (world a2) = calls (world a) /\ activeTab a2 = activeTab a
                /\ toasts (world a2) = toasts (world a1)).
  { subst a2. unfold reader_onload, updateQueueItemFile.
    cbn [world in_world setQueue queue activeFileId calls activeTab toasts].
    rewrite Q1, A1, C1, T1. cbn [map item0 id]. rewrite String.eqb_refl.
    rewrite (second_piece_after_header _ _ Hh), (second_piece_payload _ "" Hp).
    repeat split. }
  destruct Ha2 as (Q2 & A2 & C2 & T2 & _).
  assert (Hitem : activeItem (world a2) = Some item).
  { unfold activeItem. rewrite A2, Q2. cbn [find item id]. now rewrite String.eqb_refl. }
  assert (Hpath : takes_progressive_path file_size_of config (activeTab a2) item = false).
  { unfold takes_progressive_path. rewrite Hprog, (Hsize item eq_refl), Hfits.
    now destruct (activeTab a2). }
  split; [exact R1|].
  subst a3. unfold handleAnalyze. rewrite Hitem, Hpath. cbn [world in_world].
  unfold analyze_directly. rewrite T2.
  change (base64_of item) with payload. change (id item) with rid.
  change (mimeType item) with (getMimeType file).
  split.
  { destruct (detect config generateContent JSON_parse rid (activeTab a) payload
                (Some (getMimeType file)));
      cbn [calls addToast saveToHistory setHistory updateQueueItem setQueue call];
      now rewrite C2. }
  split.
  { unfold geminiService.detectAIContent.
    destruct (activeTab a); [now contradiction Hmedia| | |];
      (destruct (getMimeType file); [now contradiction Hmime | reflexivity]). }
  destruct (detect config generateContent JSON_parse rid (activeTab a) payload
              (Some (getMimeType file))) as [message|analysis] eqn:Hd.
  - pose proof (detectAIContent_message _ _ _ _ _ _ _ _ Hd) as Hmsg.
    rewrite (str_or_nonempty _ _ Hmsg).
    cbn [queue addToast updateQueueItem setQueue call]. rewrite Q2.
    cbn [map item id]. rewrite String.eqb_refl. cbn [map]. rewrite String.eqb_refl.
    eexists. split; [reflexivity|]. repeat split. exact Hmsg.
  - cbn [queue addToast saveToHistory setHistory updateQueueItem setQueue call]. rewrite Q2.
    cbn [map item id]. rewrite String.eqb_refl. cbn [map]. rewrite String.eqb_refl.
    eexists. split; [reflexivity|]. repeat split.
Qed.

Lemma dropped_small_file_is_sent_whole_witness :
  reads (handleFiles Samples.createObjectURL Samples.randomUUID [Samples.picture]
           Samples.empty_image_app) = ["id-0"].
Proof.
  refine (proj1 (dropped_small_file_is_sent_whole Samples.createObjectURL
                   Samples.randomUUID Samples.one_kibibyte Samples.default_config
                   Samples.network Samples.parse Samples.durations Samples.frames
                   Samples.frame_network Samples.picture "data:image/png;base64"
                   "iVBORw0KGgo" Samples.empty_image_app _ _ _ _ _ _ _ _)).
  - reflexivity.
  - reflexivity.
  - reflexivity.
  - vm_compute. discriminate.
  - reflexivity.
  - intros q _. reflexivity.
  - reflexivity.
  - reflexivity.
Defined.
